(** * The FAQ widget ([static/faq-widget.js]): model and verification

    The custom element [FAQWidget] is embedded method by method.

    Conventions of the embedding.
    - A JavaScript string is a [string]; one character stands for one
      UTF-16 code unit (code units below 256), so [String.length] is the
      [.length] of the source.
    - A value read from JSON is a [value]; numbers are IEEE doubles.
    - [this] is the record [widget]; the fields the constructor sets once
      and nothing assigns again ([maxRetries], [retryDelay], ...) are
      constants.
    - Services of the JavaScript engine that the source calls but does not
      contain ([JSON.parse], the numeric coercion of non-numbers) are the
      fields of an [engine], a variable of the development. *)

From Corelib Require Import PrimFloat.
From Stdlib Require Import Ascii.
From stdpp Require Import base option list strings pretty gmap.

Set Warnings "-register-all".
#[local] Open Scope string_scope.

(** ** JavaScript values *)

(** What a [throw] carries: the [name] and [message] of an [Error]. *)
Record js_error := JsError { name : string; message : string }.

Inductive value :=
| JUndefined
| JNull
| JBool (b : bool)
| JNum (n : float)
| JStr (s : string)
| JArr (items : list value)
| JObj (props : list (string * value)).

(** The services of the engine.  [JSON_parse] is [JSON.parse] ([None]: it
    throws a SyntaxError).  [ToNumber] is the abstract operation of that
    name on a string, an array or a plain object (through ToPrimitive, which
    may throw a TypeError). *)
Record engine := Engine {
  JSON_parse : string -> option value;
  ToNumber : value -> js_error + float
}.

(** ToBoolean. *)
Definition truthy (v : value) : bool :=
  match v with
  | JUndefined | JNull => false
  | JBool b => b
  | JNum n => negb (PrimFloat.eqb n 0 || negb (PrimFloat.eqb n n))
  | JStr s => negb (String.eqb s "")
  | JArr _ | JObj _ => true
  end.

(** The own property [k] of an object literal read by [JSON.parse]: of two
    members with one key the later wins. *)
Definition own_property (k : string) (props : list (string * value)) : value :=
  match List.find (λ member, String.eqb (fst member) k) (rev props) with
  | Some member => snd member
  | None => JUndefined
  end.

(** [v.k] for a [v] that is neither [null] nor [undefined] and a key [k]
    that no prototype defines ([faqs], [question], ...). *)
Definition get (v : value) (k : string) : value :=
  match v with
  | JObj props => own_property k props
  | _ => JUndefined
  end.

Definition Array_isArray (v : value) : bool :=
  match v with
  | JArr _ => true
  | _ => false
  end.

(** [typeof v === 'string'] *)
Definition typeof_string (v : value) : bool :=
  match v with
  | JStr _ => true
  | _ => false
  end.

(** ** Strings *)

(** WhiteSpace and LineTerminator code units below 256: TAB, LF, VT, FF, CR,
    SP and NBSP. *)
Definition is_white_space (c : ascii) : bool :=
  bool_decide (N_of_ascii c ∈ [9; 10; 11; 12; 13; 32; 160]%N).

Fixpoint trimStart (s : string) : string :=
  match s with
  | String c r => if is_white_space c then trimStart r else s
  | EmptyString => EmptyString
  end.

Fixpoint trimEnd (s : string) : string :=
  match s with
  | String c r =>
      match trimEnd r with
      | EmptyString => if is_white_space c then EmptyString else String c EmptyString
      | r' => String c r'
      end
  | EmptyString => EmptyString
  end.

(** [String.prototype.trim] *)
Definition trim (s : string) : string := trimEnd (trimStart s).

(** [String.prototype.includes] *)
Fixpoint includes (s sub : string) : bool :=
  String.prefix sub s ||
  match s with
  | String _ r => includes r sub
  | EmptyString => false
  end.

(** ** The sanitizer *)

Record FaqItem := Faq { question : string; answer : string }.

Definition maxFaqs : nat := 10.

(** The object [{question, answer}]. *)
Definition faq_object (f : FaqItem) : value :=
  JObj [("question", JStr (question f)); ("answer", JStr (answer f))].

(** The array a list of items is in JavaScript. *)
Definition faq_array (l : list FaqItem) : value := JArr (faq_object <$> l).

(** [faq => faq && typeof faq.question === 'string' && typeof faq.answer === 'string'] *)
Definition has_text_fields (faq : value) : bool :=
  truthy faq && typeof_string (get faq "question") && typeof_string (get faq "answer").

Definition text_of (v : value) : string :=
  match v with
  | JStr s => s
  | _ => ""
  end.

(** [faq => ({question: faq.question.trim(), answer: faq.answer.trim()})],
    applied to entries that passed [has_text_fields]. *)
Definition trimmed (faq : value) : FaqItem :=
  {| question := trim (text_of (get faq "question"));
     answer := trim (text_of (get faq "answer")) |}.

(** [faq => faq.question && faq.answer] *)
Definition nonblank (faq : FaqItem) : bool :=
  negb (String.eqb (question faq) "") && negb (String.eqb (answer faq) "").

Definition validateAndLimitFaqs (faqs : value) : list FaqItem :=
  match faqs with
  | JArr l => take maxFaqs (filter nonblank (trimmed <$> filter has_text_fields l))
  | _ => []
  end.

(** The sanitizer in the words of its contract: what becomes of one
    candidate entry. *)
Definition normalize_entry (candidate : value) : option FaqItem :=
  match get candidate "question", get candidate "answer" with
  | JStr q, JStr a =>
      if bool_decide (trim q ≠ "" ∧ trim a ≠ "")
      then Some {| question := trim q; answer := trim a |}
      else None
  | _, _ => None
  end.

(** An item the sanitizer leaves as it is. *)
Definition normal (f : FaqItem) : Prop :=
  normalize_entry (faq_object f) = Some f.

(** ** The element: its fields and its DOM *)

Definition maxRetries : nat := 3.
Definition retryDelay : Z := 2000.
Definition requestTimeout : Z := 8000.
Definition maxInlineItems : nat := 100.
Definition maxInlineSize : nat := 64 * 1024.

(** One [div.faq-item] of the shadow tree: the texts shown (markup in them
    is escaped by [escapeHtml], so they are text nodes) and the two
    attributes the accordion writes, [aria-expanded] of the
    [button.faq-question] and [aria-hidden] of the [div.faq-answer]. *)
Record faq_item := FaqItemDom {
  item_question : string;
  item_answer : string;
  aria_expanded : bool;
  aria_hidden : bool
}.

(** What [shadowRoot.innerHTML] holds, by the template that produced it. *)
Inductive shadow_dom :=
| Blank
| Accordion (heading : string) (items : list faq_item)
| Notice (heading : string) (status : string)
| Loading (heading : string) (status : string)
| ErrorBox (status : string).

(** The document [injectJsonLd] serialises into a
    [script type="application/ld+json"]. *)
Record json_ld := JsonLd { ld_name : string; mainEntity : list FaqItem }.

(** [this].  The light DOM is seen through what the methods query: the text
    of the first [script type="application/json"] and the
    [script type="application/ld+json"] elements in document order. *)
Record widget := Widget {
  retryCount : nat;
  currentOpenIndex : Z;
  attributes : gmap string string;
  style : gmap string string;
  shadowRoot : option shadow_dom;
  inline_script : option string;
  ld_scripts : list json_ld
}.

Definition set_retryCount (n : nat) (w : widget) : widget :=
  Widget n (currentOpenIndex w) (attributes w) (style w) (shadowRoot w)
    (inline_script w) (ld_scripts w).

Definition set_currentOpenIndex (i : Z) (w : widget) : widget :=
  Widget (retryCount w) i (attributes w) (style w) (shadowRoot w)
    (inline_script w) (ld_scripts w).

Definition set_attributes (a : gmap string string) (w : widget) : widget :=
  Widget (retryCount w) (currentOpenIndex w) a (style w) (shadowRoot w)
    (inline_script w) (ld_scripts w).

Definition set_style (s : gmap string string) (w : widget) : widget :=
  Widget (retryCount w) (currentOpenIndex w) (attributes w) s (shadowRoot w)
    (inline_script w) (ld_scripts w).

Definition set_shadowRoot (d : option shadow_dom) (w : widget) : widget :=
  Widget (retryCount w) (currentOpenIndex w) (attributes w) (style w) d
    (inline_script w) (ld_scripts w).

Definition set_ld_scripts (l : list json_ld) (w : widget) : widget :=
  Widget (retryCount w) (currentOpenIndex w) (attributes w) (style w)
    (shadowRoot w) (inline_script w) l.

(** The element as [constructor()] leaves it, with the attributes and
    children the page wrote. *)
Definition constructor (attrs : gmap string string) (inline : option string)
    (ld : list json_ld) : widget :=
  {| retryCount := 0;
     currentOpenIndex := -1;
     attributes := attrs;
     style := ∅;
     shadowRoot := None;
     inline_script := inline;
     ld_scripts := ld |}.

(** ** Synchronous methods: state and exceptions *)

Inductive outcome (A : Type) : Type :=
| Normal (a : A)
| Thrown (e : js_error).
Arguments Normal {A} a.
Arguments Thrown {A} e.

Definition sync (A : Type) : Type := widget → outcome A * widget.

#[global] Instance sync_ret : MRet sync := λ A a w, (Normal a, w).

#[global] Instance sync_bind : MBind sync := λ A B f m w,
  match m w with
  | (Normal a, w') => f a w'
  | (Thrown e, w') => (Thrown e, w')
  end.

Definition this : sync widget := λ w, (Normal w, w).
Definition assign (f : widget → widget) : sync unit := λ w, (Normal tt, f w).
Definition throw {A} (e : js_error) : sync A := λ w, (Thrown e, w).

Definition Error (msg : string) : js_error := JsError "Error" msg.
(** TypeErrors of the engine; the wording is V8's. *)
Definition TypeError (msg : string) : js_error := JsError "TypeError" msg.
Definition null_shadowRoot : js_error :=
  TypeError "Cannot read properties of null".
Definition undefined_element : js_error :=
  TypeError "Cannot read properties of undefined (reading 'setAttribute')".
Definition includes_not_a_function : js_error :=
  TypeError "result.message.includes is not a function".

(** [this.shadowRoot.innerHTML = ...] *)
Definition set_innerHTML (d : shadow_dom) : sync unit :=
  w ← this;
  match shadowRoot w with
  | Some _ => assign (set_shadowRoot (Some d))
  | None => throw null_shadowRoot
  end.

Definition buildAccordion (faqs : list FaqItem) : list faq_item :=
  (λ faq, FaqItemDom (question faq) (answer faq) false true) <$> faqs.

(** The tree the template of [render] parses to. *)
Definition content (faqs : value) (heading : string) : shadow_dom :=
  let validFaqs := validateAndLimitFaqs faqs in
  if bool_decide (0 < length validFaqs)
  then Accordion heading (buildAccordion validFaqs)
  else Notice heading "No FAQs available".

Definition render (faqs : value) (heading : string) : sync unit :=
  set_innerHTML (content faqs heading).

Definition renderLoading (heading : string) : sync unit :=
  set_innerHTML (Loading heading "Loading FAQs...").

(** [querySelector('.status')] finds the status line of the loading view,
    of the error view and of the empty content view; an accordion has
    none. *)
Definition renderStatus (message : string) : sync unit :=
  w ← this;
  match shadowRoot w with
  | None => throw null_shadowRoot
  | Some (Notice h _) => assign (set_shadowRoot (Some (Notice h message)))
  | Some (Loading h _) => assign (set_shadowRoot (Some (Loading h message)))
  | Some (ErrorBox _) => assign (set_shadowRoot (Some (ErrorBox message)))
  | Some (Blank | Accordion _ _) => mret tt
  end.

Definition renderError (message : string) : sync unit :=
  set_innerHTML (ErrorBox message).

(** [questions[index].setAttribute(..)] and [answers[index].setAttribute(..)]
    on the lists [querySelectorAll] returns: one button and one answer per
    item of an accordion, none in any other view. *)
Definition set_item_attributes (index : nat) (expanded hidden : bool) : sync unit :=
  w ← this;
  match shadowRoot w with
  | None => throw null_shadowRoot
  | Some (Accordion h items) =>
      if bool_decide (index < length items)
      then assign (set_shadowRoot (Some (Accordion h
             (alter (λ it, FaqItemDom (item_question it) (item_answer it) expanded hidden)
                    index items))))
      else throw undefined_element
  | Some _ => throw undefined_element
  end.

Definition openItem (index : nat) : sync unit :=
  set_item_attributes index true false.

Definition closeItem (index : nat) : sync unit :=
  set_item_attributes index false true.

Definition toggleItem (index : nat) : sync unit :=
  w ← this;
  if bool_decide (shadowRoot w = None) then throw null_shadowRoot
  else if bool_decide (currentOpenIndex w = Z.of_nat index) then
    closeItem index;;
    assign (set_currentOpenIndex (-1))
  else
    (if bool_decide (0 ≤ currentOpenIndex w)%Z
     then closeItem (Z.to_nat (currentOpenIndex w))
     else mret tt);;
    openItem index;;
    assign (set_currentOpenIndex (Z.of_nat index)).

Definition injectJsonLd (faqs : value) (heading : string) : sync unit :=
  let validFaqs := validateAndLimitFaqs faqs in
  if bool_decide (length validFaqs = 0) then mret tt
  else
    let jsonLd := JsonLd heading validFaqs in
    w ← this;
    assign (set_ld_scripts (drop 1 (ld_scripts w) ++ [jsonLd])%list).

Definition mappings : list (string * string) :=
  [("font_family", "--faq-font-family");
   ("header_color", "--faq-header-color");
   ("header_background_color", "--faq-header-bg");
   ("title_font_weight", "--faq-title-weight");
   ("title_font_size", "--faq-title-size");
   ("body_background_color", "--faq-body-bg");
   ("message_font_size", "--faq-message-size")].

(** [typeof v === 'object'] *)
Definition typeof_object (v : value) : bool :=
  match v with
  | JNull | JArr _ | JObj _ => true
  | _ => false
  end.

Definition applyConfig (config : value) : sync unit :=
  if negb (truthy config) || negb (typeof_object config) then mret tt
  else
    w ← this;
    assign (set_style
      (foldl (λ st m,
                match get config (fst m) with
                | JStr v => if String.eqb (trim v) "" then st else <[snd m := v]> st
                | _ => st
                end)
             (style w) mappings)).

(** ** Asynchronous methods

    A method is a tree of the effects it performs.  The constructors
    [AwaitFetch], [AwaitJson] and [AwaitDelay] are the [await]s of the
    source, where the method is suspended and other callbacks may run;
    everything between two of them runs without interruption. *)

(** Which [JSON.parse] of the source is called. *)
Inductive origin := InlineData | ConfigAttribute.

(** [fetch(`${api}/page-faqs?${params}`, {mode: 'cors', credentials: 'omit',
    headers: {'Accept': 'application/json'}, signal})]: the query
    parameters in the order they were set, and the delay after which the
    signal aborts. *)
Record request := Request {
  endpoint : string;
  params : list (string * string);
  abort_after : Z
}.

(** A response: [ok], [status], and what [response.json()] settles to. *)
Record response := Response {
  ok : bool;
  status : nat;
  body : outcome value
}.

(** How the promise of [fetch] settles.  An abort by the timeout rejects it
    with an error named [AbortError]. *)
Inductive settled :=
| Fulfilled (r : response)
| Rejected (e : js_error).

Inductive prog (A : Type) : Type :=
| Ret (a : A)
| Throw (e : js_error)
| Diverge
| Read (k : widget → prog A)
| Run (m : sync unit) (k : outcome unit → prog A)
| Warn (msg : string) (k : prog A)
| Parse (o : origin) (text : string) (k : option value → prog A)
| AwaitFetch (req : request) (k : settled → prog A)
| AwaitJson (r : response) (k : outcome value → prog A)
| AwaitDelay (ms : Z) (k : prog A).
Arguments Ret {A} a.
Arguments Throw {A} e.
Arguments Diverge {A}.
Arguments Read {A} k.
Arguments Run {A} m k.
Arguments Warn {A} msg k.
Arguments Parse {A} o text k.
Arguments AwaitFetch {A} req k.
Arguments AwaitJson {A} r k.
Arguments AwaitDelay {A} ms k.

Fixpoint prog_bind {A B} (f : A → prog B) (p : prog A) : prog B :=
  match p with
  | Ret a => f a
  | Throw e => Throw e
  | Diverge => Diverge
  | Read k => Read (λ w, prog_bind f (k w))
  | Run m k => Run m (λ o, prog_bind f (k o))
  | Warn msg k => Warn msg (prog_bind f k)
  | Parse o text k => Parse o text (λ r, prog_bind f (k r))
  | AwaitFetch req k => AwaitFetch req (λ s, prog_bind f (k s))
  | AwaitJson r k => AwaitJson r (λ o, prog_bind f (k o))
  | AwaitDelay ms k => AwaitDelay ms (prog_bind f k)
  end.

#[global] Instance prog_ret : MRet prog := λ A a, Ret a.
#[global] Instance prog_mbind : MBind prog := λ A B f p, prog_bind f p.

(** [try { p } catch (error) { h error }] *)
Fixpoint try_catch {A} (p : prog A) (h : js_error → prog A) : prog A :=
  match p with
  | Ret a => Ret a
  | Throw e => h e
  | Diverge => Diverge
  | Read k => Read (λ w, try_catch (k w) h)
  | Run m k => Run m (λ o, try_catch (k o) h)
  | Warn msg k => Warn msg (try_catch k h)
  | Parse o text k => Parse o text (λ r, try_catch (k r) h)
  | AwaitFetch req k => AwaitFetch req (λ s, try_catch (k s) h)
  | AwaitJson r k => AwaitJson r (λ o, try_catch (k o) h)
  | AwaitDelay ms k => AwaitDelay ms (try_catch k h)
  end.

Definition settle_outcome {A} (o : outcome A) : prog A :=
  match o with
  | Normal a => Ret a
  | Thrown e => Throw e
  end.

(** A call of a synchronous method. *)
Definition call (m : sync unit) : prog unit := Run m settle_outcome.
Definition read : prog widget := Read Ret.
Definition console_warn (msg : string) : prog unit := Warn msg (Ret tt).
Definition delay (ms : Z) : prog unit := AwaitDelay ms (Ret tt).

(** [await fetch(..)] and [await response.json()] *)
Definition await_fetch (req : request) : prog response :=
  AwaitFetch req (λ s, match s with Fulfilled r => Ret r | Rejected e => Throw e end).
Definition await_json (r : response) : prog value :=
  AwaitJson r settle_outcome.

(** Number to string, for the integers the templates print. *)
Definition decimal (n : nat) : string := pretty n.

(** The request [fetchFaqs] sends. *)
Definition page_faqs_request (api url : string) (lang : option string)
    (forceRefresh : bool) : request :=
  Request (api +:+ "/page-faqs")
    ([("url", url)]
     ++ match lang with
        | Some l => if String.eqb l "" then [] else [("target_language", l)]
        | None => []
        end
     ++ (if forceRefresh then [("force_refresh", "true")] else []))%list
    requestTimeout.

Definition fetchFaqs (api url : string) (lang : option string) (forceRefresh : bool)
    : prog value :=
  try_catch
    (response ← await_fetch (page_faqs_request api url lang forceRefresh);
     if negb (ok response) then Throw (Error ("HTTP " +:+ decimal (status response)))
     else await_json response)
    (λ error,
       if String.eqb (name error) "AbortError" then Throw (Error "Request timeout")
       else Throw error).

(** ** Runs, parked methods and pages: the types *)

(** How a pass through the body of the [while] ends: by a [return] of the
    method, or at the end of the body. *)
Inductive completion := Return | Next.

Inductive event :=
| ConsoleWarn (msg : string)
| JsonParse (o : origin) (text : string)
| Fetch (req : request)
| Timeout (ms : Z).

Inductive ending (A : Type) : Type :=
| Completed (a : A)
| Uncaught (e : js_error)
| Unrolled
| AwaitingResponse.
Arguments Completed {A} a.
Arguments Uncaught {A} e.
Arguments Unrolled {A}.
Arguments AwaitingResponse {A}.

(** How a run ends, the element it leaves, what it did in order, and the
    part of [net] it did not read. *)
Record outcome_of_run (A : Type) := RunResult {
  ended : ending A;
  element : widget;
  trace : list event;
  unread : list settled
}.
Arguments RunResult {A} ended element trace unread.
Arguments ended {A} _.
Arguments element {A} _.
Arguments trace {A} _.
Arguments unread {A} _.

Definition after {A} (e : event) (r : outcome_of_run A) : outcome_of_run A :=
  RunResult (ended r) (element r) (e :: trace r) (unread r).

Inductive parked (A : Type) : Type :=
| Over (o : outcome A)
| Cut
| OnFetch (req : request) (k : settled → prog A)
| OnJson (r : response) (k : outcome value → prog A)
| OnDelay (ms : Z) (k : prog A).
Arguments Over {A} o.
Arguments Cut {A}.
Arguments OnFetch {A} req k.
Arguments OnJson {A} r k.
Arguments OnDelay {A} ms k.

(** The element, the methods parked on it (in the order they were started)
    and what has happened so far. *)
Record page := Page {
  host : widget;
  parked_methods : list (parked unit);
  history : list event
}.

(** What can happen next: the element is connected, the page sets an
    attribute, the user clicks the question at [index], the [fetch] of the
    [i]-th method settles, the body of its response has been read, its
    timer fires. *)
Inductive action :=
| Connect
| SetAttribute (name value : string)
| Click (index : nat)
| Settle (i : nat) (s : settled)
| BodyRead (i : nat)
| TimerFires (i : nat).

(** ** The retry loop *)

Section Engine.
Variable E : engine.

(** [v > 0] *)
Definition greater_than_zero (v : value) : outcome bool :=
  match v with
  | JUndefined | JNull => Normal false
  | JBool b => Normal b
  | JNum n => Normal (0 <? n)%float
  | JStr _ | JArr _ | JObj _ =>
      match ToNumber E v with
      | inl e => Thrown e
      | inr n => Normal (0 <? n)%float
      end
  end.

(** [v.length > 0], for a truthy [v] *)
Definition length_greater_than_zero (v : value) : outcome bool :=
  match v with
  | JArr l => Normal (bool_decide (0 < length l))
  | JStr s => Normal (bool_decide (0 < String.length s))
  | JObj props => greater_than_zero (own_property "length" props)
  | _ => Normal false
  end.

(** [v.length === 0], for a truthy [v] *)
Definition length_is_zero (v : value) : bool :=
  match v with
  | JArr l => bool_decide (length l = 0)
  | JStr s => bool_decide (String.length s = 0)
  | JObj props =>
      match own_property "length" props with
      | JNum n => (n =? 0)%float
      | _ => false
      end
  | _ => false
  end.

(** [result && result.faqs && result.faqs.length > 0] *)
Definition has_faqs (result : value) : outcome bool :=
  if truthy result && truthy (get result "faqs")
  then length_greater_than_zero (get result "faqs")
  else Normal false.

(** [m.includes('generating')], for a truthy [m]: the method of strings and
    of arrays; nothing else read from JSON has a callable [includes]. *)
Definition includes_generating (m : value) : outcome bool :=
  match m with
  | JStr s => Normal (includes s "generating")
  | JArr l =>
      Normal (existsb (λ x, match x with JStr s => String.eqb s "generating" | _ => false end) l)
  | _ => Thrown includes_not_a_function
  end.

(** [result && (result.faq_file || result.just_crawled ||
    result.faq_generated || (result.message &&
    result.message.includes('generating')))], as a boolean *)
Definition should_retry (result : value) : outcome bool :=
  if negb (truthy result) then Normal false
  else if truthy (get result "faq_file") || truthy (get result "just_crawled")
          || truthy (get result "faq_generated") then Normal true
  else if truthy (get result "message") then includes_generating (get result "message")
  else Normal false.

(** [result.faq_file && (!result.faqs || result.faqs.length === 0)] *)
Definition wants_refresh (result : value) : bool :=
  truthy (get result "faq_file")
  && (negb (truthy (get result "faqs")) || length_is_zero (get result "faqs")).

(** [this.render(faqs, heading); if (jsonld) this.injectJsonLd(faqs, heading);
    return;] *)
Definition show (faqs : value) (heading : string) (jsonld : bool) : prog completion :=
  call (render faqs heading);;
  (if jsonld then call (injectJsonLd faqs heading) else mret tt);;
  mret Return.

Definition increment_retryCount : sync unit :=
  assign (λ w, set_retryCount (S (retryCount w)) w).

Definition retrying_message (retryCount : nat) : string :=
  "Generating FAQs... retrying (" +:+ decimal retryCount +:+ "/"
  +:+ decimal maxRetries +:+ ")".

(** [this.retryCount++; if (this.retryCount < this.maxRetries) {
    this.renderStatus(..); await this.delay(this.retryDelay); }] *)
Definition count_and_wait : prog completion :=
  call increment_retryCount;;
  w ← read;
  if bool_decide (retryCount w < maxRetries)%nat then
    call (renderStatus (retrying_message (retryCount w)));;
    delay retryDelay;;
    mret Next
  else mret Next.

(** The body of [if (result.faq_file && ..)]. *)
Definition force_refresh (api url : string) (lang : option string) (heading : string)
    (jsonld : bool) : prog completion :=
  refreshResult ← fetchFaqs api url lang true;
  found ← settle_outcome (has_faqs refreshResult);
  if found : bool then show (get refreshResult "faqs") heading jsonld
  else mret Next.

(** The [try] block after its first [await]. *)
Definition examine (api url : string) (lang : option string) (heading : string)
    (jsonld : bool) (result : value) : prog completion :=
  found ← settle_outcome (has_faqs result);
  if found : bool then show (get result "faqs") heading jsonld
  else
    shouldRetry ← settle_outcome (should_retry result);
    if negb shouldRetry then
      call (renderError "No FAQs available for this page");;
      mret Return
    else
      refreshed ←
        (if wants_refresh result then force_refresh api url lang heading jsonld
         else mret Next);
      match refreshed with
      | Return => mret Return
      | Next => count_and_wait
      end.

(** The [try] block. *)
Definition attempt (api url : string) (lang : option string) (heading : string)
    (jsonld : bool) : prog completion :=
  result ← fetchFaqs api url lang false;
  examine api url lang heading jsonld result.

(** The [catch] block. *)
Definition recover (error : js_error) : prog completion :=
  call increment_retryCount;;
  w ← read;
  if bool_decide (maxRetries ≤ retryCount w)%nat then
    call (renderError ("Failed to load FAQs: " +:+ message error));;
    mret Return
  else
    delay retryDelay;;
    mret Next.

(** The [while] loop and the statement after it, with at most [unroll]
    passes through the body written out; [Diverge] stands where a further
    pass would begin. *)
Fixpoint retry_loop (unroll : nat) (api url : string) (lang : option string)
    (heading : string) (jsonld : bool) : prog unit :=
  w ← read;
  if bool_decide (retryCount w < maxRetries)%nat then
    match unroll with
    | O => Diverge
    | S unroll =>
        c ← try_catch (attempt api url lang heading jsonld) recover;
        match c with
        | Return => mret tt
        | Next => retry_loop unroll api url lang heading jsonld
        end
    end
  else call (renderError "No FAQs generated after multiple attempts").

Definition loadFaqsWithRetry (unroll : nat) (api url : string) (lang : option string)
    (heading : string) (jsonld : bool) : prog unit :=
  call (assign (set_retryCount 0));;
  retry_loop unroll api url lang heading jsonld.

(** ** Initialisation *)

Definition getAttribute (name : string) (w : widget) : option string :=
  attributes w !! name.

(** [s || d], for an attribute value or [null] *)
Definition or_default (s : option string) (d : string) : string :=
  match s with
  | Some v => if String.eqb v "" then d else v
  | None => d
  end.

Definition getInlineJson : prog value :=
  w ← read;
  match inline_script w with
  | None => mret JNull
  | Some text =>
      if bool_decide (maxInlineSize < String.length text)%nat then
        console_warn "FAQ Widget: Inline JSON too large, ignoring";;
        mret JNull
      else
        Parse InlineData text (λ parsed,
          match parsed with
          | None =>
              console_warn "FAQ Widget: Invalid inline JSON, falling back to API";;
              mret JNull
          | Some (JArr data) =>
              if bool_decide (maxInlineItems < length data)%nat then
                console_warn "FAQ Widget: Too many inline items, truncating";;
                mret (JArr (take maxInlineItems data))
              else mret (JArr data)
          | Some _ => mret JNull
          end)
  end.

Definition parseConfig (configStr : string) : prog value :=
  if String.eqb configStr "" then mret (JObj [])
  else
    Parse ConfigAttribute configStr (λ parsed,
      match parsed with
      | None =>
          console_warn "FAQ Widget: Invalid data-config JSON, ignoring";;
          mret (JObj [])
      | Some v => mret (if truthy v && typeof_object v then v else JObj [])
      end).

Definition attachShadow : sync unit := assign (set_shadowRoot (Some Blank)).

(** The call of [loadFaqsWithRetry] is the last statement and is not
    awaited: the rest of the asynchronous method is the rest of this
    program, and an exception it does not catch rejects a promise nobody
    reads. *)
Definition initializeWidget (unroll : nat) : prog unit :=
  w ← read;
  let api := or_default (getAttribute "data-api" w) "http://localhost:8000" in
  let url := getAttribute "data-url" w in
  let lang := getAttribute "data-lang" w in
  let heading := or_default (getAttribute "data-heading" w) "Frequently Asked Questions" in
  let jsonld := negb (bool_decide (getAttribute "data-jsonld" w = Some "off")) in
  let configStr := or_default (getAttribute "data-config" w) "" in
  config ← parseConfig configStr;
  (if bool_decide (shadowRoot w = None) then call attachShadow else mret tt);;
  call (applyConfig config);;
  inlineJson ← getInlineJson;
  if truthy inlineJson then
    call (render inlineJson heading);;
    if jsonld then call (injectJsonLd inlineJson heading) else mret tt
  else if String.eqb (or_default url "") "" then
    call (renderError "No URL provided and no inline FAQs found")
  else
    call (renderLoading heading);;
    loadFaqsWithRetry unroll api (or_default url "") lang heading jsonld.

Definition connectedCallback (unroll : nat) : prog unit :=
  initializeWidget unroll.

Definition attributeChangedCallback (unroll : nat) (name : string)
    (oldValue newValue : option string) : prog unit :=
  if String.eqb name "data-config" then
    config ← parseConfig (or_default newValue "");
    call (applyConfig config)
  else
    w ← read;
    if bool_decide (shadowRoot w = None) then mret tt
    else initializeWidget unroll.

Definition observedAttributes : list string :=
  ["data-api"; "data-url"; "data-lang"; "data-heading"; "data-jsonld"; "data-config"].

(** ** One method run alone

    [run p net w] executes [p] from the element [w] when nothing else runs
    in between: the [i]-th call of [fetch] settles as the [i]-th entry of
    [net] says, every timer fires.  It stops where a call of [fetch] finds
    [net] exhausted. *)

Fixpoint run {A} (p : prog A) (net : list settled) (w : widget) : outcome_of_run A :=
  match p with
  | Ret a => RunResult (Completed a) w [] net
  | Throw e => RunResult (Uncaught e) w [] net
  | Diverge => RunResult Unrolled w [] net
  | Read k => run (k w) net w
  | Run m k => run (k (m w).1) net (m w).2
  | Warn msg k => after (ConsoleWarn msg) (run k net w)
  | Parse o text k => after (JsonParse o text) (run (k (JSON_parse E text)) net w)
  | AwaitFetch req k =>
      after (Fetch req)
        match net with
        | s :: net' => run (k s) net' w
        | [] => RunResult AwaitingResponse w [] []
        end
  | AwaitJson r k => run (k (body r)) net w
  | AwaitDelay ms k => after (Timeout ms) (run k net w)
  end.

(** The run of [p ≫= f] and of [try { p } catch (e) { h e }] from the run
    of [p]. *)
Definition before {A} (t : list event) (r : outcome_of_run A) : outcome_of_run A :=
  RunResult (ended r) (element r) (t ++ trace r)%list (unread r).

Definition continue {A B} (r : outcome_of_run A) (f : A → prog B) : outcome_of_run B :=
  match ended r with
  | Completed a => before (trace r) (run (f a) (unread r) (element r))
  | Uncaught e => RunResult (Uncaught e) (element r) (trace r) (unread r)
  | Unrolled => RunResult Unrolled (element r) (trace r) (unread r)
  | AwaitingResponse => RunResult AwaitingResponse (element r) (trace r) (unread r)
  end.

Definition handle {A} (r : outcome_of_run A) (h : js_error → prog A) : outcome_of_run A :=
  match ended r with
  | Uncaught e => before (trace r) (run (h e) (unread r) (element r))
  | _ => r
  end.

(** ** Several methods on one element

    Between two [await]s a method runs alone; at an [await] it is parked
    and any other callback may run on the same element. *)

(** Runs [p] up to its next [await]. *)
Fixpoint advance {A} (p : prog A) (w : widget) : parked A * widget * list event :=
  match p with
  | Ret a => (Over (Normal a), w, [])
  | Throw e => (Over (Thrown e), w, [])
  | Diverge => (Cut, w, [])
  | Read k => advance (k w) w
  | Run m k => advance (k (m w).1) (m w).2
  | Warn msg k =>
      let '(t, w', ev) := advance k w in (t, w', ConsoleWarn msg :: ev)
  | Parse o text k =>
      let '(t, w', ev) := advance (k (JSON_parse E text)) w in
      (t, w', JsonParse o text :: ev)
  | AwaitFetch req k => (OnFetch req k, w, [Fetch req])
  | AwaitJson r k => (OnJson r k, w, [])
  | AwaitDelay ms k => (OnDelay ms k, w, [Timeout ms])
  end.

(** [advance] of [p ≫= f] and of [try { p } catch (e) { h e }] from
    [advance] of [p]. *)
Definition chain {A B} (r : parked A * widget * list event) (f : A → prog B)
    : parked B * widget * list event :=
  match r with
  | (Over (Normal a), w, ev) =>
      let '(t, w', ev') := advance (f a) w in (t, w', ev ++ ev')%list
  | (Over (Thrown e), w, ev) => (Over (Thrown e), w, ev)
  | (Cut, w, ev) => (Cut, w, ev)
  | (OnFetch req k, w, ev) => (OnFetch req (λ s, k s ≫= f), w, ev)
  | (OnJson r k, w, ev) => (OnJson r (λ o, k o ≫= f), w, ev)
  | (OnDelay ms k, w, ev) => (OnDelay ms (k ≫= f), w, ev)
  end.

Definition rescue {A} (r : parked A * widget * list event) (h : js_error → prog A)
    : parked A * widget * list event :=
  match r with
  | (Over (Thrown e), w, ev) =>
      let '(t, w', ev') := advance (h e) w in (t, w', ev ++ ev')%list
  | (OnFetch req k, w, ev) => (OnFetch req (λ s, try_catch (k s) h), w, ev)
  | (OnJson r k, w, ev) => (OnJson r (λ o, try_catch (k o) h), w, ev)
  | (OnDelay ms k, w, ev) => (OnDelay ms (try_catch k h), w, ev)
  | r => r
  end.

(** A retry loop parked at the request of a pass. *)
Definition parked_at_request (unroll : nat) (api url : string) (lang : option string)
    (heading : string) (jsonld : bool) : parked unit :=
  (advance (retry_loop (S unroll) api url lang heading jsonld)
     (constructor ∅ None [])).1.1.

(** Starts a callback and parks it. *)
Definition start (p : prog unit) (π : page) : page :=
  let '(t, w, ev) := advance p (host π) in
  Page w (parked_methods π ++ [t])%list (history π ++ ev)%list.

(** Resumes the [i]-th method with the program [p]. *)
Definition resume (i : nat) (p : prog unit) (π : page) : page :=
  let '(t, w, ev) := advance p (host π) in
  Page w (<[i := t]> (parked_methods π)) (history π ++ ev)%list.

(** One step; [None] when the action cannot happen in [π]. *)
Definition step (unroll : nat) (a : action) (π : page) : option page :=
  match a with
  | Connect => Some (start (connectedCallback unroll) π)
  | SetAttribute name value =>
      let old := getAttribute name (host π) in
      let π' := Page (set_attributes (<[name := value]> (attributes (host π))) (host π))
                  (parked_methods π) (history π) in
      if bool_decide (name ∈ observedAttributes)
      then Some (start (attributeChangedCallback unroll name old (Some value)) π')
      else Some π'
  | Click index =>
      match shadowRoot (host π) with
      | Some (Accordion _ items) =>
          if bool_decide (index < length items)%nat
          then Some (Page (toggleItem index (host π)).2 (parked_methods π) (history π))
          else None
      | _ => None
      end
  | Settle i s =>
      match parked_methods π !! i with
      | Some (OnFetch _ k) => Some (resume i (k s) π)
      | _ => None
      end
  | BodyRead i =>
      match parked_methods π !! i with
      | Some (OnJson r k) => Some (resume i (k (body r)) π)
      | _ => None
      end
  | TimerFires i =>
      match parked_methods π !! i with
      | Some (OnDelay _ k) => Some (resume i k π)
      | _ => None
      end
  end.

Fixpoint steps (unroll : nat) (l : list action) (π : page) : option page :=
  match l with
  | [] => Some π
  | a :: l => π' ← step unroll a π; steps unroll l π'
  end.

End Engine.

(** ** Vocabulary of the statements *)

(** What [await this.fetchFaqs(..)] comes to when its request settles as
    [s]: the parsed body of a successful response, or the error thrown. *)
Definition relabelled (e : js_error) : js_error :=
  if String.eqb (name e) "AbortError" then Error "Request timeout" else e.

Definition fetched (s : settled) : outcome value :=
  match s with
  | Rejected e => Thrown (relabelled e)
  | Fulfilled r =>
      if ok r then
        match body r with
        | Normal v => Normal v
        | Thrown e => Thrown (relabelled e)
        end
      else Thrown (Error ("HTTP " +:+ decimal (status r)))
  end.

Definition ending_of {A} (o : outcome A) : ending A :=
  match o with
  | Normal a => Completed a
  | Thrown e => Uncaught e
  end.

(** A request of the out-of-band refresh variant. *)
Definition forced (req : request) : bool :=
  bool_decide ("force_refresh" ∈ (params req).*1).

(** The attempts a run made: its requests other than forced refreshes. *)
Definition is_attempt (e : event) : bool :=
  match e with
  | Fetch req => negb (forced req)
  | _ => false
  end.

Definition attempts (t : list event) : nat := length (filter is_attempt t).

(** The reply shape [RemoteFaqResponse]: an object whose [faqs] is an
    array and whose [faq_file], [just_crawled], [faq_generated] and
    [message], where present and not [null], are a string, two booleans and
    a string. *)
Definition typeof_boolean (v : value) : bool :=
  match v with
  | JBool _ => true
  | _ => false
  end.

Definition optional (type : value → bool) (v : value) : bool :=
  match v with
  | JUndefined | JNull => true
  | _ => type v
  end.

Definition structurally_valid (r : value) : bool :=
  Array_isArray (get r "faqs")
  && optional typeof_string (get r "faq_file")
  && optional typeof_boolean (get r "just_crawled")
  && optional typeof_boolean (get r "faq_generated")
  && optional typeof_string (get r "message").

Definition faq_list (r : value) : list value :=
  match get r "faqs" with
  | JArr l => l
  | _ => []
  end.

(** The four in-progress signals of a reply. *)
Definition file_reference (r : value) : bool :=
  match get r "faq_file" with
  | JStr f => negb (String.eqb f "")
  | _ => false
  end.

Definition just_crawled (r : value) : bool :=
  match get r "just_crawled" with
  | JBool b => b
  | _ => false
  end.

Definition faq_generated (r : value) : bool :=
  match get r "faq_generated" with
  | JBool b => b
  | _ => false
  end.

Definition says_generating (r : value) : bool :=
  match get r "message" with
  | JStr m => includes m "generating"
  | _ => false
  end.

Definition in_progress (r : value) : bool :=
  file_reference r || just_crawled r || faq_generated r || says_generating r.

(** The element once [faqs] are on display: after [render] and, when
    structured data is enabled, [injectJsonLd]. *)
Definition displayed (faqs : value) (heading : string) (jsonld : bool) (w : widget)
    : widget :=
  let w' := set_shadowRoot (Some (content faqs heading)) w in
  if jsonld then (injectJsonLd faqs heading w').2 else w'.

(** The items of the accordion on display (none in any other view). *)
Definition items_of (w : widget) : list faq_item :=
  match shadowRoot w with
  | Some (Accordion _ items) => items
  | _ => []
  end.

(** An item shows as open when either attribute says so. *)
Definition shows_open (it : faq_item) : bool :=
  aria_expanded it || negb (aria_hidden it).

Definition open_at (w : widget) (i : nat) : Prop :=
  ∃ it, items_of w !! i = Some it ∧ shows_open it = true.

(** The selection field follows the tree: [currentOpenIndex] is -1 or a
    position of the accordion, and an item that shows as open is the one
    it names. *)
Definition tracked (w : widget) : Prop :=
  (-1 ≤ currentOpenIndex w < Z.of_nat (length (items_of w)))%Z
  ∧ ∀ i, open_at w i → currentOpenIndex w = Z.of_nat i.

(** Clicks on the questions at [indices], one after the other. *)
Fixpoint toggle_all (indices : list nat) : sync unit :=
  match indices with
  | [] => mret tt
  | index :: indices => toggleItem index;; toggle_all indices
  end.

(** ** Scenarios *)

(** An engine for the scenarios: its [JSON.parse] reads the empty array
    and takes any other text for malformed; no scenario reaches the numeric
    coercion. *)
Definition scenario_engine : engine :=
  Engine (λ text, if String.eqb (trim text) "[]" then Some (JArr []) else None)
         (λ _, inr PrimFloat.nan).

Fixpoint blanks (n : nat) : string :=
  match n with
  | O => ""
  | S n => String " " (blanks n)
  end.

(** An inline payload of more than 64KB: an empty array after 65536
    blanks. *)
Definition oversized_payload : string := blanks (64 * 1024) +:+ "[]".

(** Elements whose inline payload is oversized, with and without a target
    URL. *)
Definition oversized_with_url : widget :=
  constructor {[ "data-url" := "https://example.org/" ]} (Some oversized_payload) [].

Definition oversized_without_url : widget :=
  constructor ∅ (Some oversized_payload) [].

Definition three_faqs : value :=
  JArr [faq_object (Faq "Q0" "A0"); faq_object (Faq "Q1" "A1"); faq_object (Faq "Q2" "A2")].

(** An element nothing was rendered into, with its shadow root attached. *)
Definition blank_element : widget :=
  (attachShadow (constructor ∅ None [])).2.

(** The element after its first [render], of three items. *)
Definition three_items : widget :=
  (render three_faqs "FAQ" blank_element).2.

(** A reply with the parsed body [r] to a request that succeeded. *)
Definition replied (st : nat) (r : value) : settled :=
  Fulfilled (Response true st (Normal r)).

(** The ways a request fails, with the cause the widget reports: a
    transport error, a status that is not a success, the timeout. *)
Inductive fails : settled → string → Prop :=
| transport_error e :
    name e ≠ "AbortError" → fails (Rejected e) (message e)
| error_status st b :
    fails (Fulfilled (Response false st b)) ("HTTP " +:+ decimal st)
| timed_out e :
    name e = "AbortError" → fails (Rejected e) "Request timeout".

Section Bounds.
Variable E : engine.

(** However [p] is run: it records only events satisfying [P], it does
    not lower [retryCount], and no loop in it is cut short. *)
Definition keeps {A} (P : event → Prop) (p : prog A) : Prop :=
  ∀ net w,
    Forall P (trace (run E p net w))
    ∧ (retryCount w ≤ retryCount (element (run E p net w)))%nat
    ∧ ended (run E p net w) ≠ Unrolled.

(** [p] has raised [retryCount] whenever it ends a pass without
    returning from the method. *)
Definition counts (p : prog completion) : Prop :=
  ∀ net w,
    ended (run E p net w) = Completed Next →
    (retryCount w < retryCount (element (run E p net w)))%nat.

End Bounds.

Definition is_parse (e : event) : bool :=
  match e with
  | JsonParse _ _ => true
  | _ => false
  end.

Definition is_timeout (e : event) : bool :=
  match e with
  | Timeout _ => true
  | _ => false
  end.

(** Replies for the scenarios. *)
Definition in_progress_reply : value :=
  JObj [("faqs", JArr []); ("just_crawled", JBool true)].

Definition terminal_reply : value :=
  JObj [("faqs", JArr []); ("just_crawled", JBool false)].

Definition one_faq_reply : value :=
  JObj [("faqs", JArr [faq_object (Faq "Q" "A")])].

Definition file_reply : value :=
  JObj [("faqs", JArr []); ("faq_file", JStr "faqs/page.json")].

(** An element of the page with a target URL and no inline data, as
    [constructor()] leaves it. *)
Definition remote_element : widget :=
  constructor {[ "data-url" := "https://example.org/" ]} None [].

(** An element showing the loading view, at its [n]-th retry. *)
Definition loading_element (n : nat) : widget :=
  set_retryCount n (renderLoading "Frequently Asked Questions" blank_element).2.

Definition is_inline_parse (e : event) : bool :=
  match e with
  | JsonParse InlineData _ => true
  | _ => false
  end.

Definition is_fetch (e : event) : bool :=
  match e with
  | Fetch _ => true
  | _ => false
  end.

(** A reply with the three FAQs, and the page of an element that has just
    been created. *)
Definition three_faqs_reply : value := JObj [("faqs", three_faqs)].

Definition new_page (w : widget) : page := Page w [] [].

(** What a page shows: the selection field and, item by item, whether it
    shows as open. *)
Definition selection (π : page) : Z * list bool :=
  (currentOpenIndex (host π), shows_open <$> items_of (host π)).

(** [a] resumes the [i]-th parked method. *)
Definition resumes (a : action) (i : nat) : Prop :=
  (∃ s, a = Settle i s) ∨ a = BodyRead i ∨ a = TimerFires i.

(** The guard against stale callbacks: once a change of an attribute has
    started a new cycle on an element with a shadow root, resuming a method
    parked before the change leaves the shadow tree as it is. *)
Definition stale_callbacks_guarded (E : engine) (unroll : nat) (π0 : page) : Prop :=
  ∀ earlier name value later a i π1 π2 π3,
    steps E unroll earlier π0 = Some π1 →
    name ∈ observedAttributes → name ≠ "data-config" →
    shadowRoot (host π1) ≠ None →
    (i < length (parked_methods π1))%nat →
    steps E unroll (SetAttribute name value :: later) π1 = Some π2 →
    resumes a i →
    step E unroll a π2 = Some π3 →
    shadowRoot (host π3) = shadowRoot (host π2).


(** ** Counting what a run did *)

(** The requests and the timers of a trace. *)
Definition fetches (t : list event) : nat := length (filter is_fetch t).

Definition timers (t : list event) : nat := length (filter is_timeout t).

Section Budget.
Variable E : engine.

(** However [p] is run, it makes at most one request. *)
Definition requests_once {A} (p : prog A) : Prop :=
  ∀ net w, (fetches (trace (run E p net w)) ≤ 1)%nat.

(** However [p] is run, every timer it sets goes with a rise of
    [retryCount] that stays below [maxRetries]. *)
Definition timed {A} (p : prog A) : Prop :=
  ∀ net w,
    (retryCount w `min` (maxRetries - 1) + timers (trace (run E p net w))
     ≤ retryCount (element (run E p net w)) `min` (maxRetries - 1))%nat.

End Budget.

(** ** The keyboard *)

Definition undefined_focus : js_error :=
  TypeError "Cannot read properties of undefined (reading 'focus')".

(** What a [keydown] listener did: how it ended, whether it called
    [event.preventDefault()], the question it gave the focus to, and the
    element as it left it. *)
Record key_handled := KeyHandled {
  key_outcome : outcome unit;
  defaultPrevented : bool;
  focused : option nat;
  after_key : widget
}.

(** [questions] is [querySelectorAll('.faq-question')]: one button for
    each item of an accordion, none in any other view.  With no question
    the index computed for an arrow key is [NaN] or -1, and [questions] has
    nothing there. *)
Definition handleKeydown (key : string) (currentIndex : nat) (w : widget) : key_handled :=
  match shadowRoot w with
  | None => KeyHandled (Thrown null_shadowRoot) false None w
  | Some _ =>
      let questions := length (items_of w) in
      if String.eqb key "Enter" || String.eqb key " " then
        KeyHandled (toggleItem currentIndex w).1 true None (toggleItem currentIndex w).2
      else if String.eqb key "ArrowDown" then
        if bool_decide (questions = 0)%nat
        then KeyHandled (Thrown undefined_focus) true None w
        else KeyHandled (Normal tt) true (Some ((currentIndex + 1) mod questions)%nat) w
      else if String.eqb key "ArrowUp" then
        let prevIndex : Z :=
          if bool_decide (currentIndex = 0)%nat then (Z.of_nat questions - 1)%Z
          else (Z.of_nat currentIndex - 1)%Z in
        if bool_decide (0 ≤ prevIndex < Z.of_nat questions)%Z
        then KeyHandled (Normal tt) true (Some (Z.to_nat prevIndex)) w
        else KeyHandled (Thrown undefined_focus) true None w
      else KeyHandled (Normal tt) false None w
  end.

(** Keys pressed one after the other, each on the question that has the
    focus: [setupAccordionBehavior] gives the question at [index] the
    listener [e => this.handleKeydown(e, index)]. *)
Fixpoint press_keys (keys : list string) (focus : nat) (w : widget) : nat * widget :=
  match keys with
  | [] => (focus, w)
  | key :: keys =>
      let handled := handleKeydown key focus w in
      press_keys keys (default focus (focused handled)) (after_key handled)
  end.

(** An item that shows as open is the one [currentOpenIndex] names. *)
Definition open_is_current (w : widget) : Prop :=
  ∀ i, open_at w i → currentOpenIndex w = Z.of_nat i.

(** The texts on display, item by item. *)
Definition texts_of (w : widget) : list FaqItem :=
  (λ it, Faq (item_question it) (item_answer it)) <$> items_of w.

(** ** Properties of the element that no callback breaks *)

(** [p] maintains [I]: every synchronous method it calls takes an element
    that satisfies [I] to one that does, wherever [p] is resumed and
    whatever it is resumed with. *)
Inductive maintains (I : widget → Prop) {A : Type} : prog A → Prop :=
| maintains_Ret a : maintains I (Ret a)
| maintains_Throw e : maintains I (Throw e)
| maintains_Diverge : maintains I Diverge
| maintains_Read k :
    (∀ w, I w → maintains I (k w)) → maintains I (Read k)
| maintains_Run m k :
    (∀ w, I w → I (m w).2) → (∀ o, maintains I (k o)) → maintains I (Run m k)
| maintains_Warn msg k : maintains I k → maintains I (Warn msg k)
| maintains_Parse o text k :
    (∀ parsed, maintains I (k parsed)) → maintains I (Parse o text k)
| maintains_AwaitFetch req k :
    (∀ s, maintains I (k s)) → maintains I (AwaitFetch req k)
| maintains_AwaitJson r k :
    (∀ o, maintains I (k o)) → maintains I (AwaitJson r k)
| maintains_AwaitDelay ms k : maintains I k → maintains I (AwaitDelay ms k).

Definition parked_maintains (I : widget → Prop) {A : Type} (t : parked A) : Prop :=
  match t with
  | Over _ | Cut => True
  | OnFetch _ k => ∀ s, maintains I (k s)
  | OnJson _ k => ∀ o, maintains I (k o)
  | OnDelay _ k => maintains I k
  end.

(** [I] holds of the element and every parked method maintains it. *)
Definition page_maintains (I : widget → Prop) (π : page) : Prop :=
  I (host π) ∧ Forall (parked_maintains I) (parked_methods π).

(** The view with every item closed. *)
Definition all_closed (d : shadow_dom) : shadow_dom :=
  match d with
  | Accordion h items =>
      Accordion h ((λ it, FaqItemDom (item_question it) (item_answer it) false true)
                     <$> items)
  | _ => d
  end.

(** A displayed accordion has between one and [maxFaqs] items, each with a
    question and an answer that the sanitizer would leave as they are. *)
Definition well_formed_view (w : widget) : Prop :=
  ∀ h items,
    shadowRoot w = Some (Accordion h items) →
    (1 ≤ length items ≤ maxFaqs)%nat ∧ Forall normal (texts_of w).

(** The inline style holds nothing but CSS variables of the mapping, with
    values that are not blank. *)
Definition styled_by_mapping (w : widget) : Prop :=
  ∀ var v, style w !! var = Some v → var ∈ mappings.*2 ∧ trim v ≠ "".

(** [w'] differs from [w] at most in [currentOpenIndex] and in which items
    show as open. *)
Definition same_but_selection (w w' : widget) : Prop :=
  retryCount w' = retryCount w
  ∧ attributes w' = attributes w
  ∧ style w' = style w
  ∧ inline_script w' = inline_script w
  ∧ ld_scripts w' = ld_scripts w
  ∧ all_closed <$> shadowRoot w' = all_closed <$> shadowRoot w.

(** A page on which questions are clicked, the configuration is changed
    and the FAQs are fetched again. *)
Definition busy_page : list action :=
  [Connect; Settle 0 (replied 200 three_faqs_reply); BodyRead 0; Click 2; Click 0;
   SetAttribute "data-config" "[]"; SetAttribute "data-heading" "Help";
   Settle 2 (replied 200 one_faq_reply); BodyRead 2; Click 0].

(** ** Attributes the widget does not read *)

(** [p] neither reads nor writes the attributes of the element: what it
    does next never depends on them, and the synchronous methods it calls
    do the same to elements that differ in their attributes only. *)
Inductive attribute_blind {A : Type} : prog A → Prop :=
| blind_Ret a : attribute_blind (Ret a)
| blind_Throw e : attribute_blind (Throw e)
| blind_Diverge : attribute_blind Diverge
| blind_Read k :
    (∀ a w, k (set_attributes a w) = k w) → (∀ w, attribute_blind (k w)) →
    attribute_blind (Read k)
| blind_Run m k :
    (∀ a w, m (set_attributes a w) = ((m w).1, set_attributes a (m w).2)) →
    (∀ o, attribute_blind (k o)) → attribute_blind (Run m k)
| blind_Warn msg k : attribute_blind k → attribute_blind (Warn msg k)
| blind_Parse o text k :
    (∀ parsed, attribute_blind (k parsed)) → attribute_blind (Parse o text k)
| blind_AwaitFetch req k :
    (∀ s, attribute_blind (k s)) → attribute_blind (AwaitFetch req k)
| blind_AwaitJson r k :
    (∀ o, attribute_blind (k o)) → attribute_blind (AwaitJson r k)
| blind_AwaitDelay ms k : attribute_blind k → attribute_blind (AwaitDelay ms k).

(** The outcome [r] on an element that carries the attributes [a]. *)
Definition with_attributes {A} (a : gmap string string) (r : outcome_of_run A)
    : outcome_of_run A :=
  RunResult (ended r) (set_attributes a (element r)) (trace r) (unread r).

(** Replies that are not of the contracted shape: a list with one entry
    that has neither question nor answer, sent with an in-progress signal,
    and a message that is not text. *)
Definition unusable_reply : value :=
  JObj [("faqs", JArr [JObj []]); ("just_crawled", JBool true)].

Definition malformed_reply : value :=
  JObj [("faqs", JArr []); ("message", JBool true)].

(** ** The loader

    The script defines the element and, when its own [script] tag names a
    target, creates a [faq-widget], copies its data attributes to it and
    appends it to the target. *)

Section Loader.
Variable E : engine.

(** [String(n)] for a number [n], a service of the engine. *)
Variable Number_toString : float → string.

(** [if (s.dataset[key]) el.setAttribute(name, s.dataset[key]);] *)
Definition copy_if_set (dataset : gmap string string) (key name : string) : list action :=
  match dataset !! key with
  | Some v => if String.eqb v "" then [] else [SetAttribute name v]
  | None => []
  end.

(** [if (s.dataset.max && !Number.isNaN(Number(s.dataset.max)))
    el.setAttribute('data-max', String(Math.max(1, Number(s.dataset.max))));] *)
Definition copy_max (dataset : gmap string string) : outcome (list action) :=
  match dataset !! "max" with
  | None => Normal []
  | Some m =>
      if String.eqb m "" then Normal []
      else
        match ToNumber E (JStr m) with
        | inl e => Thrown e
        | inr n =>
            if negb (n =? n)%float then Normal []
            else Normal [SetAttribute "data-max"
                           (Number_toString (if (1 <? n)%float then n else 1%float))]
        end
  end.

(** The auto-mount function.  [currentScript] is the [dataset] of
    [document.currentScript] ([None]: there is no current script),
    [querySelector] tells whether [document.querySelector] finds an
    element, or that it throws.  The result is what happens to the element
    created, in order, when one is mounted. *)
Definition auto_mount (currentScript : option (gmap string string))
    (querySelector : string → outcome bool) : outcome (option (list action)) :=
  match currentScript with
  | None => Normal None
  | Some dataset =>
      let targetSel := or_default (dataset !! "target") "" in
      if String.eqb targetSel "" then Normal None
      else
        match querySelector targetSel with
        | Thrown e => Thrown e
        | Normal false => Normal None
        | Normal true =>
            match copy_max dataset with
            | Thrown e => Thrown e
            | Normal max =>
                Normal (Some
                  (copy_if_set dataset "api" "data-api"
                   ++ copy_if_set dataset "url" "data-url"
                   ++ copy_if_set dataset "lang" "data-lang"
                   ++ copy_if_set dataset "heading" "data-heading"
                   ++ (if bool_decide (dataset !! "jsonld" = Some "off")
                       then [SetAttribute "data-jsonld" "off"] else [])
                   ++ max
                   ++ copy_if_set dataset "config" "data-config"
                   ++ [Connect])%list)
            end
        end
  end.

(** The script as a whole: it does nothing when [faq-widget] is defined
    already. *)
Definition faq_widget_script (defined : bool)
    (currentScript : option (gmap string string))
    (querySelector : string → outcome bool) : outcome (option (list action)) :=
  if defined then Normal None else auto_mount currentScript querySelector.

End Loader.

(** The attributes an element has after [actions], when it had none. *)
Definition attributes_set (actions : list action) : gmap string string :=
  foldl (λ attrs a,
           match a with
           | SetAttribute name value => <[name := value]> attrs
           | _ => attrs
           end) ∅ actions.

(** An engine for the loader: its [Number] reads every string as 5. *)
Definition loader_engine : engine :=
  Engine (JSON_parse scenario_engine) (λ _, inr 5%float).

(** The [dataset] of a loader script that names a target, a page and a
    maximum. *)
Definition loader_dataset : gmap string string :=
  {[ "target" := "#faq"; "url" := "https://example.org/"; "max" := "5";
     "config" := "[]" ]}.

(** ** Exceptions that nobody catches *)

(** The element has its shadow root. *)
Definition attached (w : widget) : Prop := shadowRoot w ≠ None.

Section Robustness.
Variable E : engine.

(** Run on an element with its shadow root, [p] lets no exception
    escape, and it leaves the shadow root in place. *)
Definition never_throws {A} (p : prog A) : Prop :=
  ∀ net w,
    attached w →
    attached (element (run E p net w)) ∧ ∀ e, ended (run E p net w) ≠ Uncaught e.

End Robustness.

(** [p] contains its exceptions: resumed on elements that satisfy [I],
    with whatever it is resumed with, it ends without one, and the
    synchronous methods it calls keep [I]. *)
Inductive contained (I : widget → Prop) {A : Type} : prog A → Prop :=
| contained_Ret a : contained I (Ret a)
| contained_Diverge : contained I Diverge
| contained_Read k :
    (∀ w, I w → contained I (k w)) → contained I (Read k)
| contained_Run m k :
    (∀ w, I w → I (m w).2) → (∀ w, I w → contained I (k (m w).1)) →
    contained I (Run m k)
| contained_Warn msg k : contained I k → contained I (Warn msg k)
| contained_Parse o text k :
    (∀ parsed, contained I (k parsed)) → contained I (Parse o text k)
| contained_AwaitFetch req k :
    (∀ s, contained I (k s)) → contained I (AwaitFetch req k)
| contained_AwaitJson r k :
    (∀ o, contained I (k o)) → contained I (AwaitJson r k)
| contained_AwaitDelay ms k : contained I k → contained I (AwaitDelay ms k).

(** A parked method that has not ended with an exception and will not. *)
Definition parked_contained (I : widget → Prop) {A : Type} (t : parked A) : Prop :=
  match t with
  | Over (Thrown _) => False
  | Over (Normal _) | Cut => True
  | OnFetch _ k => ∀ s, contained I (k s)
  | OnJson _ k => ∀ o, contained I (k o)
  | OnDelay _ k => contained I k
  end.

(** A method that is over. *)
Definition is_over {A : Type} (t : parked A) : Prop :=
  match t with
  | Over _ | Cut => True
  | _ => False
  end.

(** No method on the page has ended or will end with an exception; the
    element has its shadow root, unless no method is waiting. *)
Definition sound_page (π : page) : Prop :=
  Forall (parked_contained attached) (parked_methods π)
  ∧ (attached (host π) ∨ Forall is_over (parked_methods π)).
#[local] Open Scope list_scope.
#[local] Open Scope nat_scope.

(** ** Properties of the sanitizer *)

Lemma trimEnd_head c r :
  is_white_space c = false → ∃ r', trimEnd (String c r) = String c r'.
Proof.
  intros Hc. cbn. destruct (trimEnd r); rewrite ?Hc; eauto.
Qed.

Lemma trimStart_head s :
  trimStart s = "" ∨ ∃ c r, trimStart s = String c r ∧ is_white_space c = false.
Proof.
  induction s as [|c r IH]; cbn; [by left|].
  destruct (is_white_space c) eqn:Hc; [done|]. right; eauto.
Qed.

Lemma trimEnd_cons c r :
  trimEnd (String c r) =
  match trimEnd r with
  | EmptyString => if is_white_space c then EmptyString else String c EmptyString
  | r' => String c r'
  end.
Proof. done. Qed.

Lemma trimEnd_idemp s : trimEnd (trimEnd s) = trimEnd s.
Proof.
  induction s as [|c r IH]; [done|].
  rewrite trimEnd_cons. destruct (trimEnd r) as [|c' r'] eqn:Hr.
  - destruct (is_white_space c) eqn:Hc; cbn; by rewrite ?Hc.
  - by rewrite trimEnd_cons, IH.
Qed.

Lemma trim_idemp s : trim (trim s) = trim s.
Proof.
  unfold trim. destruct (trimStart_head s) as [->|(c & r & -> & Hc)]; [done|].
  destruct (trimEnd_head c r Hc) as [r' Hr'].
  rewrite Hr'. cbn [trimStart]. rewrite Hc, <- Hr'. apply trimEnd_idemp.
Qed.

Lemma eqb_empty_false s : String.eqb s "" = false ↔ s ≠ "".
Proof. by destruct s. Qed.

Lemma has_text_fields_spec x :
  has_text_fields x =
  match get x "question", get x "answer" with
  | JStr _, JStr _ => true
  | _, _ => false
  end.
Proof.
  unfold has_text_fields.
  destruct x as [| |b|n|s|items|props]; cbn [get truthy typeof_string];
    rewrite ?andb_false_r; try done.
  cbn. by destruct (own_property "question" props), (own_property "answer" props).
Qed.

(** The three passes of the source over the array do to each entry what
    the contract says, in one pass. *)
Lemma passes_normalize (l : list value) :
  filter nonblank (trimmed <$> filter has_text_fields l) = omap normalize_entry l.
Proof.
  induction l as [|x l IH]; [done|].
  csimpl. rewrite <- IH. clear IH.
  rewrite filter_cons, has_text_fields_spec. unfold normalize_entry.
  destruct (get x "question") as [| |b|n|q|items|props] eqn:Hq;
    try (by rewrite decide_False by (by intros [])).
  destruct (get x "answer") as [| |b|n|a|items|props] eqn:Ha;
    try (by rewrite decide_False by (by intros [])).
  rewrite decide_True by done.
  assert (nonblank (trimmed x) = bool_decide (trim q ≠ "" ∧ trim a ≠ "")
          ∧ trimmed x = Faq (trim q) (trim a)) as [Hn Ht].
  { unfold trimmed, nonblank. cbn [question answer]. rewrite Hq, Ha. cbn [text_of].
    split; [|done].
    destruct (trim q), (trim a); cbn; symmetry;
      first [apply bool_decide_eq_true_2 | apply bool_decide_eq_false_2];
      intuition congruence. }
  rewrite fmap_cons, filter_cons, <- Ht.
  destruct (decide (Is_true (nonblank (trimmed x)))) as [Hd|Hd]; rewrite Hn in Hd;
    destruct (bool_decide (trim q ≠ "" ∧ trim a ≠ "")); cbn in Hd; done.
Qed.

Lemma validateAndLimitFaqs_array (l : list value) :
  validateAndLimitFaqs (JArr l) = take maxFaqs (omap normalize_entry l).
Proof. unfold validateAndLimitFaqs. by rewrite passes_normalize. Qed.

Lemma get_faq_object f :
  get (faq_object f) "question" = JStr (question f)
  ∧ get (faq_object f) "answer" = JStr (answer f).
Proof. done. Qed.

Lemma normalize_entry_normal x f : normalize_entry x = Some f → normal f.
Proof.
  unfold normalize_entry.
  destruct (get x "question"); try done. destruct (get x "answer"); try done.
  case_bool_decide as H; [|done]. intros [= <-]. destruct H as [Hq Ha].
  unfold normal, normalize_entry.
  destruct (get_faq_object (Faq (trim s) (trim s0))) as [-> ->].
  cbn [question answer]. rewrite !trim_idemp.
  by rewrite bool_decide_true.
Qed.

Lemma omap_normalize_normal (l : list FaqItem) :
  Forall normal l → omap normalize_entry (faq_object <$> l) = l.
Proof.
  induction 1 as [|f l Hf _ IH]; [done|].
  rewrite fmap_cons. csimpl. unfold normal in Hf. rewrite Hf. by rewrite IH.
Qed.

Lemma validated_normal x : Forall normal (validateAndLimitFaqs x).
Proof.
  destruct x; try by apply Forall_nil.
  rewrite validateAndLimitFaqs_array. apply Forall_take.
  apply Forall_forall. intros f Hf. apply list_elem_of_omap in Hf as (y & _ & Hy).
  by eapply normalize_entry_normal.
Qed.

Lemma validated_length x : length (validateAndLimitFaqs x) ≤ maxFaqs.
Proof.
  unfold maxFaqs. destruct x; cbn; try lia. rewrite length_take. lia.
Qed.

(** C4. The sanitizer returns the empty list for an input that is not an
    array; for an array it returns the first ten of the entries that
    survive, each surviving entry being one whose [question] and [answer]
    are both strings and both non-empty after trimming, with both fields
    trimmed; the survivors keep the order of the source; and the three
    entries of the example leave exactly the item Q2/A2. *)
Theorem validateAndLimitFaqs_contract :
  (∀ x : value,
     validateAndLimitFaqs x =
     match x with
     | JArr l => take 10 (omap normalize_entry l)
     | _ => []
     end)
  ∧ (∀ l : list value,
       validateAndLimitFaqs (JArr l) `sublist_of` omap normalize_entry l
       ∧ length (validateAndLimitFaqs (JArr l)) = length (omap normalize_entry l) `min` 10)
  ∧ validateAndLimitFaqs
      (JArr [JObj [("question", JStr " "); ("answer", JStr "x")];
             JObj [("question", JStr "Q"); ("answer", JStr " ")];
             JObj [("question", JStr "Q2"); ("answer", JStr "A2")]])
    = [Faq "Q2" "A2"].
Proof.
  split_and!.
  - intros x. destruct x; try done. apply validateAndLimitFaqs_array.
  - intros l. rewrite validateAndLimitFaqs_array. split.
    + apply sublist_take.
    + rewrite length_take. unfold maxFaqs. lia.
  - reflexivity.
Qed.

(** C5. Sanitizing the array the sanitizer returned gives that array again.
    The sanitizer is a function of its argument alone: it takes no element
    and returns none. *)
Theorem validateAndLimitFaqs_idempotent (x : value) :
  validateAndLimitFaqs (faq_array (validateAndLimitFaqs x)) = validateAndLimitFaqs x.
Proof.
  unfold faq_array. rewrite validateAndLimitFaqs_array.
  rewrite omap_normalize_normal by apply validated_normal.
  apply take_ge, validated_length.
Qed.

(** ** The accordion *)

Lemma items_of_accordion w index :
  index < length (items_of w) → ∃ h, shadowRoot w = Some (Accordion h (items_of w)).
Proof.
  unfold items_of. destruct (shadowRoot w) as [[]|]; cbn; try lia. eauto.
Qed.

Lemma set_item_attributes_in_range w h items index ex hid :
  shadowRoot w = Some (Accordion h items) → index < length items →
  set_item_attributes index ex hid w =
  (Normal tt,
   set_shadowRoot
     (Some (Accordion h
        (alter (λ it, FaqItemDom (item_question it) (item_answer it) ex hid) index items))) w).
Proof.
  intros Hw Hi. unfold set_item_attributes. cbv [mbind sync_bind this].
  rewrite Hw. by rewrite bool_decide_true.
Qed.

Lemma toggleItem_open w index :
  tracked w → index < length (items_of w) → currentOpenIndex w = Z.of_nat index →
  ∃ w', toggleItem index w = (Normal tt, w')
    ∧ currentOpenIndex w' = (-1)%Z
    ∧ length (items_of w') = length (items_of w)
    ∧ ∀ i, ¬ open_at w' i.
Proof.
  intros [Hr Ht] Hi Hc. destruct (items_of_accordion w index Hi) as [h Hw].
  unfold toggleItem. cbv [mbind sync_bind this].
  rewrite bool_decide_false by (by rewrite Hw).
  rewrite bool_decide_true by done.
  unfold closeItem. rewrite (set_item_attributes_in_range _ h (items_of w)) by done.
  cbn. eexists. split; [done|]. split; [done|].
  unfold open_at. cbn. split; [by rewrite length_alter|].
  intros i (it & Hit & Hopen).
  destruct (decide (i = index)) as [->|Hne].
  - rewrite list_lookup_alter_eq in Hit.
    destruct (items_of w !! index); simplify_eq/=; try done.
  - rewrite list_lookup_alter_ne in Hit by done.
    assert (open_at w i) as Ho by (by exists it).
    apply Ht in Ho. lia.
Qed.

Lemma toggleItem_other w index :
  tracked w → index < length (items_of w) → currentOpenIndex w ≠ Z.of_nat index →
  ∃ w', toggleItem index w = (Normal tt, w')
    ∧ currentOpenIndex w' = Z.of_nat index
    ∧ length (items_of w') = length (items_of w)
    ∧ ∀ i, open_at w' i ↔ i = index.
Proof.
  intros [Hr Ht] Hi Hc. destruct (items_of_accordion w index Hi) as [h Hw].
  unfold toggleItem. cbv [mbind sync_bind this].
  rewrite bool_decide_false by (by rewrite Hw).
  rewrite bool_decide_false by done.
  unfold closeItem, openItem.
  set (shut := λ it, FaqItemDom (item_question it) (item_answer it) false true).
  set (opened := λ it, FaqItemDom (item_question it) (item_answer it) true false).
  assert (∃ items',
    (if bool_decide (0 ≤ currentOpenIndex w)%Z
     then set_item_attributes (Z.to_nat (currentOpenIndex w)) false true
     else mret ()) w
    = (Normal tt, set_shadowRoot (Some (Accordion h items')) w)
    ∧ length items' = length (items_of w)
    ∧ ∀ i it, items' !! i = Some it → shows_open it = true →
        Z.of_nat i ≠ currentOpenIndex w ∧ items_of w !! i = Some it)
    as (items' & -> & Hlen & Hitems').
  { case_bool_decide as Hpos.
    - exists (alter shut (Z.to_nat (currentOpenIndex w)) (items_of w)).
      rewrite (set_item_attributes_in_range _ h (items_of w)) by (done || lia).
      split; [done|]. split; [by rewrite length_alter|].
      intros i it Hit Hopen.
      destruct (decide (i = Z.to_nat (currentOpenIndex w))) as [->|Hne].
      + rewrite list_lookup_alter_eq in Hit.
        destruct (items_of w !! _); simplify_eq/=; try done.
      + rewrite list_lookup_alter_ne in Hit by done. split; [lia|done].
    - exists (items_of w). split.
      + cbv [mret sync_ret]. f_equal. destruct w; cbn in *. by rewrite Hw.
      + split; [done|]. intros i it Hit Hopen. split; [|done].
        assert (open_at w i) as Ho by (by exists it). apply Ht in Ho. lia. }
  rewrite (set_item_attributes_in_range _ h items') by (done || lia).
  cbn. eexists. split; [done|]. split; [done|].
  unfold open_at. cbn. split; [by rewrite length_alter|].
  intros i. split.
  - intros (it & Hit & Hopen).
    destruct (decide (i = index)) as [->|Hne]; [done|].
    rewrite list_lookup_alter_ne in Hit by done.
    destruct (Hitems' i it Hit Hopen) as [Hi' Hit'].
    assert (open_at w i) as Ho by (by exists it). apply Ht in Ho. lia.
  - intros ->. rewrite list_lookup_alter_eq.
    destruct (lookup_lt_is_Some_2 items' index) as [it ->]; [lia|].
    by eexists.
Qed.

Lemma tracked_exclusive w i j : tracked w → open_at w i → open_at w j → i = j.
Proof.
  intros [_ Ht] Hi Hj. apply Ht in Hi, Hj. lia.
Qed.

Lemma toggleItem_tracked w index :
  tracked w → index < length (items_of w) →
  ∃ w', toggleItem index w = (Normal tt, w') ∧ tracked w'
    ∧ length (items_of w') = length (items_of w).
Proof.
  intros Hw Hi.
  destruct (decide (currentOpenIndex w = Z.of_nat index)) as [Hc|Hc].
  - destruct (toggleItem_open w index Hw Hi Hc) as (w' & Ht & Hc' & Hlen & Hnone).
    exists w'. split_and!; [done| |done].
    split; [rewrite Hc', Hlen; lia|]. intros i Ho. by apply Hnone in Ho.
  - destruct (toggleItem_other w index Hw Hi Hc) as (w' & Ht & Hc' & Hlen & Hone).
    exists w'. split_and!; [done| |done].
    split; [rewrite Hc', Hlen; lia|]. intros i Ho. apply Hone in Ho. by subst.
Qed.

Lemma toggle_all_tracked indices w :
  tracked w → Forall (λ index, index < length (items_of w)) indices →
  ∃ w', toggle_all indices w = (Normal tt, w') ∧ tracked w'
    ∧ length (items_of w') = length (items_of w).
Proof.
  revert w. induction indices as [|index indices IH]; intros w Hw Hall.
  - by exists w.
  - apply Forall_cons in Hall as [Hi Hall].
    destruct (toggleItem_tracked w index Hw Hi) as (w1 & Ht & Hw1 & Hlen).
    destruct (IH w1 Hw1) as (w' & Hts & Hw' & Hlen').
    { by rewrite Hlen. }
    exists w'. split_and!; [|done|congruence].
    cbn [toggle_all]. cbv [mbind sync_bind]. by rewrite Ht.
Qed.

Lemma render_tracked faqs heading w d :
  shadowRoot w = Some d → currentOpenIndex w = (-1)%Z →
  tracked (render faqs heading w).2.
Proof.
  intros Hd Hc. unfold render, set_innerHTML. cbv [mbind sync_bind this].
  rewrite Hd. cbn. split; [cbn; lia|].
  intros i (it & Hit & Hopen). exfalso. revert Hit.
  unfold items_of, content. cbn. case_bool_decide; [|done].
  unfold buildAccordion. rewrite list_lookup_fmap.
  destruct (_ !! i); intros; simplify_eq/=; done.
Qed.



(** ** Running programs *)

Section Running.
Context (E : engine).

Lemma before_nil {A} (r : outcome_of_run A) : before [] r = r.
Proof. by destruct r. Qed.

Lemma before_after {A} (e : event) (t : list event) (r : outcome_of_run A) :
  after e (before t r) = before (e :: t) r.
Proof. done. Qed.

Lemma before_before {A} (t t' : list event) (r : outcome_of_run A) :
  before t (before t' r) = before (t ++ t') r.
Proof. unfold before; cbn. by rewrite app_assoc. Qed.

Lemma continue_after {A B} (e : event) (r : outcome_of_run A) (f : A → prog B) :
  continue E (after e r) f = after e (continue E r f).
Proof. destruct r as [[] ? ? ?]; done. Qed.

Lemma handle_after {A} (e : event) (r : outcome_of_run A) (h : js_error → prog A) :
  handle E (after e r) h = after e (handle E r h).
Proof. destruct r as [[] ? ? ?]; done. Qed.

Lemma continue_before {A B} (t : list event) (r : outcome_of_run A) (f : A → prog B) :
  continue E (before t r) f = before t (continue E r f).
Proof.
  destruct r as [[] ? ? ?]; unfold continue, before; cbn; try done.
  by rewrite app_assoc.
Qed.

Lemma handle_before {A} (t : list event) (r : outcome_of_run A) (h : js_error → prog A) :
  handle E (before t r) h = before t (handle E r h).
Proof.
  destruct r as [[] ? ? ?]; unfold handle, before; cbn; try done.
  by rewrite app_assoc.
Qed.

Lemma run_bind {A B} (p : prog A) (f : A → prog B) net w :
  run E (p ≫= f) net w = continue E (run E p net w) f.
Proof.
  revert net w. induction p as [a|e| |k IH|m k IH|msg k IH|o text k IH|req k IH|r k IH|ms k IH];
    intros net w; cbn.
  - unfold continue; cbn. by rewrite before_nil.
  - done.
  - done.
  - apply IH.
  - apply IH.
  - rewrite continue_after. f_equal. apply IH.
  - rewrite continue_after. f_equal. apply IH.
  - rewrite continue_after. f_equal. destruct net; [done|apply IH].
  - apply IH.
  - rewrite continue_after. f_equal. apply IH.
Qed.

Lemma run_try_catch {A} (p : prog A) (h : js_error → prog A) net w :
  run E (try_catch p h) net w = handle E (run E p net w) h.
Proof.
  revert net w. induction p as [a|e| |k IH|m k IH|msg k IH|o text k IH|req k IH|r k IH|ms k IH];
    intros net w; cbn.
  - done.
  - unfold handle; cbn. by rewrite before_nil.
  - done.
  - apply IH.
  - apply IH.
  - rewrite handle_after. f_equal. apply IH.
  - rewrite handle_after. f_equal. apply IH.
  - rewrite handle_after. f_equal. destruct net; [done|apply IH].
  - apply IH.
  - rewrite handle_after. f_equal. apply IH.
Qed.


Lemma run_fetchFaqs api url lang force net w :
  run E (fetchFaqs api url lang force) net w =
  after (Fetch (page_faqs_request api url lang force))
    match net with
    | s :: net' => RunResult (ending_of (fetched s)) w [] net'
    | [] => RunResult AwaitingResponse w [] []
    end.
Proof.
  unfold fetchFaqs. cbn. f_equal. destruct net as [|[r|e] net']; cbn; [done| |].
  - destruct r as [[] st [v|e]]; cbn; try done.
    unfold relabelled. by destruct (String.eqb (name e) "AbortError").
  - unfold relabelled. by destruct (String.eqb (name e) "AbortError").
Qed.

Lemma run_call (m : sync unit) net w :
  run E (call m) net w = RunResult (ending_of (m w).1) (m w).2 [] net.
Proof. cbn. by destruct (m w).1 as [[]|]. Qed.

Lemma run_settle_outcome {A} (o : outcome A) net w :
  run E (settle_outcome o) net w = RunResult (ending_of o) w [] net.
Proof. by destruct o. Qed.

End Running.

(** ** Synchronous methods on an element with a shadow root *)

Lemma set_innerHTML_attached d d0 w :
  shadowRoot w = Some d0 →
  set_innerHTML d w = (Normal tt, set_shadowRoot (Some d) w).
Proof.
  intros H. unfold set_innerHTML. cbv [mbind sync_bind this]. by rewrite H.
Qed.

Lemma render_attached faqs heading d0 w :
  shadowRoot w = Some d0 →
  render faqs heading w = (Normal tt, set_shadowRoot (Some (content faqs heading)) w).
Proof. apply set_innerHTML_attached. Qed.

Lemma renderError_attached msg d0 w :
  shadowRoot w = Some d0 →
  renderError msg w = (Normal tt, set_shadowRoot (Some (ErrorBox msg)) w).
Proof. apply set_innerHTML_attached. Qed.

Lemma renderLoading_attached heading d0 w :
  shadowRoot w = Some d0 →
  renderLoading heading w
  = (Normal tt, set_shadowRoot (Some (Loading heading "Loading FAQs...")) w).
Proof. apply set_innerHTML_attached. Qed.

Lemma renderStatus_loading msg heading st w :
  shadowRoot w = Some (Loading heading st) →
  renderStatus msg w = (Normal tt, set_shadowRoot (Some (Loading heading msg)) w).
Proof.
  intros H. unfold renderStatus. cbv [mbind sync_bind this]. by rewrite H.
Qed.

Lemma injectJsonLd_normal faqs heading w :
  (injectJsonLd faqs heading w).1 = Normal tt
  ∧ shadowRoot (injectJsonLd faqs heading w).2 = shadowRoot w
  ∧ retryCount (injectJsonLd faqs heading w).2 = retryCount w
  ∧ currentOpenIndex (injectJsonLd faqs heading w).2 = currentOpenIndex w.
Proof.
  unfold injectJsonLd. case_bool_decide; done.
Qed.

(** None of the rendering methods assigns [retryCount] or
    [currentOpenIndex]. *)
Lemma set_innerHTML_fields d w :
  retryCount (set_innerHTML d w).2 = retryCount w
  ∧ currentOpenIndex (set_innerHTML d w).2 = currentOpenIndex w.
Proof.
  unfold set_innerHTML. cbv [mbind sync_bind this]. by destruct (shadowRoot w).
Qed.

Lemma renderStatus_fields msg w :
  retryCount (renderStatus msg w).2 = retryCount w
  ∧ currentOpenIndex (renderStatus msg w).2 = currentOpenIndex w.
Proof.
  unfold renderStatus. cbv [mbind sync_bind this].
  by destruct (shadowRoot w) as [[]|].
Qed.

(** ** The blocks of the retry loop, run alone *)

Section Loop.
Context (E : engine).
Context (api url : string) (lang : option string) (heading : string) (jsonld : bool).

Lemma run_show faqs d0 net w :
  shadowRoot w = Some d0 →
  run E (show faqs heading jsonld) net w
  = RunResult (Completed Return) (displayed faqs heading jsonld w) [] net.
Proof.
  intros Hd. unfold show, displayed.
  rewrite run_bind, run_call, (render_attached _ _ d0) by done.
  cbn [continue before ended ending_of element trace unread fst snd app].
  rewrite run_bind. destruct jsonld.
  - rewrite run_call.
    destruct (injectJsonLd_normal faqs heading
                (set_shadowRoot (Some (content faqs heading)) w)) as (-> & _).
    done.
  - done.
Qed.

Lemma run_count_and_wait_more heading' st net w :
  shadowRoot w = Some (Loading heading' st) → S (retryCount w) < maxRetries →
  run E count_and_wait net w
  = RunResult (Completed Next)
      (set_shadowRoot (Some (Loading heading' (retrying_message (S (retryCount w)))))
         (set_retryCount (S (retryCount w)) w))
      [Timeout retryDelay] net.
Proof.
  intros Hd Hc. unfold count_and_wait.
  rewrite run_bind, run_call.
  cbn [continue before ended ending_of element trace unread fst snd app
       increment_retryCount assign].
  rewrite run_bind.
  cbn [read run continue before ended ending_of element trace unread fst snd app
       retryCount set_retryCount].
  rewrite bool_decide_true by done.
  rewrite run_bind, run_call, (renderStatus_loading _ heading' st) by done.
  done.
Qed.

Lemma run_count_and_wait_last net w :
  ¬ S (retryCount w) < maxRetries →
  run E count_and_wait net w
  = RunResult (Completed Next) (set_retryCount (S (retryCount w)) w) [] net.
Proof.
  intros Hc. unfold count_and_wait.
  rewrite run_bind, run_call.
  cbn [continue before ended ending_of element trace unread fst snd app
       increment_retryCount assign].
  rewrite run_bind.
  cbn [read run continue before ended ending_of element trace unread fst snd app
       retryCount set_retryCount].
  by rewrite bool_decide_false by done.
Qed.

Lemma run_recover_more e net w :
  S (retryCount w) < maxRetries →
  run E (recover e) net w
  = RunResult (Completed Next) (set_retryCount (S (retryCount w)) w)
      [Timeout retryDelay] net.
Proof.
  intros Hc. unfold recover.
  rewrite run_bind, run_call.
  cbn [continue before ended ending_of element trace unread fst snd app
       increment_retryCount assign].
  rewrite run_bind.
  cbn [read run continue before ended ending_of element trace unread fst snd app
       retryCount set_retryCount].
  by rewrite bool_decide_false by lia.
Qed.

Lemma run_recover_last e d0 net w :
  shadowRoot w = Some d0 → ¬ S (retryCount w) < maxRetries →
  run E (recover e) net w
  = RunResult (Completed Return)
      (set_shadowRoot (Some (ErrorBox ("Failed to load FAQs: " +:+ message e)))
         (set_retryCount (S (retryCount w)) w))
      [] net.
Proof.
  intros Hd Hc. unfold recover.
  rewrite run_bind, run_call.
  cbn [continue before ended ending_of element trace unread fst snd app
       increment_retryCount assign].
  rewrite run_bind.
  cbn [read run continue before ended ending_of element trace unread fst snd app
       retryCount set_retryCount].
  rewrite bool_decide_true by lia.
  rewrite run_bind, run_call, (renderError_attached _ d0) by done.
  done.
Qed.

Lemma run_examine_found result d0 net w :
  shadowRoot w = Some d0 → has_faqs E result = Normal true →
  run E (examine E api url lang heading jsonld result) net w
  = RunResult (Completed Return) (displayed (get result "faqs") heading jsonld w) [] net.
Proof.
  intros Hd Hf. unfold examine.
  rewrite run_bind, run_settle_outcome, Hf.
  cbn [continue before ended ending_of element trace unread fst snd app].
  by rewrite (run_show _ d0).
Qed.

Lemma run_examine_terminal result d0 net w :
  shadowRoot w = Some d0 →
  has_faqs E result = Normal false → should_retry result = Normal false →
  run E (examine E api url lang heading jsonld result) net w
  = RunResult (Completed Return)
      (set_shadowRoot (Some (ErrorBox "No FAQs available for this page")) w) [] net.
Proof.
  intros Hd Hf Hr. unfold examine.
  rewrite run_bind, run_settle_outcome, Hf.
  cbn [continue before ended ending_of element trace unread fst snd app].
  rewrite run_bind, run_settle_outcome, Hr.
  cbn [continue before ended ending_of element trace unread fst snd app negb].
  by rewrite run_bind, run_call, (renderError_attached _ d0) by done.
Qed.

Lemma run_examine_in_progress result net w :
  has_faqs E result = Normal false → should_retry result = Normal true →
  wants_refresh result = false →
  run E (examine E api url lang heading jsonld result) net w
  = run E count_and_wait net w.
Proof.
  intros Hf Hr Hw. unfold examine.
  rewrite run_bind, run_settle_outcome, Hf.
  cbn [continue before ended ending_of element trace unread fst snd app].
  rewrite run_bind, run_settle_outcome, Hr.
  cbn [continue before ended ending_of element trace unread fst snd app negb].
  rewrite Hw, run_bind.
  cbn [mret prog_ret run continue before ended ending_of element trace unread fst snd app].
  by rewrite !before_nil.
Qed.

Lemma run_examine_refresh result net w :
  has_faqs E result = Normal false → should_retry result = Normal true →
  wants_refresh result = true →
  run E (examine E api url lang heading jsonld result) net w
  = continue E (run E (force_refresh E api url lang heading jsonld) net w)
      (λ refreshed, match refreshed with
                    | Return => mret Return
                    | Next => count_and_wait
                    end).
Proof.
  intros Hf Hr Hw. unfold examine.
  rewrite run_bind, run_settle_outcome, Hf.
  cbn [continue before ended ending_of element trace unread fst snd app].
  rewrite run_bind, run_settle_outcome, Hr.
  cbn [continue before ended ending_of element trace unread fst snd app negb].
  by rewrite Hw, run_bind, !before_nil.
Qed.

Lemma run_force_refresh net w :
  run E (force_refresh E api url lang heading jsonld) net w
  = after (Fetch (page_faqs_request api url lang true))
      match net with
      | [] => RunResult AwaitingResponse w [] []
      | s :: net' =>
          match fetched s with
          | Thrown e => RunResult (Uncaught e) w [] net'
          | Normal refreshResult =>
              match has_faqs E refreshResult with
              | Thrown e => RunResult (Uncaught e) w [] net'
              | Normal true =>
                  run E (show (get refreshResult "faqs") heading jsonld) net' w
              | Normal false => RunResult (Completed Next) w [] net'
              end
          end
      end.
Proof.
  unfold force_refresh. rewrite run_bind, run_fetchFaqs, continue_after. f_equal.
  destruct net as [|s net']; [done|].
  destruct (fetched s) as [r|e]; [|done].
  cbn [continue before ended ending_of element trace unread fst snd app].
  rewrite run_bind, run_settle_outcome.
  destruct (has_faqs E r) as [[]|e]; [|done|done].
  cbn [continue before ended ending_of element trace unread fst snd app].
  by rewrite !before_nil.
Qed.

Lemma run_attempt net w :
  run E (attempt E api url lang heading jsonld) net w
  = after (Fetch (page_faqs_request api url lang false))
      match net with
      | [] => RunResult AwaitingResponse w [] []
      | s :: net' =>
          match fetched s with
          | Thrown e => RunResult (Uncaught e) w [] net'
          | Normal result => run E (examine E api url lang heading jsonld result) net' w
          end
      end.
Proof.
  unfold attempt. rewrite run_bind, run_fetchFaqs, continue_after. f_equal.
  destruct net as [|s net']; [done|].
  destruct (fetched s) as [r|e]; [|done].
  cbn [continue before ended ending_of element trace unread fst snd app].
  by rewrite !before_nil.
Qed.

(** One pass through the loop, and the exit from it. *)
Lemma run_retry_loop_pass unroll net w :
  retryCount w < maxRetries →
  run E (retry_loop E (S unroll) api url lang heading jsonld) net w
  = continue E (handle E (run E (attempt E api url lang heading jsonld) net w) recover)
      (λ c, match c with
            | Return => mret tt
            | Next => retry_loop E unroll api url lang heading jsonld
            end).
Proof.
  intros Hc. cbn [retry_loop]. rewrite run_bind.
  cbn [read run continue before ended ending_of element trace unread fst snd app].
  rewrite bool_decide_true by done.
  by rewrite before_nil, run_bind, run_try_catch.
Qed.

Lemma run_retry_loop_exit unroll net w :
  ¬ retryCount w < maxRetries →
  run E (retry_loop E unroll api url lang heading jsonld) net w
  = run E (call (renderError "No FAQs generated after multiple attempts")) net w.
Proof.
  intros Hc. destruct unroll; cbn [retry_loop]; rewrite run_bind;
    cbn [read run continue before ended ending_of element trace unread fst snd app];
    by rewrite bool_decide_false, before_nil by done.
Qed.

End Loop.

(** ** Replies of the contracted shape *)

Section Replies.
Context (E : engine).

Lemma valid_faqs r :
  structurally_valid r = true → get r "faqs" = JArr (faq_list r) ∧ truthy r = true.
Proof.
  unfold structurally_valid, faq_list. intros H.
  destruct r as [| |b|n|s|items|props]; try done.
  by destruct (get (JObj props) "faqs").
Qed.

Lemma valid_has_faqs r :
  structurally_valid r = true →
  has_faqs E r = Normal (bool_decide (faq_list r ≠ [])).
Proof.
  intros H. destruct (valid_faqs r H) as [Hf Ht].
  unfold has_faqs. rewrite Hf, Ht. cbn [truthy andb length_greater_than_zero]. f_equal.
  destruct (faq_list r); cbn [length].
  - rewrite (bool_decide_false (0 < 0)) by lia.
    by rewrite bool_decide_false by (intros H'; by apply H').
  - rewrite (bool_decide_true (0 < S _)) by lia.
    by rewrite bool_decide_true.
Qed.

Lemma valid_should_retry r :
  structurally_valid r = true → should_retry r = Normal (in_progress r).
Proof.
  intros H. destruct (valid_faqs r H) as [_ Ht].
  unfold should_retry, in_progress, file_reference, just_crawled, faq_generated,
    says_generating. rewrite Ht. cbn [negb].
  unfold structurally_valid in H. repeat (apply andb_prop in H as [H ?]).
  destruct (get r "faq_file") as [| |?|?|f|?|?]; try done;
  destruct (get r "just_crawled") as [| |[]|?|?|?|?]; try done;
  destruct (get r "faq_generated") as [| |[]|?|?|?|?]; try done;
  destruct (get r "message") as [| |?|?|m|?|?]; try done;
  cbn; rewrite ?orb_true_r, ?orb_false_r; try done;
  try (by destruct f); try (by destruct m); by destruct f, m.
Qed.

Lemma valid_wants_refresh r :
  structurally_valid r = true → faq_list r = [] →
  wants_refresh r = file_reference r.
Proof.
  intros H Hl. destruct (valid_faqs r H) as [Hf _].
  unfold wants_refresh, file_reference. rewrite Hf, Hl. cbn.
  unfold structurally_valid in H. repeat (apply andb_prop in H as [H ?]).
  destruct (get r "faq_file"); try done; cbn; by rewrite andb_true_r.
Qed.

Lemma fetched_replied st r : fetched (replied st r) = Normal r.
Proof. done. Qed.

Lemma fetched_fails s cause :
  fails s cause → ∃ e, fetched s = Thrown e ∧ message e = cause.
Proof.
  destruct 1 as [e He|st b|e He]; cbn; unfold relabelled.
  - apply String.eqb_neq in He. rewrite He. eauto.
  - eauto.
  - apply String.eqb_eq in He. rewrite He. eauto.
Qed.

End Replies.

(** ** The retry loop: what one attempt does *)

Section Attempts.
Context (E : engine).
Context (api url : string) (lang : option string) (heading : string) (jsonld : bool).

(** A pass whose request is answered by a reply of the contracted shape
    with an empty list. *)
Lemma run_pass_empty unroll st r net w :
  retryCount w < maxRetries → structurally_valid r = true → faq_list r = [] →
  run E (retry_loop E (S unroll) api url lang heading jsonld) (replied st r :: net) w
  = before [Fetch (page_faqs_request api url lang false)]
      (continue E
         (handle E (run E (examine E api url lang heading jsonld r) net w) recover)
         (λ c, match c with
               | Return => mret tt
               | Next => retry_loop E unroll api url lang heading jsonld
               end)).
Proof.
  intros Hc Hv Hl.
  rewrite run_retry_loop_pass, run_attempt by done.
  rewrite fetched_replied, handle_after, continue_after.
  by destruct (continue _ _ _).
Qed.

(** C2. At any pass of the loop, a reply of the contracted shape whose
    list is empty and which carries none of the four in-progress signals
    ends the resolution there and then: the error view shows "No FAQs
    available for this page", the only request of the pass is the attempt
    itself (no forced refresh), no timer is set, the attempt counter is
    left as it was and the rest of the network script is not read. *)
Theorem empty_reply_is_terminal unroll st r d net w :
  retryCount w < maxRetries → shadowRoot w = Some d →
  structurally_valid r = true → faq_list r = [] → in_progress r = false →
  run E (retry_loop E (S unroll) api url lang heading jsonld) (replied st r :: net) w
  = RunResult (Completed tt)
      (set_shadowRoot (Some (ErrorBox "No FAQs available for this page")) w)
      [Fetch (page_faqs_request api url lang false)] net.
Proof.
  intros Hc Hd Hv Hl Hp.
  rewrite run_pass_empty by done.
  rewrite (run_examine_terminal _ _ _ _ _ _ _ d); [done|done| |].
  - rewrite valid_has_faqs by done. by rewrite bool_decide_false by (by rewrite Hl; intros ?).
  - by rewrite valid_should_retry, Hp.
Qed.

(** The bookkeeping that ends a retryable pass, and the loop after it, on
    the loading view. *)
Lemma run_count_and_wait_then_loop unroll heading' status net w :
  shadowRoot w = Some (Loading heading' status) →
  continue E (handle E (run E count_and_wait net w) recover)
    (λ c, match c with
          | Return => mret tt
          | Next => retry_loop E unroll api url lang heading jsonld
          end)
  = if bool_decide (S (retryCount w) < maxRetries)
    then before [Timeout retryDelay]
           (run E (retry_loop E unroll api url lang heading jsonld) net
              (set_shadowRoot
                 (Some (Loading heading' (retrying_message (S (retryCount w)))))
                 (set_retryCount (S (retryCount w)) w)))
    else RunResult (Completed tt)
           (set_shadowRoot
              (Some (ErrorBox "No FAQs generated after multiple attempts"))
              (set_retryCount (S (retryCount w)) w))
           [] net.
Proof.
  intros Hd. case_bool_decide as Hc.
  - by rewrite (run_count_and_wait_more _ heading' status) by done.
  - rewrite run_count_and_wait_last by done.
    cbn [handle continue before ended ending_of element trace unread app].
    rewrite run_retry_loop_exit by done.
    by rewrite run_call, (renderError_attached _ (Loading heading' status)) by done.
Qed.

(** The same when the pass ended by an exception. *)
Lemma run_recover_then_loop unroll e d net w :
  shadowRoot w = Some d →
  continue E (run E (recover e) net w)
    (λ c, match c with
          | Return => mret tt
          | Next => retry_loop E unroll api url lang heading jsonld
          end)
  = if bool_decide (S (retryCount w) < maxRetries)
    then before [Timeout retryDelay]
           (run E (retry_loop E unroll api url lang heading jsonld) net
              (set_retryCount (S (retryCount w)) w))
    else RunResult (Completed tt)
           (set_shadowRoot
              (Some (ErrorBox ("Failed to load FAQs: " +:+ message e)))
              (set_retryCount (S (retryCount w)) w))
           [] net.
Proof.
  intros Hd. case_bool_decide as Hc.
  - by rewrite run_recover_more by done.
  - by rewrite (run_recover_last _ _ d) by done.
Qed.

(** A pass whose reply names a file and has an empty list: up to the
    answer to the forced refresh. *)
Lemma run_pass_refresh unroll st r net w :
  retryCount w < maxRetries →
  structurally_valid r = true → faq_list r = [] → file_reference r = true →
  run E (retry_loop E (S unroll) api url lang heading jsonld) (replied st r :: net) w
  = before [Fetch (page_faqs_request api url lang false)]
      (continue E
         (handle E
            (continue E (run E (force_refresh E api url lang heading jsonld) net w)
               (λ refreshed, match refreshed with
                             | Return => mret Return
                             | Next => count_and_wait
                             end))
            recover)
         (λ c, match c with
               | Return => mret tt
               | Next => retry_loop E unroll api url lang heading jsonld
               end)).
Proof.
  intros Hc Hv Hl Hf.
  rewrite run_pass_empty by done.
  rewrite run_examine_refresh; [done| | |].
  - rewrite valid_has_faqs by done. by rewrite bool_decide_false by (by rewrite Hl; intros ?).
  - rewrite valid_should_retry by done. unfold in_progress. by rewrite Hf.
  - by rewrite valid_wants_refresh, Hf.
Qed.

(** C3. At any pass of the loop, a reply that carries a file reference
    and an empty list is followed at once by one request of the forced
    variant, the one whose query carries [force_refresh=true]: when only
    that reply has arrived the loop is waiting for the answer to the
    forced request, the element (its attempt counter too) is as it was and
    no timer has been set; if the forced request is answered with a
    non-empty list, that list is displayed and the resolution is over; if
    it is answered with an empty list, the pass goes on to its usual
    bookkeeping, without another forced request. *)
Theorem file_reference_forces_refresh unroll st r d w :
  retryCount w < maxRetries → shadowRoot w = Some d →
  structurally_valid r = true → faq_list r = [] → file_reference r = true →
  run E (retry_loop E (S unroll) api url lang heading jsonld) [replied st r] w
  = RunResult AwaitingResponse w
      [Fetch (page_faqs_request api url lang false);
       Fetch (page_faqs_request api url lang true)] []
  ∧ ("force_refresh", "true") ∈ params (page_faqs_request api url lang true)
  ∧ forced (page_faqs_request api url lang true) = true
  ∧ forced (page_faqs_request api url lang false) = false
  ∧ (∀ st' r' net,
       structurally_valid r' = true → faq_list r' ≠ [] →
       run E (retry_loop E (S unroll) api url lang heading jsonld)
         (replied st r :: replied st' r' :: net) w
       = RunResult (Completed tt) (displayed (get r' "faqs") heading jsonld w)
           [Fetch (page_faqs_request api url lang false);
            Fetch (page_faqs_request api url lang true)] net)
  ∧ (∀ st' r' net,
       structurally_valid r' = true → faq_list r' = [] →
       run E (retry_loop E (S unroll) api url lang heading jsonld)
         (replied st r :: replied st' r' :: net) w
       = before [Fetch (page_faqs_request api url lang false);
                 Fetch (page_faqs_request api url lang true)]
           (continue E (handle E (run E count_and_wait net w) recover)
              (λ c, match c with
                    | Return => mret tt
                    | Next => retry_loop E unroll api url lang heading jsonld
                    end))).
Proof.
  intros Hc Hd Hv Hl Hf. split_and!.
  - by rewrite run_pass_refresh, run_force_refresh by done.
  - unfold page_faqs_request.
    destruct lang as [l|]; [destruct (String.eqb l "")|]; cbn; repeat constructor.
  - unfold forced, page_faqs_request.
    destruct lang as [l|]; [destruct (String.eqb l "")|]; by vm_compute.
  - unfold forced, page_faqs_request.
    destruct lang as [l|]; [destruct (String.eqb l "")|]; by vm_compute.
  - intros st' r' net Hv' Hl'.
    rewrite run_pass_refresh, run_force_refresh by done.
    rewrite fetched_replied, valid_has_faqs, bool_decide_true by done.
    by rewrite (run_show _ _ _ _ d) by done.
  - intros st' r' net Hv' Hl'.
    rewrite run_pass_refresh, run_force_refresh by done.
    rewrite fetched_replied, valid_has_faqs by done.
    rewrite bool_decide_false by (by rewrite Hl'; intros ?).
    cbn [after continue before ended ending_of element trace unread app].
    by rewrite handle_before, continue_before, before_before.
Qed.

(** C10. A forced refresh that fails (transport error, status that is not
    a success, timeout) is caught by the handler of the loop and uses up
    the attempt: the counter goes up by one.  When attempts remain the
    loop waits [retryDelay] and goes on; when it was the last attempt the
    error view shows "Failed to load FAQs: " followed by the cause, not
    the message of exhausted retries. *)
Theorem failed_refresh_uses_attempt unroll st r s cause d net w :
  retryCount w < maxRetries → shadowRoot w = Some d →
  structurally_valid r = true → faq_list r = [] → file_reference r = true →
  fails s cause →
  run E (retry_loop E (S unroll) api url lang heading jsonld) (replied st r :: s :: net) w
  = if bool_decide (S (retryCount w) < maxRetries)
    then before [Fetch (page_faqs_request api url lang false);
                 Fetch (page_faqs_request api url lang true);
                 Timeout retryDelay]
           (run E (retry_loop E unroll api url lang heading jsonld) net
              (set_retryCount (S (retryCount w)) w))
    else RunResult (Completed tt)
           (set_shadowRoot (Some (ErrorBox ("Failed to load FAQs: " +:+ cause)))
              (set_retryCount (S (retryCount w)) w))
           [Fetch (page_faqs_request api url lang false);
            Fetch (page_faqs_request api url lang true)] net.
Proof.
  intros Hc Hd Hv Hl Hf Hs.
  destruct (fetched_fails s cause Hs) as (e & He & <-).
  rewrite run_pass_refresh, run_force_refresh by done. rewrite He.
  cbn [after continue handle ended ending_of element trace unread].
  rewrite continue_before, (run_recover_then_loop _ _ d), before_before by done.
  case_bool_decide; [|done]. by rewrite before_before.
Qed.

End Attempts.

(** ** The retry loop: bounds that hold however the network answers *)

Section Bound.
Context (E : engine).

Lemma keeps_ret {A} P (a : A) : keeps E P (mret a).
Proof. intros net w. cbn. split_and!; [constructor|lia|done]. Qed.

Lemma keeps_settle_outcome {A} P (o : outcome A) : keeps E P (settle_outcome o).
Proof. intros net w. rewrite run_settle_outcome. cbn. split_and!; [constructor|lia|by destruct o]. Qed.

Lemma keeps_call P (m : sync unit) :
  (∀ w, retryCount w ≤ retryCount (m w).2) → keeps E P (call m).
Proof.
  intros Hm net w. rewrite run_call. cbn.
  split_and!; [constructor|apply Hm|by destruct (m w).1].
Qed.

Lemma keeps_delay (P : event → Prop) ms : P (Timeout ms) → keeps E P (delay ms).
Proof. intros HP net w. cbn. split_and!; [by repeat constructor|lia|done]. Qed.

Lemma keeps_fetchFaqs (P : event → Prop) api url lang force :
  P (Fetch (page_faqs_request api url lang force)) →
  keeps E P (fetchFaqs api url lang force).
Proof.
  intros HP net w. rewrite run_fetchFaqs.
  destruct net as [|s net]; cbn; (split_and!; [by repeat constructor|lia|]); [done|].
  by destruct (fetched s).
Qed.

Lemma keeps_bind {A B} P (p : prog A) (f : A → prog B) :
  keeps E P p → (∀ a, keeps E P (f a)) → keeps E P (p ≫= f).
Proof.
  intros Hp Hf net w. rewrite run_bind.
  destruct (Hp net w) as (Ht & Hc & Hu). revert Ht Hc Hu.
  destruct (run E p net w) as [[a|e| |] w1 t1 net1]; cbn; intros Ht Hc Hu; try done.
  destruct (Hf a net1 w1) as (Ht' & Hc' & Hu').
  split_and!; [by apply Forall_app|lia|done].
Qed.

Lemma keeps_read_bind {B} P (f : widget → prog B) :
  (∀ w, keeps E P (f w)) → keeps E P (read ≫= f).
Proof. intros Hf net w. apply (Hf w net w). Qed.

Lemma keeps_try_catch {A} P (p : prog A) (h : js_error → prog A) :
  keeps E P p → (∀ e, keeps E P (h e)) → keeps E P (try_catch p h).
Proof.
  intros Hp Hh net w. rewrite run_try_catch.
  destruct (Hp net w) as (Ht & Hc & Hu). revert Ht Hc Hu.
  destruct (run E p net w) as [[a|e| |] w1 t1 net1]; cbn; intros Ht Hc Hu; try done.
  destruct (Hh e net1 w1) as (Ht' & Hc' & Hu').
  split_and!; [by apply Forall_app|lia|done].
Qed.

Lemma counts_bind {A} P (p : prog A) (f : A → prog completion) :
  keeps E P p → (∀ a, counts E (f a)) → counts E (p ≫= f).
Proof.
  intros Hp Hf net w. rewrite run_bind.
  destruct (Hp net w) as (_ & Hc & _). revert Hc.
  destruct (run E p net w) as [[a|e| |] w1 t1 net1]; cbn; intros Hc; try done.
  intros H. specialize (Hf a net1 w1 H). lia.
Qed.

Lemma counts_try_catch P (p : prog completion) (h : js_error → prog completion) :
  keeps E P p → counts E p → (∀ e, counts E (h e)) → counts E (try_catch p h).
Proof.
  intros Hk Hp Hh net w. rewrite run_try_catch.
  destruct (Hk net w) as (_ & Hc & _). specialize (Hp net w). revert Hc Hp.
  destruct (run E p net w) as [[a|e| |] w1 t1 net1]; cbn; intros Hc Hp; try done.
  intros H. specialize (Hh e net1 w1 H). lia.
Qed.

Lemma counts_return : counts E (mret Return).
Proof. by intros net w. Qed.

Lemma counts_after_increment P (q : prog completion) :
  keeps E P q → counts E (call increment_retryCount ≫= λ _, q).
Proof.
  intros Hq net w. rewrite run_bind, run_call. cbn.
  destruct (Hq net (set_retryCount (S (retryCount w)) w)) as (_ & Hc & _).
  cbn in Hc. intros _. lia.
Qed.

Section Blocks.
Context (api url : string) (lang : option string) (heading : string) (jsonld : bool).
Context (P : event → Prop).
Context (P_refresh : P (Fetch (page_faqs_request api url lang true))).
Context (P_timeout : P (Timeout retryDelay)).

Lemma render_retryCount faqs h w : retryCount w ≤ retryCount (render faqs h w).2.
Proof. unfold render. by destruct (set_innerHTML_fields (content faqs h) w) as [-> _]. Qed.

Lemma renderError_retryCount msg w : retryCount w ≤ retryCount (renderError msg w).2.
Proof. unfold renderError. by destruct (set_innerHTML_fields (ErrorBox msg) w) as [-> _]. Qed.

Lemma renderStatus_retryCount msg w : retryCount w ≤ retryCount (renderStatus msg w).2.
Proof. by destruct (renderStatus_fields msg w) as [-> _]. Qed.

Lemma injectJsonLd_retryCount faqs h w : retryCount w ≤ retryCount (injectJsonLd faqs h w).2.
Proof. by destruct (injectJsonLd_normal faqs h w) as (_ & _ & -> & _). Qed.

Lemma keeps_show faqs : keeps E P (show faqs heading jsonld).
Proof.
  unfold show. apply keeps_bind; [apply keeps_call, render_retryCount|]. intros _.
  apply keeps_bind; [|intros; apply keeps_ret].
  destruct jsonld; [apply keeps_call, injectJsonLd_retryCount|apply keeps_ret].
Qed.

Lemma counts_show faqs : counts E (show faqs heading jsonld).
Proof.
  unfold show.
  eapply counts_bind; [apply (keeps_call P), render_retryCount|]. intros _.
  eapply (counts_bind P); [|intros; apply counts_return].
  destruct jsonld; [apply keeps_call, injectJsonLd_retryCount|apply keeps_ret].
Qed.

Lemma keeps_after_increment : 
  keeps E P (w ← read;
             if bool_decide (retryCount w < maxRetries) then
               call (renderStatus (retrying_message (retryCount w)));;
               delay retryDelay;;
               mret Next
             else mret Next).
Proof.
  apply keeps_read_bind. intros w. case_bool_decide; [|apply keeps_ret].
  apply keeps_bind; [apply keeps_call, renderStatus_retryCount|]. intros _.
  apply keeps_bind; [by apply keeps_delay|]. intros _. apply keeps_ret.
Qed.

Lemma keeps_count_and_wait : keeps E P count_and_wait.
Proof.
  unfold count_and_wait. apply keeps_bind; [|intros _; apply keeps_after_increment].
  apply keeps_call. intros w. cbn. lia.
Qed.

Lemma counts_count_and_wait : counts E count_and_wait.
Proof. apply (counts_after_increment P), keeps_after_increment. Qed.

Lemma keeps_force_refresh : keeps E P (force_refresh E api url lang heading jsonld).
Proof.
  unfold force_refresh. apply keeps_bind; [by apply keeps_fetchFaqs|]. intros r.
  apply keeps_bind; [apply keeps_settle_outcome|]. intros [].
  - apply keeps_show.
  - apply keeps_ret.
Qed.

Lemma keeps_examine result : keeps E P (examine E api url lang heading jsonld result).
Proof.
  unfold examine. apply keeps_bind; [apply keeps_settle_outcome|]. intros [].
  { apply keeps_show. }
  apply keeps_bind; [apply keeps_settle_outcome|]. intros []; cbn [negb].
  - apply keeps_bind.
    + destruct (wants_refresh result); [apply keeps_force_refresh|apply keeps_ret].
    + intros []; [apply keeps_ret|apply keeps_count_and_wait].
  - apply keeps_bind; [apply keeps_call, renderError_retryCount|].
    intros _. apply keeps_ret.
Qed.

Lemma counts_examine result : counts E (examine E api url lang heading jsonld result).
Proof.
  unfold examine. eapply counts_bind; [apply (keeps_settle_outcome P)|]. intros [].
  { apply counts_show. }
  eapply counts_bind; [apply (keeps_settle_outcome P)|]. intros []; cbn [negb].
  - eapply (counts_bind P).
    + destruct (wants_refresh result); [apply keeps_force_refresh|apply keeps_ret].
    + intros []; [apply counts_return|apply counts_count_and_wait].
  - eapply counts_bind; [apply (keeps_call P), renderError_retryCount|].
    intros _. apply counts_return.
Qed.

Lemma keeps_after_increment_recover e :
  keeps E P (w ← read;
             if bool_decide (maxRetries ≤ retryCount w) then
               call (renderError ("Failed to load FAQs: " +:+ message e));;
               mret Return
             else
               delay retryDelay;;
               mret Next).
Proof.
  apply keeps_read_bind. intros w. case_bool_decide.
  - apply keeps_bind; [apply keeps_call, renderError_retryCount|].
    intros _. apply keeps_ret.
  - apply keeps_bind; [by apply keeps_delay|]. intros _. apply keeps_ret.
Qed.

Lemma keeps_recover e : keeps E P (recover e).
Proof.
  unfold recover. apply keeps_bind; [|intros _; apply keeps_after_increment_recover].
  apply keeps_call. intros w. cbn. lia.
Qed.

Lemma counts_recover e : counts E (recover e).
Proof. apply (counts_after_increment P), keeps_after_increment_recover. Qed.

End Blocks.
End Bound.

Section Cycle.
Context (E : engine).
Context (api url : string) (lang : option string) (heading : string) (jsonld : bool).

Lemma attempts_app t t' : attempts (t ++ t') = attempts t + attempts t'.
Proof. unfold attempts. by rewrite filter_app, length_app. Qed.

Lemma attempts_none t : Forall (λ e, is_attempt e = false) t → attempts t = 0.
Proof.
  unfold attempts. induction 1 as [|e t He _ IH]; [done|].
  rewrite filter_cons_False; [exact IH|]. rewrite He. by intros [].
Qed.

Lemma is_attempt_refresh : is_attempt (Fetch (page_faqs_request api url lang true)) = false.
Proof.
  unfold is_attempt, forced, page_faqs_request.
  destruct lang as [l|]; [destruct (String.eqb l "")|]; by vm_compute.
Qed.

Lemma is_attempt_main : is_attempt (Fetch (page_faqs_request api url lang false)) = true.
Proof.
  unfold is_attempt, forced, page_faqs_request.
  destruct lang as [l|]; [destruct (String.eqb l "")|]; by vm_compute.
Qed.

Lemma attempts_cons_main t :
  attempts (Fetch (page_faqs_request api url lang false) :: t) = S (attempts t).
Proof.
  unfold attempts. rewrite filter_cons_True; [done|]. by rewrite is_attempt_main.
Qed.

(** A pass is its request followed by the rest. *)
Lemma run_pass_tail net w :
  handle E (run E (attempt E api url lang heading jsonld) net w) recover
  = after (Fetch (page_faqs_request api url lang false))
      match net with
      | [] => RunResult AwaitingResponse w [] []
      | s :: net' =>
          run E match fetched s with
                | Thrown e => recover e
                | Normal result =>
                    try_catch (examine E api url lang heading jsonld result) recover
                end net' w
      end.
Proof.
  rewrite run_attempt, handle_after. f_equal.
  destruct net as [|s net']; [done|].
  destruct (fetched s) as [r|e]; [by rewrite run_try_catch|].
  unfold handle; cbn. by rewrite before_nil.
Qed.

Lemma keeps_pass_tail (P : event → Prop) s :
  P (Fetch (page_faqs_request api url lang true)) → P (Timeout retryDelay) →
  keeps E P match fetched s with
            | Thrown e => recover e
            | Normal result =>
                try_catch (examine E api url lang heading jsonld result) recover
            end
  ∧ counts E match fetched s with
             | Thrown e => recover e
             | Normal result =>
                 try_catch (examine E api url lang heading jsonld result) recover
             end.
Proof.
  intros Hr Ht. destruct (fetched s) as [r|e].
  - split.
    + apply keeps_try_catch; [by apply keeps_examine|]. intros e. by apply keeps_recover.
    + apply (counts_try_catch E P);
        [by apply keeps_examine|by apply (counts_examine E _ _ _ _ _ P)|].
      intros e. by apply (counts_recover E P).
  - split; [by apply keeps_recover|by apply (counts_recover E P)].
Qed.

(** However the network answers, the loop entered with [retryCount] at [c]
    makes at most [maxRetries - c] attempts, records nothing but its
    requests and timers, and three passes unrolled are enough for it. *)
Lemma retry_loop_bound (Q : event → Prop) unroll :
  Q (Fetch (page_faqs_request api url lang false)) →
  Q (Fetch (page_faqs_request api url lang true)) →
  Q (Timeout retryDelay) →
  ∀ net w,
    attempts (trace (run E (retry_loop E unroll api url lang heading jsonld) net w))
      ≤ maxRetries - retryCount w
    ∧ Forall Q (trace (run E (retry_loop E unroll api url lang heading jsonld) net w))
    ∧ (maxRetries - retryCount w ≤ unroll →
       ended (run E (retry_loop E unroll api url lang heading jsonld) net w) ≠ Unrolled).
Proof.
  intros Qm Qr Qt. unfold maxRetries.
  induction unroll as [|unroll IH]; intros net w;
    (destruct (decide (retryCount w < maxRetries)) as [Hc|Hc];
     [|rewrite run_retry_loop_exit, run_call by done; cbn;
       split_and!; [lia|constructor|by destruct (renderError _ w).1]]);
    unfold maxRetries in Hc.
  - cbn. rewrite bool_decide_true by done. cbn.
    split_and!; [lia|constructor|lia].
  - rewrite run_retry_loop_pass, run_pass_tail, continue_after by done.
    destruct net as [|s net'].
    { cbn [after continue before trace ended element unread app]. rewrite attempts_cons_main.
      split_and!; [cbn; lia|by repeat constructor|done]. }
    set (P := λ e, is_attempt e = false ∧ Q e).
    destruct (keeps_pass_tail P s) as [Hk Hn];
      [split; [apply is_attempt_refresh|done]|done|].
    destruct (Hk net' w) as (Ht & Hle & Hu). specialize (Hn net' w).
    revert Ht Hle Hu Hn.
    destruct (run E _ net' w) as [[[]|e| |] w1 t1 net1];
      cbn [after continue before trace ended element unread app run mret prog_ret];
      intros Ht Hle Hu Hn; try done;
      apply Forall_and in Ht as [Ha Hq]; rewrite attempts_cons_main.
    + rewrite app_nil_r, (attempts_none t1) by done.
      split_and!; [lia|by constructor|done].
    + specialize (Hn eq_refl). destruct (IH net1 w1) as (Hb & Hf & He).
      rewrite attempts_app, (attempts_none t1) by done.
      split_and!; [lia|constructor; [done|by apply Forall_app]|].
      intros Hun. apply He. lia.
    + rewrite (attempts_none t1) by done.
      split_and!; [lia|by constructor|done].
    + rewrite (attempts_none t1) by done.
      split_and!; [lia|by constructor|done].
Qed.

Lemma run_loadFaqsWithRetry unroll net w :
  run E (loadFaqsWithRetry E unroll api url lang heading jsonld) net w
  = run E (retry_loop E unroll api url lang heading jsonld) net (set_retryCount 0 w).
Proof.
  unfold loadFaqsWithRetry. rewrite run_bind, run_call. cbn. by rewrite before_nil.
Qed.

Lemma displayed_content faqs w :
  shadowRoot (displayed faqs heading jsonld w) = Some (content faqs heading)
  ∧ retryCount (displayed faqs heading jsonld w) = retryCount w.
Proof.
  unfold displayed. destruct jsonld; [|done].
  by destruct (injectJsonLd_normal faqs heading
                 (set_shadowRoot (Some (content faqs heading)) w)) as (_ & -> & -> & _).
Qed.


End Cycle.

(** ** Instances on the scenarios *)


(** C2 on the example of the contract: [{faqs: [], just_crawled: false}]
    answers the first attempt. *)
Lemma empty_reply_is_terminal_witness :
  retryCount (loading_element 0) < maxRetries
  ∧ shadowRoot (loading_element 0)
    = Some (Loading "Frequently Asked Questions" "Loading FAQs...")
  ∧ structurally_valid terminal_reply = true
  ∧ faq_list terminal_reply = []
  ∧ in_progress terminal_reply = false
  ∧ run scenario_engine
      (retry_loop scenario_engine 3 "http://localhost:8000" "https://example.org/" None
         "Frequently Asked Questions" true)
      [replied 200 terminal_reply; replied 200 one_faq_reply] (loading_element 0)
    = RunResult (Completed tt)
        (set_shadowRoot (Some (ErrorBox "No FAQs available for this page"))
           (loading_element 0))
        [Fetch (page_faqs_request "http://localhost:8000" "https://example.org/" None false)]
        [replied 200 one_faq_reply].
Proof.
  assert (retryCount (loading_element 0) < maxRetries) as Hc by (vm_compute; lia).
  split_and!; [exact Hc|reflexivity|reflexivity|reflexivity|reflexivity|].
  exact (empty_reply_is_terminal scenario_engine "http://localhost:8000"
           "https://example.org/" None "Frequently Asked Questions" true
           2 200 terminal_reply _ [replied 200 one_faq_reply] (loading_element 0)
           Hc eq_refl eq_refl eq_refl eq_refl).
Defined.

(** C3 on a reply that names a file: the forced request follows. *)
Lemma file_reference_forces_refresh_witness :
  retryCount (loading_element 0) < maxRetries
  ∧ shadowRoot (loading_element 0)
    = Some (Loading "Frequently Asked Questions" "Loading FAQs...")
  ∧ structurally_valid file_reply = true
  ∧ faq_list file_reply = []
  ∧ file_reference file_reply = true
  ∧ run scenario_engine
      (retry_loop scenario_engine 3 "http://localhost:8000" "https://example.org/" None
         "Frequently Asked Questions" true)
      [replied 200 file_reply] (loading_element 0)
    = RunResult AwaitingResponse (loading_element 0)
        [Fetch (page_faqs_request "http://localhost:8000" "https://example.org/" None false);
         Fetch (page_faqs_request "http://localhost:8000" "https://example.org/" None true)]
        [].
Proof.
  assert (retryCount (loading_element 0) < maxRetries) as Hc by (vm_compute; lia).
  split_and!; [exact Hc|reflexivity|reflexivity|reflexivity|reflexivity|].
  exact (proj1 (file_reference_forces_refresh scenario_engine "http://localhost:8000"
           "https://example.org/" None "Frequently Asked Questions" true
           2 200 file_reply _ (loading_element 0)
           Hc eq_refl eq_refl eq_refl eq_refl)).
Defined.

(** C10 on the last attempt: the forced refresh times out. *)
Lemma failed_refresh_uses_attempt_witness :
  retryCount (loading_element 2) < maxRetries
  ∧ shadowRoot (loading_element 2)
    = Some (Loading "Frequently Asked Questions" "Loading FAQs...")
  ∧ structurally_valid file_reply = true
  ∧ faq_list file_reply = []
  ∧ file_reference file_reply = true
  ∧ fails (Rejected (JsError "AbortError" "The operation was aborted.")) "Request timeout"
  ∧ run scenario_engine
      (retry_loop scenario_engine 1 "http://localhost:8000" "https://example.org/" None
         "Frequently Asked Questions" true)
      [replied 200 file_reply; Rejected (JsError "AbortError" "The operation was aborted.")]
      (loading_element 2)
    = RunResult (Completed tt)
        (set_shadowRoot (Some (ErrorBox "Failed to load FAQs: Request timeout"))
           (set_retryCount 3 (loading_element 2)))
        [Fetch (page_faqs_request "http://localhost:8000" "https://example.org/" None false);
         Fetch (page_faqs_request "http://localhost:8000" "https://example.org/" None true)]
        [].
Proof.
  assert (retryCount (loading_element 2) < maxRetries) as Hc by (vm_compute; lia).
  assert (fails (Rejected (JsError "AbortError" "The operation was aborted."))
            "Request timeout") as Hf by (by apply timed_out).
  split_and!; [exact Hc|reflexivity|reflexivity|reflexivity|reflexivity|exact Hf|].
  exact (failed_refresh_uses_attempt scenario_engine "http://localhost:8000"
           "https://example.org/" None "Frequently Asked Questions" true
           0 200 file_reply _ "Request timeout" _ [] (loading_element 2)
           Hc eq_refl eq_refl eq_refl eq_refl Hf).
Defined.

(** ** Initialisation with an oversized inline payload *)

Section Inline.
Context (E : engine).

Lemma run_parseConfig configStr net w :
  ∃ config t,
    run E (parseConfig configStr) net w = RunResult (Completed config) w t net
    ∧ Forall (λ e, is_inline_parse e = false ∧ is_fetch e = false) t.
Proof.
  unfold parseConfig. destruct (String.eqb configStr "").
  - exists (JObj []), []. by split.
  - cbn. destruct (JSON_parse E configStr) as [v|]; cbn.
    + eexists _, _. split; [done|]. by repeat constructor.
    + eexists _, _. split; [done|]. by repeat constructor.
Qed.

Lemma applyConfig_normal config w :
  ∃ s, applyConfig config w = (Normal tt, set_style s w).
Proof.
  unfold applyConfig. destruct (negb (truthy config) || negb (typeof_object config)).
  - exists (style w). by destruct w.
  - by eexists.
Qed.

(** An oversized payload is set aside before [JSON.parse] is reached. *)
Lemma run_getInlineJson_oversized text net w :
  inline_script w = Some text → maxInlineSize < String.length text →
  run E getInlineJson net w
  = RunResult (Completed JNull) w
      [ConsoleWarn "FAQ Widget: Inline JSON too large, ignoring"] net.
Proof.
  intros Hs Hl. unfold getInlineJson. rewrite run_bind.
  cbn [read run continue before ended ending_of element trace unread app].
  rewrite Hs, bool_decide_true by done. done.
Qed.

Lemma run_initializeWidget_oversized unroll text net w :
  inline_script w = Some text → maxInlineSize < String.length text →
  ∃ t w',
    Forall (λ e, is_inline_parse e = false ∧ is_fetch e = false) t
    ∧ (∃ d, shadowRoot w' = Some d)
    ∧ run E (initializeWidget E unroll) net w
      = before t
          (if String.eqb (or_default (getAttribute "data-url" w) "") ""
           then run E (call (renderError "No URL provided and no inline FAQs found")) net w'
           else run E
                  (call (renderLoading
                           (or_default (getAttribute "data-heading" w)
                              "Frequently Asked Questions"));;
                   loadFaqsWithRetry E unroll
                     (or_default (getAttribute "data-api" w) "http://localhost:8000")
                     (or_default (getAttribute "data-url" w) "")
                     (getAttribute "data-lang" w)
                     (or_default (getAttribute "data-heading" w)
                        "Frequently Asked Questions")
                     (negb (bool_decide (getAttribute "data-jsonld" w = Some "off"))))
                  net w').
Proof.
  intros Hs Hl. unfold initializeWidget. rewrite run_bind.
  cbn [read run continue before ended ending_of element trace unread app].
  rewrite before_nil, run_bind.
  destruct (run_parseConfig (or_default (getAttribute "data-config" w) "") net w)
    as (config & t & -> & Ht).
  cbn [continue before ended ending_of element trace unread].
  rewrite run_bind.
  set (w1 := if bool_decide (shadowRoot w = None) then set_shadowRoot (Some Blank) w else w).
  assert (run E (if bool_decide (shadowRoot w = None) then call attachShadow else mret ()) net w
          = RunResult (Completed tt) w1 [] net) as ->.
  { unfold w1. by case_bool_decide. }
  assert (∃ d, shadowRoot w1 = Some d) as [d Hd].
  { unfold w1. case_bool_decide as Hn; [by eexists|].
    destruct (shadowRoot w); [by eexists|done]. }
  assert (inline_script w1 = Some text) as Hs1.
  { unfold w1. by case_bool_decide. }
  cbn [continue before ended ending_of element trace unread app].
  rewrite run_bind, run_call.
  destruct (applyConfig_normal config w1) as [s ->].
  cbn [continue before ended ending_of element trace unread app fst snd].
  rewrite run_bind, (run_getInlineJson_oversized text) by done.
  cbn [continue before ended ending_of element trace unread app truthy].
  rewrite !before_before.
  eexists _, (set_style s w1). split_and!; [|by exists d|by destruct (String.eqb _ _)].
  rewrite !app_nil_r. apply Forall_app. split; [done|by repeat constructor].
Qed.


End Inline.


(** ** Methods parked on a page *)

Section Parked.
Context (E : engine).

Lemma advance_bind {A B} (p : prog A) (f : A → prog B) w :
  advance E (p ≫= f) w = chain E (advance E p w) f.
Proof.
  revert w. induction p as [a|e| |k IH|m k IH|msg k IH|o text k IH|req k IH|r k IH|ms k IH];
    intros w; cbn.
  - by destruct (advance E (f a) w) as [[t w'] ev].
  - done.
  - done.
  - apply IH.
  - apply IH.
  - change (prog_bind f k) with (k ≫= f). rewrite IH.
    destruct (advance E k w) as [[[[a|e]| | | |] w'] ev]; cbn; try done.
    by destruct (advance E (f a) w') as [[t w''] ev'].
  - change (prog_bind f (k (JSON_parse E text))) with (k (JSON_parse E text) ≫= f).
    rewrite IH.
    destruct (advance E (k _) w) as [[[[a|e]| | | |] w'] ev]; cbn; try done.
    by destruct (advance E (f a) w') as [[t w''] ev'].
  - done.
  - done.
  - done.
Qed.

Lemma advance_try_catch {A} (p : prog A) (h : js_error → prog A) w :
  advance E (try_catch p h) w = rescue E (advance E p w) h.
Proof.
  revert w. induction p as [a|e| |k IH|m k IH|msg k IH|o text k IH|req k IH|r k IH|ms k IH];
    intros w; cbn.
  - done.
  - by destruct (advance E (h e) w) as [[t w'] ev].
  - done.
  - apply IH.
  - apply IH.
  - rewrite IH.
    destruct (advance E k w) as [[[[a|e]| | | |] w'] ev]; cbn; try done.
    by destruct (advance E (h e) w') as [[t w''] ev'].
  - rewrite IH.
    destruct (advance E (k _) w) as [[[[a|e]| | | |] w'] ev]; cbn; try done.
    by destruct (advance E (h e) w') as [[t w''] ev'].
  - done.
  - done.
  - done.
Qed.

Lemma advance_call (m : sync unit) w :
  advance E (call m) w = (Over (m w).1, (m w).2, []).
Proof. cbn. by destruct (m w).1 as [[]|]. Qed.

Lemma advance_settle_outcome {A} (o : outcome A) w :
  advance E (settle_outcome o) w = (Over o, w, []).
Proof. by destruct o. Qed.

Context (api url : string) (lang : option string) (heading : string) (jsonld : bool).

Lemma advance_show faqs d w :
  shadowRoot w = Some d →
  advance E (show faqs heading jsonld) w
  = (Over (Normal Return), displayed faqs heading jsonld w, []).
Proof.
  intros Hd. unfold show, displayed.
  rewrite advance_bind, advance_call, (render_attached _ _ d) by done.
  cbn [chain fst snd]. rewrite advance_bind. destruct jsonld.
  - rewrite advance_call.
    destruct (injectJsonLd_normal faqs heading
                (set_shadowRoot (Some (content faqs heading)) w)) as (-> & _).
    done.
  - done.
Qed.

Lemma advance_examine_found result d w :
  shadowRoot w = Some d → has_faqs E result = Normal true →
  advance E (examine E api url lang heading jsonld result) w
  = (Over (Normal Return), displayed (get result "faqs") heading jsonld w, []).
Proof.
  intros Hd Hf. unfold examine.
  rewrite advance_bind, advance_settle_outcome, Hf. cbn [chain].
  by rewrite (advance_show _ d).
Qed.

Lemma advance_examine_terminal result d w :
  shadowRoot w = Some d →
  has_faqs E result = Normal false → should_retry result = Normal false →
  advance E (examine E api url lang heading jsonld result) w
  = (Over (Normal Return),
     set_shadowRoot (Some (ErrorBox "No FAQs available for this page")) w, []).
Proof.
  intros Hd Hf Hr. unfold examine.
  rewrite advance_bind, advance_settle_outcome, Hf. cbn [chain].
  rewrite advance_bind, advance_settle_outcome, Hr. cbn [chain negb].
  by rewrite advance_bind, advance_call, (renderError_attached _ d) by done.
Qed.

(** What the loop parks at the request of a pass does not depend on the
    element it is parked on. *)
Lemma advance_retry_loop unroll w :
  retryCount w < maxRetries →
  advance E (retry_loop E (S unroll) api url lang heading jsonld) w
  = (parked_at_request E unroll api url lang heading jsonld, w,
     [Fetch (page_faqs_request api url lang false)]).
Proof.
  intros Hc. unfold parked_at_request. cbn [retry_loop].
  rewrite !advance_bind. cbn [read advance chain].
  rewrite bool_decide_true by done. by rewrite bool_decide_true by (cbn; lia).
Qed.

(** What the parked loop does with a reply: it parks again to read the
    body, then goes on with the rest of the [try] block. *)
Lemma parked_at_request_reply unroll :
  ∃ K, parked_at_request E unroll api url lang heading jsonld
       = OnFetch (page_faqs_request api url lang false) K
    ∧ ∀ st result, ∃ K',
        (∀ w, advance E (K (replied st result)) w
              = (OnJson (Response true st (Normal result)) K', w, []))
        ∧ ∀ w, advance E (K' (Normal result)) w
               = chain E
                   (rescue E
                      (advance E (examine E api url lang heading jsonld result) w)
                      recover)
                   (λ c, match c with
                         | Return => mret tt
                         | Next => retry_loop E unroll api url lang heading jsonld
                         end).
Proof.
  unfold parked_at_request. cbn [retry_loop].
  rewrite advance_bind. cbn [read advance chain].
  rewrite bool_decide_true by (cbn; unfold maxRetries; lia).
  unfold attempt, fetchFaqs.
  rewrite advance_bind, advance_try_catch, advance_bind, advance_try_catch, advance_bind.
  cbn [await_fetch advance chain rescue fst].
  eexists. split; [reflexivity|].
  intros st result. eexists. split; intros w.
  - cbv beta.
    rewrite advance_bind, advance_try_catch, advance_bind, advance_try_catch, advance_bind.
    cbn [replied advance chain rescue ok negb await_json app]. reflexivity.
  - cbv beta.
    rewrite advance_bind, advance_try_catch, advance_bind, advance_try_catch,
      advance_settle_outcome.
    cbn [rescue chain].
    by destruct (advance E (examine E api url lang heading jsonld result) w) as [[t w'] ev].
Qed.

(** A reply delivered to a parked loop: first the response, then its
    body. *)
Lemma step_reply_to_parked unroll u π i st result w' :
  parked_methods π !! i = Some (parked_at_request E u api url lang heading jsonld) →
  (advance E (examine E api url lang heading jsonld result) (host π)).1
  = (Over (Normal Return), w') →
  ∃ π', steps E unroll [Settle i (replied st result); BodyRead i] π = Some π'
    ∧ host π' = w'.
Proof.
  intros Hp He.
  assert (i < length (parked_methods π)) as Hi by (by eapply lookup_lt_Some).
  destruct (parked_at_request_reply u) as (K & HK & Hreply).
  destruct (Hreply st result) as (K' & H1 & H2). rewrite HK in Hp.
  assert (step E unroll (Settle i (replied st result)) π
          = Some (Page (host π)
                    (<[i := OnJson (Response true st (Normal result)) K']> (parked_methods π))
                    (history π ++ []))) as Hstep1.
  { cbn [step]. rewrite Hp. unfold resume. by rewrite H1. }
  cbn [steps]. rewrite Hstep1.
  change (Some ?x ≫= ?f) with (f x). cbv beta.
  cbn [step parked_methods]. rewrite list_lookup_insert_eq by done.
  unfold resume. cbn [host parked_methods history body]. rewrite H2.
  destruct (advance E (examine E api url lang heading jsonld result) (host π))
    as [[t w1] ev]. cbn in He. injection He as -> ->.
  cbn. eexists. split; done.
Qed.

(** C9, as amended. A loop parked at its request by an earlier cycle is
    resumed by its reply whatever has happened to the element in between:
    no token of the cycle is checked.  Whatever the shadow tree shows when
    the reply arrives, a reply with an empty list and no in-progress
    signal replaces it by the error view, and a reply with a non-empty
    list replaces it by that list. *)
Theorem stale_reply_repaints unroll u π i st r d :
  parked_methods π !! i = Some (parked_at_request E u api url lang heading jsonld) →
  shadowRoot (host π) = Some d →
  structurally_valid r = true →
  (∀ w, retryCount w < maxRetries →
     advance E (retry_loop E (S u) api url lang heading jsonld) w
     = (parked_at_request E u api url lang heading jsonld, w,
        [Fetch (page_faqs_request api url lang false)]))
  ∧ (faq_list r = [] → in_progress r = false →
     ∃ π', steps E unroll [Settle i (replied st r); BodyRead i] π = Some π'
       ∧ shadowRoot (host π') = Some (ErrorBox "No FAQs available for this page"))
  ∧ (faq_list r ≠ [] →
     ∃ π', steps E unroll [Settle i (replied st r); BodyRead i] π = Some π'
       ∧ shadowRoot (host π') = Some (content (get r "faqs") heading)).
Proof.
  intros Hp Hd Hv. split_and!.
  - intros w. apply advance_retry_loop.
  - intros Hl Hn.
    destruct (step_reply_to_parked unroll u π i st r
                (set_shadowRoot (Some (ErrorBox "No FAQs available for this page")) (host π)))
      as (π' & Hs & Hh); [done| |].
    + rewrite (advance_examine_terminal _ d); [done|done| |].
      * rewrite valid_has_faqs by done.
        by rewrite bool_decide_false by (by rewrite Hl; intros ?).
      * by rewrite valid_should_retry, Hn.
    + exists π'. by rewrite Hh.
  - intros Hl.
    destruct (step_reply_to_parked unroll u π i st r
                (displayed (get r "faqs") heading jsonld (host π)))
      as (π' & Hs & Hh); [done| |].
    + rewrite (advance_examine_found _ d); [done|done|].
      rewrite valid_has_faqs by done. by rewrite bool_decide_true.
    + exists π'. rewrite Hh. split; [done|].
      by destruct (displayed_content heading jsonld (get r "faqs") (host π)) as [-> _].
Qed.

End Parked.

(** ** Re-rendering and the selection *)

Section Selection.
Context (E : engine).

(** C6 (what the code does). No rendering method assigns
    [currentOpenIndex]: [render], [renderLoading], [renderError] and
    [renderStatus] leave it as it was.  So the selection survives a
    re-render while the new tree has every item closed: after item 2 of
    three is opened and a change of [data-heading] re-enters the loading
    view and renders the list again, [currentOpenIndex] is still 2 and
    nothing shows as open; the next click on item 2 opens nothing; and if
    the new list has one item, a click on it throws and opens nothing. *)
Theorem render_keeps_currentOpenIndex :
  (∀ faqs heading w,
     currentOpenIndex (render faqs heading w).2 = currentOpenIndex w)
  ∧ (∀ heading w,
       currentOpenIndex (renderLoading heading w).2 = currentOpenIndex w)
  ∧ (∀ msg w,
       currentOpenIndex (renderError msg w).2 = currentOpenIndex w
       ∧ currentOpenIndex (renderStatus msg w).2 = currentOpenIndex w)
  ∧ selection <$>
      steps E 3 [Connect; Settle 0 (replied 200 three_faqs_reply); BodyRead 0; Click 2]
        (new_page remote_element)
    = Some (2%Z, [false; false; true])
  ∧ selection <$>
      steps E 3 [Connect; Settle 0 (replied 200 three_faqs_reply); BodyRead 0; Click 2;
                 SetAttribute "data-heading" "Help"]
        (new_page remote_element)
    = Some (2%Z, [])
  ∧ selection <$>
      steps E 3 [Connect; Settle 0 (replied 200 three_faqs_reply); BodyRead 0; Click 2;
                 SetAttribute "data-heading" "Help";
                 Settle 1 (replied 200 three_faqs_reply); BodyRead 1]
        (new_page remote_element)
    = Some (2%Z, [false; false; false])
  ∧ selection <$>
      steps E 3 [Connect; Settle 0 (replied 200 three_faqs_reply); BodyRead 0; Click 2;
                 SetAttribute "data-heading" "Help";
                 Settle 1 (replied 200 three_faqs_reply); BodyRead 1; Click 2]
        (new_page remote_element)
    = Some ((-1)%Z, [false; false; false])
  ∧ (λ π, ((toggleItem 0 (host π)).1,
            currentOpenIndex (toggleItem 0 (host π)).2,
            shows_open <$> items_of (toggleItem 0 (host π)).2)) <$>
      steps E 3 [Connect; Settle 0 (replied 200 three_faqs_reply); BodyRead 0; Click 2;
                 SetAttribute "data-heading" "Help";
                 Settle 1 (replied 200 one_faq_reply); BodyRead 1]
        (new_page remote_element)
    = Some (Thrown undefined_element, 2%Z, [false]).
Proof.
  split; [|split; [|split]].
  - intros faqs heading w. unfold render.
    by destruct (set_innerHTML_fields (content faqs heading) w) as [_ ->].
  - intros heading w. unfold renderLoading.
    by destruct (set_innerHTML_fields (Loading heading "Loading FAQs...") w) as [_ ->].
  - intros msg w. unfold renderError.
    destruct (set_innerHTML_fields (ErrorBox msg) w) as [_ ->].
    by destruct (renderStatus_fields msg w) as [_ ->].
  - split_and!; by vm_compute.
Qed.

End Selection.

(** ** A stale reply on a page *)

(** C9 (counterexample). The guard does not hold: the element is
    connected, [data-url] is changed while the first request is in flight,
    the new cycle receives one FAQ and renders it, and then the reply to
    the first request, empty and with no in-progress signal, replaces the
    rendered list by the error view. *)
Lemma stale_callbacks_not_guarded :
  ¬ stale_callbacks_guarded scenario_engine 3 (new_page remote_element).
Proof.
  intros H.
  set (π0 := new_page remote_element) in *.
  set (later := [Settle 1 (replied 200 one_faq_reply); BodyRead 1;
                 Settle 0 (replied 200 terminal_reply)]).
  set (π1 := default π0 (steps scenario_engine 3 [Connect] π0)).
  set (π2 := default π0 (steps scenario_engine 3
                           (SetAttribute "data-url" "https://example.org/b" :: later) π1)).
  set (π3 := default π0 (step scenario_engine 3 (BodyRead 0) π2)).
  assert (∀ o : option page,
            match o with Some _ => true | None => false end = true →
            o = Some (default π0 o)) as Hsome.
  { by intros [π|]. }
  specialize (H [Connect] "data-url" "https://example.org/b" later (BodyRead 0) 0 π1 π2 π3).
  assert (shadowRoot (host π3) = shadowRoot (host π2)) as Heq.
  { apply H.
    - apply Hsome. by vm_compute.
    - unfold observedAttributes. repeat constructor.
    - done.
    - by vm_compute.
    - apply Nat.ltb_lt. by vm_compute.
    - apply Hsome. by vm_compute.
    - right. by left.
    - apply Hsome. by vm_compute. }
  vm_compute in Heq. discriminate Heq.
Qed.

(** C9 as amended, on the page of the counterexample: the loop of the
    first cycle is still parked when the second cycle has rendered its
    list, and its reply repaints. *)
Lemma stale_reply_repaints_witness :
  let π := default (new_page remote_element)
             (steps scenario_engine 3
                [Connect; SetAttribute "data-url" "https://example.org/b";
                 Settle 1 (replied 200 one_faq_reply); BodyRead 1]
                (new_page remote_element)) in
  parked_methods π !! 0
  = Some (parked_at_request scenario_engine 2 "http://localhost:8000"
            "https://example.org/" None "Frequently Asked Questions" true)
  ∧ shadowRoot (host π)
    = Some (Accordion "Frequently Asked Questions" [FaqItemDom "Q" "A" false true])
  ∧ structurally_valid terminal_reply = true
  ∧ faq_list terminal_reply = []
  ∧ in_progress terminal_reply = false
  ∧ ∃ π', steps scenario_engine 3 [Settle 0 (replied 200 terminal_reply); BodyRead 0] π
          = Some π'
      ∧ shadowRoot (host π') = Some (ErrorBox "No FAQs available for this page").
Proof.
  intros π.
  assert (parked_methods π !! 0
          = Some (parked_at_request scenario_engine 2 "http://localhost:8000"
                    "https://example.org/" None "Frequently Asked Questions" true)) as Hp.
  { reflexivity. }
  assert (shadowRoot (host π)
          = Some (Accordion "Frequently Asked Questions" [FaqItemDom "Q" "A" false true]))
    as Hd by (by vm_compute).
  split_and!; [exact Hp|exact Hd|reflexivity|reflexivity|reflexivity|].
  exact (proj1 (proj2
    (stale_reply_repaints scenario_engine "http://localhost:8000" "https://example.org/"
       None "Frequently Asked Questions" true 3 2 π 0 200 terminal_reply _ Hp Hd eq_refl))
    eq_refl eq_refl).
Defined.

(** ** Styling configuration *)

Lemma foldl_config_lookup (config : value) (ms : list (string * string))
    (st : gmap string string) :
  NoDup ms.*2 →
  let s := foldl (λ st m,
                    match get config (fst m) with
                    | JStr v => if String.eqb (trim v) "" then st else <[snd m := v]> st
                    | _ => st
                    end) st ms in
  (∀ key var, (key, var) ∈ ms →
     s !! var = match get config key with
                | JStr v => if String.eqb (trim v) "" then st !! var else Some v
                | _ => st !! var
                end)
  ∧ (∀ var, var ∉ ms.*2 → s !! var = st !! var).
Proof.
  revert st. induction ms as [|[k c] ms IH]; intros st Hnd; cbn.
  { split; [by intros ?? ?%elem_of_nil|done]. }
  apply NoDup_cons in Hnd as [Hc Hnd].
  set (st1 := match get config k with
              | JStr v => if String.eqb (trim v) "" then st else <[c := v]> st
              | _ => st
              end).
  destruct (IH st1 Hnd) as [Hin Hout]. cbn in Hin, Hout.
  assert (∀ var, var ≠ c → st1 !! var = st !! var) as Hother.
  { intros var Hne. unfold st1. destruct (get config k); try done.
    destruct (String.eqb _ _); [done|]. by rewrite lookup_insert_ne. }
  split.
  - intros key var [Heq|Hel]%elem_of_cons.
    + injection Heq as -> ->. rewrite Hout by done. unfold st1.
      destruct (get config k); try done.
      destruct (String.eqb _ _); [done|]. by rewrite lookup_insert_eq.
    + rewrite (Hin _ _ Hel).
      assert (var ≠ c) as Hne.
      { intros ->. apply Hc. apply list_elem_of_fmap. by exists (key, c). }
      rewrite (Hother _ Hne). done.
  - intros var [Hne Hnot]%not_elem_of_cons. by rewrite Hout, Hother.
Qed.

(** [applyConfig] touches no property of the style outside the mapping. *)
Lemma applyConfig_other_properties (config : value) (w : widget) :
  ∃ s,
    applyConfig config w = (Normal tt, set_style s w)
    ∧ ∀ var, var ∉ mappings.*2 → s !! var = style w !! var.
Proof.
  unfold applyConfig.
  destruct (negb (truthy config) || negb (typeof_object config)).
  - exists (style w). split; [by destruct w|done].
  - eexists. split; [done|].
    apply (foldl_config_lookup config mappings (style w)).
    apply (bool_decide_unpack _). by vm_compute.
Qed.


Section Configuration.
Context (E : engine).

(** X2. [parseConfig] always completes, with an object that is not
    [null], and leaves the element alone: the empty string is not parsed; a
    text that [JSON.parse] rejects is reported on the console and counts as
    [{}]; so does a text that parses to [null] or to something that is not
    an object. *)
Theorem parseConfig_yields_object (configStr : string) net w :
  ∃ config t,
    run E (parseConfig configStr) net w = RunResult (Completed config) w t net
    ∧ truthy config = true ∧ typeof_object config = true
    ∧ (config = JObj [] ∨ JSON_parse E configStr = Some config)
    ∧ (configStr = "" → t = [])
    ∧ (configStr ≠ "" → JSON_parse E configStr = None →
       config = JObj []
       ∧ t = [JsonParse ConfigAttribute configStr;
              ConsoleWarn "FAQ Widget: Invalid data-config JSON, ignoring"])
    ∧ Forall (λ e, is_inline_parse e = false ∧ is_fetch e = false) t.
Proof.
  unfold parseConfig. destruct (String.eqb configStr "") eqn:Hempty.
  - exists (JObj []), []. split_and!; try done. by left.
    apply String.eqb_eq in Hempty. by intros ?.
  - apply String.eqb_neq in Hempty. cbn.
    destruct (JSON_parse E configStr) as [v|] eqn:Hparse; cbn.
    + destruct (truthy v && typeof_object v) eqn:Hobj.
      * apply andb_true_iff in Hobj as [Ht Ho].
        eexists _, _. split_and!; try done. by right. by repeat constructor.
      * eexists _, _. split_and!; try done. by left. by repeat constructor.
    + eexists _, _. split_and!; try done. by left. by repeat constructor.
Qed.

(** X3. A change of [data-config] only restyles: the callback completes
    without a request and without reading the inline data, and of the
    element it changes nothing but CSS variables of the mapping - the view,
    the selection, the attempt counter and the structured data stay as
    they are, whether the element is connected or not.  A change of any
    other attribute does nothing at all before the element has a shadow
    root, and afterwards starts the initialisation anew. *)
Theorem attributeChangedCallback_cases unroll (name : string)
    (oldValue newValue : option string) net w :
  (name = "data-config" →
   ∃ s t,
     run E (attributeChangedCallback E unroll name oldValue newValue) net w
     = RunResult (Completed tt) (set_style s w) t net
     ∧ Forall (λ e, is_inline_parse e = false ∧ is_fetch e = false) t
     ∧ ∀ var, var ∉ mappings.*2 → s !! var = style w !! var)
  ∧ (name ≠ "data-config" → shadowRoot w = None →
     run E (attributeChangedCallback E unroll name oldValue newValue) net w
     = RunResult (Completed tt) w [] net)
  ∧ (name ≠ "data-config" → shadowRoot w ≠ None →
     run E (attributeChangedCallback E unroll name oldValue newValue) net w
     = run E (initializeWidget E unroll) net w).
Proof.
  unfold attributeChangedCallback. split_and!.
  - intros ->. cbn [String.eqb Ascii.eqb Bool.eqb].
    rewrite run_bind.
    destruct (run_parseConfig E (or_default newValue "") net w)
      as (config & t & -> & Ht).
    cbn [continue before ended element trace unread].
    rewrite run_call.
    destruct (applyConfig_other_properties config w) as (s & -> & Hs).
    exists s, t. unfold before. cbn [ended element trace unread].
    by rewrite app_nil_r.
  - intros Hn Hs. apply String.eqb_neq in Hn. rewrite Hn, run_bind.
    cbn [read run continue before ended element trace unread].
    by rewrite before_nil, bool_decide_true.
  - intros Hn Hs. apply String.eqb_neq in Hn. rewrite Hn, run_bind.
    cbn [read run continue before ended element trace unread].
    by rewrite before_nil, bool_decide_false.
Qed.

End Configuration.


(** ** Inline data *)

Section InlineData.
Context (E : engine).

Lemma run_getInlineJson_array text data net w :
  inline_script w = Some text → String.length text ≤ maxInlineSize →
  JSON_parse E text = Some (JArr data) →
  run E getInlineJson net w
  = RunResult (Completed (JArr (take maxInlineItems data))) w
      (JsonParse InlineData text
       :: if bool_decide (maxInlineItems < length data)
          then [ConsoleWarn "FAQ Widget: Too many inline items, truncating"]
          else [])
      net.
Proof.
  intros Hs Hl Hp. unfold getInlineJson. rewrite run_bind.
  cbn [read run continue before ended element trace unread app].
  rewrite Hs, bool_decide_false by lia.
  cbn [run]. rewrite Hp. case_bool_decide as Hlen; cbn [run mbind prog_mbind prog_bind console_warn mret prog_ret after trace ended element unread]; [done|].
  by rewrite take_ge by lia.
Qed.

Lemma run_getInlineJson_null net w :
  inline_script w = None
  ∨ (∃ text, inline_script w = Some text ∧ String.length text ≤ maxInlineSize
             ∧ ∀ data, JSON_parse E text ≠ Some (JArr data)) →
  ∃ t,
    run E getInlineJson net w = RunResult (Completed JNull) w t net
    ∧ Forall (λ e, is_fetch e = false) t.
Proof.
  intros Hw. unfold getInlineJson. rewrite run_bind.
  cbn [read run continue before ended element trace unread app].
  destruct Hw as [->|(text & -> & Hl & Hp)].
  { exists []. by split. }
  rewrite bool_decide_false by lia. cbn [run].
  destruct (JSON_parse E text) as [[| |b|n|s|items|props]|];
    try (eexists; split; [reflexivity|by repeat constructor]).
  by destruct (Hp items).
Qed.

(** X4. [getInlineJson] always completes and leaves the element and the
    network alone.  It yields [null] or an array of at most
    [maxInlineItems] (100) entries: for a text within the size limit that
    parses to an array, the first 100 entries of that array, with a
    warning on the console when entries were cut off; [null] when the
    element has no inline script, and when the text does not parse or
    parses to something that is not an array. *)
Theorem getInlineJson_result net w :
  ∃ data t,
    run E getInlineJson net w = RunResult (Completed data) w t net
    ∧ (data = JNull ∨ ∃ l, data = JArr l ∧ length l ≤ maxInlineItems)
    ∧ (inline_script w = None → data = JNull ∧ t = [])
    ∧ (∀ text l,
         inline_script w = Some text → String.length text ≤ maxInlineSize →
         JSON_parse E text = Some (JArr l) →
         data = JArr (take maxInlineItems l)
         ∧ (ConsoleWarn "FAQ Widget: Too many inline items, truncating" ∈ t
            ↔ maxInlineItems < length l))
    ∧ (∀ text,
         inline_script w = Some text → String.length text ≤ maxInlineSize →
         (∀ l, JSON_parse E text ≠ Some (JArr l)) →
         data = JNull
         ∧ (ConsoleWarn "FAQ Widget: Invalid inline JSON, falling back to API" ∈ t
            ↔ JSON_parse E text = None)).
Proof.
  destruct (inline_script w) as [text|] eqn:Hs.
  2:{ exists JNull, []. split_and!; try done; [|by left].
      unfold getInlineJson. rewrite run_bind.
      cbn [read run continue before ended element trace unread app]. by rewrite Hs. }
  destruct (decide (maxInlineSize < String.length text)) as [Hl|Hl].
  { eexists _, _. split; [by apply (run_getInlineJson_oversized E text)|].
    split_and!; [by left|done| |]; intros; simplify_eq; lia. }
  destruct (JSON_parse E text) as [v|] eqn:Hp.
  - assert ((∃ l, v = JArr l) ∨ (∀ l, v ≠ JArr l)) as [[l ->]|Hv].
    { destruct v as [| |b|n|s|items|props]; try (by right). left. by eexists. }
    + eexists _, _. split; [apply (run_getInlineJson_array text l); [done|lia|done]|].
      split_and!; [|done| |].
      * right. eexists. split; [done|]. rewrite length_take. lia.
      * intros ? l' [= <-] _ Hp'. rewrite Hp in Hp'. injection Hp' as <-.
        split; [done|].
        case_bool_decide as Hlen.
        -- split; [by intros _|].
           intros _. apply list_elem_of_further, list_elem_of_here.
        -- split; [|done]. intros [?|?%elem_of_nil]%elem_of_cons; done.
      * intros ? [= <-] _ Hno. by destruct (Hno l).
    + unfold getInlineJson. rewrite run_bind.
      cbn [read run continue before ended element trace unread app].
      rewrite Hs, bool_decide_false by lia. cbn [run]. rewrite Hp.
      exists JNull, [JsonParse InlineData text].
      split; [by destruct v as [| |b|n|s|items|props]; try done; destruct (Hv items)|].
      split_and!; [by left|done| |].
      * intros ? l [= <-] _ Hp'. rewrite Hp in Hp'. injection Hp' as ->.
        by destruct (Hv l).
      * intros ? [= <-] _ _. split; [done|]. rewrite Hp.
        split; [|done]. intros [?|?%elem_of_nil]%elem_of_cons; done.
  - unfold getInlineJson. rewrite run_bind.
    cbn [read run continue before ended element trace unread app].
    rewrite Hs, bool_decide_false by lia. cbn [run]. rewrite Hp.
    eexists _, _. split; [reflexivity|].
    split_and!; [by left|done| |].
    { intros ? l [= <-] _ Hp'. by rewrite Hp in Hp'. }
    intros ? [= <-] _ _. split; [done|]. rewrite Hp. split; [done|].
    intros _. apply list_elem_of_further, list_elem_of_here.
Qed.

End InlineData.

(** ** Where the FAQs come from *)

Section Sources.
Context (E : engine).

(** The initialisation up to the inline data: the configuration is parsed
    and applied and the shadow root attached, without a request and
    without a look at the inline data. *)
Lemma run_initializeWidget_prepare {A} (K : widget → value → prog A) net w :
  ∃ t w',
    Forall (λ e, is_inline_parse e = false ∧ is_fetch e = false) t
    ∧ (∃ d, shadowRoot w' = Some d)
    ∧ inline_script w' = inline_script w
    ∧ ld_scripts w' = ld_scripts w
    ∧ retryCount w' = retryCount w
    ∧ currentOpenIndex w' = currentOpenIndex w
    ∧ attributes w' = attributes w
    ∧ run E (w0 ← read;
             config ← parseConfig (or_default (getAttribute "data-config" w0) "");
             (if bool_decide (shadowRoot w0 = None) then call attachShadow else mret tt);;
             call (applyConfig config);;
             inlineJson ← getInlineJson;
             K w0 inlineJson) net w
      = before t (continue E (run E getInlineJson net w') (K w)).
Proof.
  rewrite run_bind.
  cbn [read run continue before ended ending_of element trace unread app].
  rewrite before_nil, run_bind.
  destruct (run_parseConfig E (or_default (getAttribute "data-config" w) "") net w)
    as (config & t & -> & Ht).
  cbn [continue before ended ending_of element trace unread].
  rewrite run_bind.
  set (w1 := if bool_decide (shadowRoot w = None) then set_shadowRoot (Some Blank) w else w).
  assert (run E (if bool_decide (shadowRoot w = None) then call attachShadow else mret ()) net w
          = RunResult (Completed tt) w1 [] net) as ->.
  { unfold w1. by case_bool_decide. }
  assert (∃ d, shadowRoot w1 = Some d) as [d Hd].
  { unfold w1. case_bool_decide as Hn; [by eexists|].
    destruct (shadowRoot w); [by eexists|done]. }
  assert (inline_script w1 = inline_script w ∧ ld_scripts w1 = ld_scripts w
          ∧ retryCount w1 = retryCount w ∧ currentOpenIndex w1 = currentOpenIndex w
          ∧ attributes w1 = attributes w) as (Hi & Hld & Hrc & Hco & Hat).
  { unfold w1. by case_bool_decide. }
  cbn [continue before ended ending_of element trace unread app].
  rewrite run_bind, run_call.
  destruct (applyConfig_normal config w1) as [s ->].
  cbn [continue before ended ending_of element trace unread app fst snd].
  rewrite run_bind, !before_before, !app_nil_r.
  exists t, (set_style s w1). split_and!; try done. by exists d.
Qed.

Lemma injectJsonLd_ld_scripts faqs heading w :
  injectJsonLd faqs heading w
  = (Normal tt,
     set_ld_scripts
       (if bool_decide (length (validateAndLimitFaqs faqs) = 0) then ld_scripts w
        else drop 1 (ld_scripts w) ++ [JsonLd heading (validateAndLimitFaqs faqs)]) w).
Proof. unfold injectJsonLd. case_bool_decide; [by destruct w|done]. Qed.

(** X5. Inline data takes precedence over the API.  When the inline
    script (within the size limit) parses to an array - an empty one
    included - the initialisation completes without a single request,
    whatever [data-url] says, and leaves the rest of the network script
    unread.  The view is the rendering of the first 100 entries of that
    array under the heading; the structured data is replaced by that of
    the same entries unless [data-jsonld] is [off] or no entry is valid. *)
Theorem inline_data_takes_precedence unroll text data net w :
  inline_script w = Some text → String.length text ≤ maxInlineSize →
  JSON_parse E text = Some (JArr data) →
  let heading := or_default (getAttribute "data-heading" w) "Frequently Asked Questions" in
  let shown := JArr (take maxInlineItems data) in
  let r := run E (initializeWidget E unroll) net w in
  ended r = Completed tt
  ∧ unread r = net
  ∧ Forall (λ e, is_fetch e = false) (trace r)
  ∧ shadowRoot (element r) = Some (content shown heading)
  ∧ ld_scripts (element r)
    = (if bool_decide (getAttribute "data-jsonld" w = Some "off")
          || bool_decide (length (validateAndLimitFaqs shown) = 0)
       then ld_scripts w
       else drop 1 (ld_scripts w) ++ [JsonLd heading (validateAndLimitFaqs shown)])
  ∧ retryCount (element r) = retryCount w.
Proof.
  intros Hs Hl Hp heading shown r. unfold r, initializeWidget. cbv zeta.
  edestruct (run_initializeWidget_prepare (A:=unit))
    as (t & w' & Ht & [d Hd] & Hi & Hld & Hrc & Hco & Hat & Hrun).
  rewrite Hrun. clear Hrun.
  rewrite (run_getInlineJson_array E text data) by (by rewrite ?Hi).
  cbn [continue before ended element trace unread truthy].
  rewrite run_bind, run_call, (render_attached _ _ d) by done.
  cbn [continue before ended element trace unread fst snd].
  fold shown heading.
  assert (Forall (λ e, is_fetch e = false)
            (t ++ (JsonParse InlineData text
                   :: (if bool_decide (maxInlineItems < length data)
                       then [ConsoleWarn "FAQ Widget: Too many inline items, truncating"]
                       else [])) ++ [] ++ [])) as Htrace.
  { apply Forall_app. split; [eapply Forall_impl; [exact Ht|by intros e []]|].
    case_bool_decide; by repeat constructor. }
  destruct (bool_decide (getAttribute "data-jsonld" w = Some "off"));
    cbn [negb orb continue ending_of ended element trace unread].
  - cbn [run mret prog_ret before ended element trace unread shadowRoot ld_scripts
         retryCount set_shadowRoot].
    split_and!; done.
  - rewrite run_call, injectJsonLd_ld_scripts.
    cbn [before ending_of ended element trace unread shadowRoot ld_scripts retryCount
         set_shadowRoot set_ld_scripts fst snd].
    split_and!; try done. by rewrite Hld.
Qed.

Lemma run_initializeWidget_fallback unroll net w :
  inline_script w = None
  ∨ (∃ text, inline_script w = Some text ∧ String.length text ≤ maxInlineSize
             ∧ ∀ data, JSON_parse E text ≠ Some (JArr data)) →
  ∃ t w',
    Forall (λ e, is_fetch e = false) t
    ∧ (∃ d, shadowRoot w' = Some d)
    ∧ ld_scripts w' = ld_scripts w
    ∧ run E (initializeWidget E unroll) net w
      = before t
          (if String.eqb (or_default (getAttribute "data-url" w) "") ""
           then run E (call (renderError "No URL provided and no inline FAQs found")) net w'
           else run E
                  (call (renderLoading
                           (or_default (getAttribute "data-heading" w)
                              "Frequently Asked Questions"));;
                   loadFaqsWithRetry E unroll
                     (or_default (getAttribute "data-api" w) "http://localhost:8000")
                     (or_default (getAttribute "data-url" w) "")
                     (getAttribute "data-lang" w)
                     (or_default (getAttribute "data-heading" w)
                        "Frequently Asked Questions")
                     (negb (bool_decide (getAttribute "data-jsonld" w = Some "off"))))
                  net w').
Proof.
  intros Hw. unfold initializeWidget. cbv zeta.
  edestruct (run_initializeWidget_prepare (A:=unit))
    as (t & w' & Ht & Hd & Hi & Hld & Hrc & Hco & Hat & Hrun).
  rewrite Hrun. clear Hrun.
  destruct (run_getInlineJson_null E net w') as (t0 & -> & Ht0); [by rewrite Hi|].
  cbn [continue before ended element trace unread truthy].
  rewrite before_before.
  exists (t ++ t0), w'. split_and!; try done.
  - apply Forall_app. split; [eapply Forall_impl; [exact Ht|by intros e []]|done].
  - by destruct (String.eqb _ _).
Qed.

(** X6. Without usable inline data - no inline script, or a text within
    the size limit that does not parse or parses to something that is not
    an array - the initialisation turns to [data-url].  If that attribute
    is missing or empty, no request is made and the error view says "No
    URL provided and no inline FAQs found".  Otherwise the loading view is
    shown under the heading and the retry loop starts, with the endpoint
    taken from [data-api] (default [http://localhost:8000]) and the
    structured data enabled unless [data-jsonld] is [off]. *)
Theorem unusable_inline_data_falls_back unroll net w :
  inline_script w = None
  ∨ (∃ text, inline_script w = Some text ∧ String.length text ≤ maxInlineSize
             ∧ ∀ data, JSON_parse E text ≠ Some (JArr data)) →
  let heading := or_default (getAttribute "data-heading" w) "Frequently Asked Questions" in
  let url := or_default (getAttribute "data-url" w) "" in
  let r := run E (initializeWidget E unroll) net w in
  (url = "" →
   ended r = Completed tt ∧ unread r = net
   ∧ shadowRoot (element r) = Some (ErrorBox "No URL provided and no inline FAQs found")
   ∧ Forall (λ e, is_fetch e = false) (trace r)
   ∧ ld_scripts (element r) = ld_scripts w)
  ∧ (url ≠ "" →
     ∃ t w',
       Forall (λ e, is_fetch e = false) t
       ∧ shadowRoot w' = Some (Loading heading "Loading FAQs...")
       ∧ ld_scripts w' = ld_scripts w
       ∧ r = before t
               (run E
                  (loadFaqsWithRetry E unroll
                     (or_default (getAttribute "data-api" w) "http://localhost:8000")
                     url (getAttribute "data-lang" w) heading
                     (negb (bool_decide (getAttribute "data-jsonld" w = Some "off"))))
                  net w')).
Proof.
  intros Hw heading url r. unfold r.
  destruct (run_initializeWidget_fallback unroll net w Hw)
    as (t & w' & Ht & [d Hd] & Hld & ->).
  fold url heading. destruct (String.eqb url "") eqn:Hurl.
  - apply String.eqb_eq in Hurl.
    rewrite run_call, (renderError_attached _ d) by done.
    split; [|done]. intros _. cbn. rewrite app_nil_r. done.
  - apply String.eqb_neq in Hurl. split; [done|]. intros _.
    rewrite run_bind, run_call, (renderLoading_attached _ d) by done.
    cbn [continue ending_of ended element trace unread fst snd]. rewrite before_nil.
    exists t, (set_shadowRoot (Some (Loading heading "Loading FAQs...")) w').
    split_and!; done.
Qed.

End Sources.

(** X5 on an element with a target URL whose inline script holds an empty
    array: the notice "No FAQs available" is shown and nothing is
    requested. *)
Lemma inline_data_takes_precedence_witness :
  let w := constructor {[ "data-url" := "https://example.org/" ]} (Some "[]") [] in
  let r := run scenario_engine (initializeWidget scenario_engine 3) [] w in
  inline_script w = Some "[]"
  ∧ getAttribute "data-url" w = Some "https://example.org/"
  ∧ ended r = Completed tt
  ∧ Forall (λ e, is_fetch e = false) (trace r)
  ∧ shadowRoot (element r) = Some (Notice "Frequently Asked Questions" "No FAQs available").
Proof.
  intros w r.
  destruct (inline_data_takes_precedence scenario_engine 3 "[]" [] [] w eq_refl)
    as (He & _ & Hf & Hs & _); [apply Nat.leb_le; by vm_compute|reflexivity|].
  split_and!; [reflexivity|reflexivity|exact He|exact Hf|exact Hs].
Defined.

(** X6 on an element with nothing but a target URL: the loading view, and
    the first request waits for its reply. *)
Lemma unusable_inline_data_falls_back_witness :
  let r := run scenario_engine (initializeWidget scenario_engine 3) [] remote_element in
  inline_script remote_element = None
  ∧ ended r = AwaitingResponse
  ∧ ∃ t w',
      shadowRoot w' = Some (Loading "Frequently Asked Questions" "Loading FAQs...")
      ∧ r = before t
              (run scenario_engine
                 (loadFaqsWithRetry scenario_engine 3 "http://localhost:8000"
                    "https://example.org/" None "Frequently Asked Questions" true)
                 [] w').
Proof.
  intros r. split; [reflexivity|]. split; [by vm_compute|].
  destruct (proj2 (unusable_inline_data_falls_back scenario_engine 3 [] remote_element
                     (or_introl eq_refl)))
    as (t & w' & _ & Hs & _ & Hr); [done|].
  by exists t, w'.
Defined.

(** ** Requests and replies *)

Section Requests.
Context (E : engine).

(** X7. [fetchFaqs] sends exactly one request - to [api/page-faqs], with
    the page URL, the language when one is given, [force_refresh] only for
    a forced refresh, and a signal that aborts it after 8000 ms - and
    leaves the element alone.  A rejected [fetch] is rethrown as it is,
    except the abort, which becomes the error "Request timeout"; a
    response that is not [ok] becomes the error "HTTP " followed by the
    status, whatever its body; otherwise the result is the parsed body. *)
Theorem fetchFaqs_outcome api url lang forceRefresh w :
  let req := page_faqs_request api url lang forceRefresh in
  forced req = forceRefresh
  ∧ endpoint req = api +:+ "/page-faqs"
  ∧ abort_after req = 8000%Z
  ∧ ("url", url) ∈ params req
  ∧ (∀ l, ("target_language", l) ∈ params req ↔ lang = Some l ∧ l ≠ "")
  ∧ run E (fetchFaqs api url lang forceRefresh) [] w
    = RunResult AwaitingResponse w [Fetch req] []
  ∧ ∀ s net,
      run E (fetchFaqs api url lang forceRefresh) (s :: net) w
      = RunResult
          match s with
          | Rejected e =>
              Uncaught (if String.eqb (name e) "AbortError"
                        then Error "Request timeout" else e)
          | Fulfilled (Response false st _) => Uncaught (Error ("HTTP " +:+ decimal st))
          | Fulfilled (Response true _ (Normal v)) => Completed v
          | Fulfilled (Response true _ (Thrown e)) =>
              Uncaught (if String.eqb (name e) "AbortError"
                        then Error "Request timeout" else e)
          end
          w [Fetch req] net.
Proof.
  intros req. split_and!.
  - unfold req, forced, page_faqs_request. cbn [params].
    destruct lang as [l|]; [destruct (String.eqb l "")|]; by destruct forceRefresh.
  - done.
  - done.
  - unfold req, page_faqs_request. cbn [params app]. apply list_elem_of_here.
  - intros l. unfold req, page_faqs_request. cbn [params app].
    rewrite elem_of_cons, elem_of_app.
    split.
    + intros [[=]|[Hl|Hf]].
      * destruct lang as [l'|]; [|by apply elem_of_nil in Hl].
        destruct (String.eqb l' "") eqn:He; [by apply elem_of_nil in Hl|].
        apply String.eqb_neq in He.
        apply list_elem_of_singleton in Hl. by injection Hl as ->.
      * destruct forceRefresh; [|by apply elem_of_nil in Hf].
        by apply list_elem_of_singleton in Hf.
    + intros [-> Hl]. apply String.eqb_neq in Hl. rewrite Hl.
      right. left. apply list_elem_of_here.
  - by rewrite run_fetchFaqs.
  - intros s net. rewrite run_fetchFaqs. unfold after. cbn [ended element trace unread].
    f_equal. destruct s as [[[] st [v|e]]|e]; done.
Qed.

Context (api url : string) (lang : option string) (heading : string) (jsonld : bool).

(** A pass whose request is answered with a parsed body. *)
Lemma run_pass_replied unroll st r net w :
  retryCount w < maxRetries →
  run E (retry_loop E (S unroll) api url lang heading jsonld) (replied st r :: net) w
  = before [Fetch (page_faqs_request api url lang false)]
      (continue E
         (handle E (run E (examine E api url lang heading jsonld r) net w) recover)
         (λ c, match c with
               | Return => mret tt
               | Next => retry_loop E unroll api url lang heading jsonld
               end)).
Proof.
  intros Hc.
  rewrite run_retry_loop_pass, run_attempt by done.
  rewrite fetched_replied, handle_after, continue_after.
  by destruct (continue _ _ _).
Qed.

(** X8. A reply that is not an object - [null], a boolean, a number, a
    string, or a bare array, even one of well-formed FAQs - ends the
    resolution like an empty reply without signals: the error view shows
    "No FAQs available for this page", nothing is retried or refreshed, and
    the attempt counter and the rest of the network script are left as
    they were. *)
Theorem non_object_reply_is_terminal unroll st result d net w :
  retryCount w < maxRetries → shadowRoot w = Some d →
  (∀ props, result ≠ JObj props) →
  run E (retry_loop E (S unroll) api url lang heading jsonld)
    (replied st result :: net) w
  = RunResult (Completed tt)
      (set_shadowRoot (Some (ErrorBox "No FAQs available for this page")) w)
      [Fetch (page_faqs_request api url lang false)] net.
Proof.
  intros Hc Hd Hr.
  rewrite run_pass_replied by done.
  rewrite (run_examine_terminal _ _ _ _ _ _ _ d); [done|done| |].
  - unfold has_faqs. destruct result as [| |b|n|s|items|props]; try done;
      try (by rewrite andb_false_r). by destruct (Hr props).
  - unfold should_retry.
    destruct result as [| |b|n|s|items|props]; cbn; try done;
      try (by destruct b); try (by destruct (negb _)).
    by destruct (Hr props).
Qed.

(** X9. A reply whose list is a non-empty array without a single valid
    entry ends the resolution too, whatever in-progress signals it carries:
    the content view shows the notice "No FAQs available" under the
    heading (not the error view), nothing is retried, and the structured
    data is not touched. *)
Theorem unusable_list_ends_cycle unroll st r l d net w :
  retryCount w < maxRetries → shadowRoot w = Some d →
  get r "faqs" = JArr l → l ≠ [] → validateAndLimitFaqs (JArr l) = [] →
  run E (retry_loop E (S unroll) api url lang heading jsonld) (replied st r :: net) w
  = RunResult (Completed tt)
      (set_shadowRoot (Some (Notice heading "No FAQs available")) w)
      [Fetch (page_faqs_request api url lang false)] net.
Proof.
  intros Hc Hd Hf Hl Hv.
  rewrite run_pass_replied by done.
  rewrite (run_examine_found _ _ _ _ _ _ _ d); [|done|].
  - cbn. rewrite Hf. unfold displayed, content. rewrite injectJsonLd_ld_scripts, Hv.
    cbn. repeat f_equal. by destruct jsonld.
  - unfold has_faqs. rewrite Hf.
    destruct r as [| |b|n|s|items|props]; try done. cbn.
    rewrite bool_decide_true; [done|]. destruct l; [done|cbn; lia].
Qed.

(** X10. A reply without FAQs whose [message] is neither a string nor an
    array (a number, [true], an object) and which carries no other signal
    makes the attempt fail: [message.includes] is not a function, the
    TypeError lands in the [catch] block, and from there on the loop goes
    exactly as if the request had been rejected with that error. *)
Theorem malformed_message_is_a_failure unroll st r net w :
  retryCount w < maxRetries →
  get r "faqs" = JArr [] ∨ truthy (get r "faqs") = false →
  truthy (get r "faq_file") = false → truthy (get r "just_crawled") = false →
  truthy (get r "faq_generated") = false →
  truthy (get r "message") = true →
  typeof_string (get r "message") = false → Array_isArray (get r "message") = false →
  run E (retry_loop E (S unroll) api url lang heading jsonld) (replied st r :: net) w
  = run E (retry_loop E (S unroll) api url lang heading jsonld)
      (Rejected includes_not_a_function :: net) w.
Proof.
  intros Hc Hf H1 H2 H3 Hm Hs Ha.
  rewrite !run_retry_loop_pass, !run_pass_tail by done. f_equal.
  rewrite fetched_replied. cbn [fetched relabelled includes_not_a_function name TypeError].
  cbn [String.eqb Ascii.eqb Bool.eqb].
  rewrite run_try_catch. unfold examine.
  assert (has_faqs E r = Normal false) as ->.
  { unfold has_faqs. destruct Hf as [->| ->]; [|by rewrite andb_false_r].
    by destruct (truthy r). }
  assert (should_retry r = Thrown includes_not_a_function) as Hsr.
  { unfold should_retry. rewrite H1, H2, H3, Hm.
    destruct r as [| |b|n|s|items|props]; try done. cbn [truthy negb orb].
    by destruct (get _ "message"). }
  rewrite run_bind, run_settle_outcome.
  cbn [continue before ended ending_of element trace unread fst snd app].
  rewrite run_bind, run_settle_outcome, Hsr.
  cbn [continue before ended ending_of element trace unread fst snd app handle].
  by rewrite before_nil.
Qed.

End Requests.

(** ** What a resolution cycle costs *)

Section Budgets.
Context (E : engine).

Lemma fetches_app t t' : fetches (t ++ t') = fetches t + fetches t'.
Proof. unfold fetches. by rewrite filter_app, length_app. Qed.

Lemma timers_app t t' : timers (t ++ t') = timers t + timers t'.
Proof. unfold timers. by rewrite filter_app, length_app. Qed.

Lemma fetches_none t : Forall (λ e, is_fetch e = false) t → fetches t = 0.
Proof.
  unfold fetches. induction 1 as [|e t He _ IH]; [done|].
  rewrite filter_cons_False; [exact IH|]. rewrite He. by intros [].
Qed.

Lemma timers_none t : Forall (λ e, is_timeout e = false) t → timers t = 0.
Proof.
  unfold timers. induction 1 as [|e t He _ IH]; [done|].
  rewrite filter_cons_False; [exact IH|]. rewrite He. by intros [].
Qed.

Lemma requests_once_keeps {A} (p : prog A) :
  keeps E (λ e, is_fetch e = false) p → requests_once E p.
Proof.
  intros Hp net w. destruct (Hp net w) as (Ht & _). rewrite (fetches_none _ Ht). lia.
Qed.

Lemma requests_once_bind_l {A B} (p : prog A) (f : A → prog B) :
  requests_once E p → (∀ a, keeps E (λ e, is_fetch e = false) (f a)) →
  requests_once E (p ≫= f).
Proof.
  intros Hp Hf net w. rewrite run_bind. specialize (Hp net w). revert Hp.
  destruct (run E p net w) as [[a|e| |] w1 t1 net1];
    cbn [continue handle before ended element trace unread]; intros Hp; try done.
  destruct (Hf a net1 w1) as (Ht & _).
  rewrite fetches_app, (fetches_none _ Ht). lia.
Qed.

Lemma requests_once_bind_r {A B} (p : prog A) (f : A → prog B) :
  keeps E (λ e, is_fetch e = false) p → (∀ a, requests_once E (f a)) →
  requests_once E (p ≫= f).
Proof.
  intros Hp Hf net w. rewrite run_bind. destruct (Hp net w) as (Ht & _). revert Ht.
  destruct (run E p net w) as [[a|e| |] w1 t1 net1];
    cbn [continue handle before ended element trace unread]; intros Ht;
    try (rewrite (fetches_none _ Ht); lia).
  specialize (Hf a net1 w1).
  rewrite fetches_app, (fetches_none _ Ht). lia.
Qed.

Lemma requests_once_try_catch {A} (p : prog A) (h : js_error → prog A) :
  requests_once E p → (∀ e, keeps E (λ e, is_fetch e = false) (h e)) →
  requests_once E (try_catch p h).
Proof.
  intros Hp Hh net w. rewrite run_try_catch. specialize (Hp net w). revert Hp.
  destruct (run E p net w) as [[a|e| |] w1 t1 net1];
    cbn [continue handle before ended element trace unread]; intros Hp; try done.
  destruct (Hh e net1 w1) as (Ht & _).
  rewrite fetches_app, (fetches_none _ Ht). lia.
Qed.

Lemma timed_keeps {A} (p : prog A) :
  keeps E (λ e, is_timeout e = false) p → timed E p.
Proof.
  intros Hp net w. destruct (Hp net w) as (Ht & Hc & _).
  rewrite (timers_none _ Ht). lia.
Qed.

Lemma timed_bind {A B} (p : prog A) (f : A → prog B) :
  timed E p → (∀ a, timed E (f a)) → timed E (p ≫= f).
Proof.
  intros Hp Hf net w. rewrite run_bind. specialize (Hp net w). revert Hp.
  destruct (run E p net w) as [[a|e| |] w1 t1 net1];
    cbn [continue handle before ended element trace unread]; intros Hp; try done.
  specialize (Hf a net1 w1). rewrite timers_app. lia.
Qed.

Lemma timed_try_catch {A} (p : prog A) (h : js_error → prog A) :
  timed E p → (∀ e, timed E (h e)) → timed E (try_catch p h).
Proof.
  intros Hp Hh net w. rewrite run_try_catch. specialize (Hp net w). revert Hp.
  destruct (run E p net w) as [[a|e| |] w1 t1 net1];
    cbn [continue handle before ended element trace unread]; intros Hp; try done.
  specialize (Hh e net1 w1). rewrite timers_app. lia.
Qed.

Context (api url : string) (lang : option string) (heading : string) (jsonld : bool).

Lemma requests_once_fetchFaqs force : requests_once E (fetchFaqs api url lang force).
Proof. intros net w. rewrite run_fetchFaqs. by destruct net. Qed.

Lemma requests_once_force_refresh :
  requests_once E (force_refresh E api url lang heading jsonld).
Proof.
  unfold force_refresh. apply requests_once_bind_l; [apply requests_once_fetchFaqs|].
  intros r. apply keeps_bind; [apply keeps_settle_outcome|].
  intros []; [apply keeps_show|apply keeps_ret].
Qed.

Lemma requests_once_examine result :
  requests_once E (examine E api url lang heading jsonld result).
Proof.
  unfold examine. apply requests_once_bind_r; [apply keeps_settle_outcome|]. intros [].
  { apply requests_once_keeps, keeps_show. }
  apply requests_once_bind_r; [apply keeps_settle_outcome|]. intros []; cbn [negb].
  - apply requests_once_bind_l.
    + destruct (wants_refresh result);
        [apply requests_once_force_refresh|apply requests_once_keeps, keeps_ret].
    + intros []; [apply keeps_ret|by apply keeps_count_and_wait].
  - apply requests_once_keeps, keeps_bind; [apply keeps_call, renderError_retryCount|].
    intros _. apply keeps_ret.
Qed.

(** After its request a pass makes at most one more, the forced refresh. *)
Lemma requests_once_pass_tail s :
  requests_once E match fetched s with
                  | Thrown e => recover e
                  | Normal result =>
                      try_catch (examine E api url lang heading jsonld result) recover
                  end.
Proof.
  destruct (fetched s) as [r|e].
  - apply requests_once_try_catch; [apply requests_once_examine|].
    intros e. by apply keeps_recover.
  - by apply requests_once_keeps, keeps_recover.
Qed.

Lemma timed_count_and_wait : timed E count_and_wait.
Proof.
  intros net w. unfold count_and_wait. rewrite run_bind, run_call.
  cbn [increment_retryCount assign continue before ended ending_of element trace unread
       fst snd app].
  rewrite run_bind.
  cbn [read run continue before ended ending_of element trace unread retryCount
       set_retryCount app].
  unfold maxRetries. case_bool_decide as Hc; [|cbn; lia].
  rewrite run_bind, run_call.
  destruct (renderStatus_fields (retrying_message (S (retryCount w)))
              (set_retryCount (S (retryCount w)) w)) as [Hr _].
  destruct (renderStatus _ _) as [[[]|e] w2]; cbn in Hr |- *; rewrite Hr;
    [change (length _) with 1|]; lia.
Qed.

Lemma timed_recover e : timed E (recover e).
Proof.
  intros net w. unfold recover. rewrite run_bind, run_call.
  cbn [increment_retryCount assign continue before ended ending_of element trace unread
       fst snd app].
  rewrite run_bind.
  cbn [read run continue before ended ending_of element trace unread retryCount
       set_retryCount app].
  unfold maxRetries. case_bool_decide as Hc; [|cbn; change (length _) with 1; lia].
  rewrite run_bind, run_call.
  destruct (set_innerHTML_fields (ErrorBox ("Failed to load FAQs: " +:+ message e))
              (set_retryCount (S (retryCount w)) w)) as [Hr _].
  unfold renderError.
  destruct (set_innerHTML _ _) as [[[]|e'] w2]; cbn in Hr |- *; rewrite Hr; lia.
Qed.

Lemma timed_read_bind {B} (f : widget → prog B) :
  (∀ w, timed E (f w)) → timed E (read ≫= f).
Proof. intros Hf net w. apply (Hf w net w). Qed.

Lemma timed_examine result : timed E (examine E api url lang heading jsonld result).
Proof.
  unfold examine. apply timed_bind; [apply timed_keeps, keeps_settle_outcome|]. intros [].
  { apply timed_keeps, keeps_show. }
  apply timed_bind; [apply timed_keeps, keeps_settle_outcome|]. intros []; cbn [negb].
  - apply timed_bind.
    + destruct (wants_refresh result);
        [by apply timed_keeps, keeps_force_refresh|apply timed_keeps, keeps_ret].
    + intros []; [apply timed_keeps, keeps_ret|apply timed_count_and_wait].
  - apply timed_keeps, keeps_bind; [apply keeps_call, renderError_retryCount|].
    intros _. apply keeps_ret.
Qed.

Lemma timed_retry_loop unroll : timed E (retry_loop E unroll api url lang heading jsonld).
Proof.
  induction unroll as [|unroll IH]; cbn [retry_loop];
    apply timed_read_bind; intros w; case_bool_decide;
    try (apply timed_keeps, keeps_call, renderError_retryCount).
  - intros net w'. cbn. lia.
  - apply timed_bind.
    + apply timed_try_catch; [|apply timed_recover].
      unfold attempt. apply timed_bind; [by apply timed_keeps, keeps_fetchFaqs|].
      apply timed_examine.
    + intros []; [apply timed_keeps, keeps_ret|apply IH].
Qed.

(** A forced refresh comes only after the attempt of its pass: the
    requests of the loop are at most twice its attempts. *)
Lemma retry_loop_requests unroll net w :
  fetches (trace (run E (retry_loop E unroll api url lang heading jsonld) net w))
  ≤ 2 * attempts (trace (run E (retry_loop E unroll api url lang heading jsonld) net w)).
Proof.
  revert net w. induction unroll as [|unroll IH]; intros net w;
    (destruct (decide (retryCount w < maxRetries)) as [Hc|Hc];
     [|rewrite run_retry_loop_exit, run_call by done; cbn; lia]).
  - cbn. rewrite bool_decide_true by done. cbn. lia.
  - rewrite run_retry_loop_pass, run_pass_tail, continue_after by done.
    assert (∀ t, fetches (Fetch (page_faqs_request api url lang false) :: t)
                 = S (fetches t)) as Hcons.
    { intros t. unfold fetches. by rewrite filter_cons_True. }
    destruct net as [|s net'].
    { cbn [after continue before trace ended element unread app].
      rewrite attempts_cons_main, Hcons. cbn. lia. }
    destruct (keeps_pass_tail E api url lang heading jsonld
                (λ e, is_attempt e = false) s) as [Hk _];
      [apply is_attempt_refresh|done|].
    destruct (Hk net' w) as (Ht & _ & _).
    pose proof (requests_once_pass_tail s net' w) as Ho.
    revert Ht Ho.
    destruct (run E _ net' w) as [[[]|e| |] w1 t1 net1];
      cbn [after continue before trace ended element unread app run mret prog_ret];
      intros Ht Ho; rewrite attempts_cons_main, Hcons;
      rewrite ?app_nil_r, ?attempts_app, ?fetches_app, (attempts_none t1) by done;
      try lia.
    specialize (IH net1 w1). lia.
Qed.


End Budgets.

(** ** Structured data *)

Section StructuredData.
Context (E : engine).


End StructuredData.


(** ** The accordion under clicks and keys *)

Lemma set_item_attributes_cases index ex hid w :
  (∃ e, set_item_attributes index ex hid w = (Thrown e, w))
  ∨ (∃ h items,
       shadowRoot w = Some (Accordion h items) ∧ index < length items
       ∧ set_item_attributes index ex hid w
         = (Normal tt,
            set_shadowRoot
              (Some (Accordion h
                       (alter (λ it, FaqItemDom (item_question it) (item_answer it) ex hid)
                          index items))) w)).
Proof.
  unfold set_item_attributes. cbv [mbind sync_bind this].
  destruct (shadowRoot w) as [[|h items| | |]|] eqn:Hs; try (left; by eexists).
  case_bool_decide as Hi; [|left; by eexists].
  right. by exists h, items.
Qed.

Lemma open_at_alter w h items index ex hid i :
  shadowRoot w = Some (Accordion h items) →
  open_at (set_shadowRoot
             (Some (Accordion h
                      (alter (λ it, FaqItemDom (item_question it) (item_answer it) ex hid)
                         index items))) w) i
  ↔ (i = index ∧ i < length items ∧ ex || negb hid = true)
    ∨ (i ≠ index ∧ open_at w i).
Proof.
  intros Hs. unfold open_at, items_of. cbn [shadowRoot set_shadowRoot]. rewrite Hs.
  destruct (decide (i = index)) as [->|Hne].
  - rewrite list_lookup_alter_eq. split.
    + intros (it & Hl & Ho). left.
      destruct (items !! index) as [it0|] eqn:Hit; [|done].
      injection Hl as <-. split_and!; [done|by eapply lookup_lt_Some|done].
    + intros [(_ & Hlt & Ho)|[? _]]; [|done].
      destruct (lookup_lt_is_Some_2 items index Hlt) as [it0 Hit].
      rewrite Hit. by eexists.
  - rewrite list_lookup_alter_ne by done. split.
    + intros H. by right.
    + by intros [[? _]|[_ ?]].
Qed.

Lemma texts_of_alter w h items index ex hid :
  shadowRoot w = Some (Accordion h items) →
  texts_of (set_shadowRoot
              (Some (Accordion h
                       (alter (λ it, FaqItemDom (item_question it) (item_answer it) ex hid)
                          index items))) w)
  = texts_of w.
Proof.
  intros Hs. unfold texts_of, items_of. cbn [shadowRoot set_shadowRoot]. rewrite Hs.
  apply list_eq. intros i. rewrite !list_lookup_fmap.
  destruct (decide (i = index)) as [->|Hne].
  - rewrite list_lookup_alter_eq. by destruct (items !! index).
  - by rewrite list_lookup_alter_ne.
Qed.

(** Whatever [toggleItem] is called with and whether it throws or not, an
    open item is still the one [currentOpenIndex] names afterwards, and
    the texts are the same. *)
Lemma toggleItem_open_is_current index w :
  open_is_current w →
  open_is_current (toggleItem index w).2
  ∧ texts_of (toggleItem index w).2 = texts_of w
  ∧ (shadowRoot w = None ↔ shadowRoot (toggleItem index w).2 = None).
Proof.
  intros Hw. unfold toggleItem. cbv [mbind sync_bind this].
  case_bool_decide as Hnone; [done|].
  case_bool_decide as Hcur.
  - unfold closeItem.
    destruct (set_item_attributes_cases index false true w)
      as [[e ->]|(h & items & Hs & Hlt & ->)]; [done|].
    cbn [assign snd]. split_and!.
    + intros i Hi. unfold open_at, items_of in Hi. cbn in Hi.
      apply (open_at_alter w h items index false true i Hs) in Hi
        as [(_ & _ & ?)|[Hne Ho]]; [done|].
      apply Hw in Ho. rewrite Hcur in Ho. by apply Nat2Z.inj in Ho.
    + apply (texts_of_alter w h items index false true Hs).
    + done.
  - set (w1 := (if bool_decide (0 ≤ currentOpenIndex w)%Z
                then closeItem (Z.to_nat (currentOpenIndex w)) else mret ()) w).
    assert ((∃ e, w1 = (Thrown e, w))
            ∨ (∃ w', w1 = (Normal tt, w') ∧ (∀ i, ¬ open_at w' i)
                     ∧ currentOpenIndex w' = currentOpenIndex w
                     ∧ texts_of w' = texts_of w
                     ∧ (∃ d, shadowRoot w' = Some d))) as [[e ->]|(w' & -> & Hno & Hc & Ht & Hd)].
    { unfold w1. case_bool_decide as Hpos.
      - unfold closeItem.
        destruct (set_item_attributes_cases (Z.to_nat (currentOpenIndex w)) false true w)
          as [[e ->]|(h & items & Hs & Hlt & ->)]; [left; by eexists|].
        right. eexists. split; [done|]. split_and!; [|done| |by eexists].
        + intros i Hi.
          apply (open_at_alter w h items _ false true i Hs) in Hi
            as [(_ & _ & ?)|[Hne Ho]]; [done|].
          apply Hw in Ho. apply Hne. rewrite Ho. by rewrite Nat2Z.id.
        + apply (texts_of_alter w h items _ false true Hs).
      - right. exists w. split; [done|]. split_and!; [|done|done|].
        + intros i Ho. apply Hw in Ho. lia.
        + destruct (shadowRoot w); [by eexists|done]. }
    { done. }
    unfold openItem.
    destruct (set_item_attributes_cases index true false w')
      as [[e ->]|(h & items & Hs & Hlt & ->)].
    + cbn [snd]. split_and!; [by intros i ?%Hno|done|].
      destruct Hd as [d Hd]. rewrite Hd. split; [by intros|done].
    + cbn [assign snd]. split_and!.
      * intros i Hi. unfold open_at, items_of in Hi. cbn in Hi.
        apply (open_at_alter w' h items index true false i Hs) in Hi
          as [(-> & _)|[_ Ho]]; [done|by apply Hno in Ho].
      * rewrite <- Ht. apply (texts_of_alter w' h items index true false Hs).
      * cbn. split; [by intros|done].
Qed.

Lemma items_of_attached w i : i < length (items_of w) → ∃ d, shadowRoot w = Some d.
Proof.
  unfold items_of. destruct (shadowRoot w) as [d|]; [by eexists|]. cbn. lia.
Qed.

Lemma handleKeydown_ArrowDown w i :
  i < length (items_of w) →
  handleKeydown "ArrowDown" i w
  = KeyHandled (Normal tt) true (Some ((i + 1) mod length (items_of w))) w.
Proof.
  intros Hi. destruct (items_of_attached w i Hi) as [d Hd].
  unfold handleKeydown. rewrite Hd. cbn [String.eqb Ascii.eqb Bool.eqb orb].
  by rewrite bool_decide_false by lia.
Qed.

Lemma handleKeydown_ArrowUp w i :
  i < length (items_of w) →
  handleKeydown "ArrowUp" i w
  = KeyHandled (Normal tt) true
      (Some ((i + (length (items_of w) - 1)) mod length (items_of w))) w.
Proof.
  intros Hi. destruct (items_of_attached w i Hi) as [d Hd].
  unfold handleKeydown. rewrite Hd. cbn [String.eqb Ascii.eqb Bool.eqb orb].
  set (n := length (items_of w)) in *.
  destruct (decide (i = 0)) as [->|H0].
  - rewrite (bool_decide_true (0 = 0)) by done.
    rewrite bool_decide_true by lia. do 2 f_equal.
    rewrite Nat.add_0_l, Nat.mod_small by lia. lia.
  - rewrite (bool_decide_false (i = 0)) by done.
    rewrite bool_decide_true by lia. do 2 f_equal.
    replace (i + (n - 1)) with ((i - 1) + 1 * n) by lia.
    rewrite Nat.Div0.mod_add, Nat.mod_small by lia. lia.
Qed.

Lemma press_ArrowDown k : ∀ w i,
  i < length (items_of w) →
  press_keys (replicate k "ArrowDown") i w = ((i + k) mod length (items_of w), w).
Proof.
  induction k as [|k IH]; intros w i Hi.
  - cbn. by rewrite Nat.add_0_r, Nat.mod_small.
  - cbn [replicate press_keys]. rewrite handleKeydown_ArrowDown by done.
    cbn [focused after_key default from_option id]. rewrite IH by (apply Nat.mod_upper_bound; lia).
    f_equal. rewrite Nat.Div0.add_mod_idemp_l. f_equal. lia.
Qed.

Lemma press_ArrowUp k : ∀ w i,
  i < length (items_of w) →
  press_keys (replicate k "ArrowUp") i w
  = ((i + k * (length (items_of w) - 1)) mod length (items_of w), w).
Proof.
  induction k as [|k IH]; intros w i Hi.
  - cbn. by rewrite Nat.add_0_r, Nat.mod_small.
  - cbn [replicate press_keys]. rewrite handleKeydown_ArrowUp by done.
    cbn [focused after_key default from_option id]. rewrite IH by (apply Nat.mod_upper_bound; lia).
    f_equal. rewrite Nat.Div0.add_mod_idemp_l. f_equal. lia.
Qed.

(** X13. The arrow keys move the focus around the questions and change
    nothing else.  On the question at [i] of [n], ArrowDown prevents the
    default action and gives the focus to question [i + 1], or to the first
    after the last; ArrowUp to question [i - 1], or to the last before the
    first.  Each undoes the other, and [n] presses of either bring the
    focus back to where it was; the element is left exactly as it was. *)
Theorem arrow_keys_cycle w i :
  i < length (items_of w) →
  let n := length (items_of w) in
  handleKeydown "ArrowDown" i w
  = KeyHandled (Normal tt) true (Some (if bool_decide (i + 1 = n) then 0 else i + 1)) w
  ∧ handleKeydown "ArrowUp" i w
    = KeyHandled (Normal tt) true (Some (if bool_decide (i = 0) then n - 1 else i - 1)) w
  ∧ press_keys ["ArrowDown"; "ArrowUp"] i w = (i, w)
  ∧ press_keys ["ArrowUp"; "ArrowDown"] i w = (i, w)
  ∧ (∀ k, press_keys (replicate k "ArrowDown") i w = ((i + k) mod n, w))
  ∧ press_keys (replicate n "ArrowDown") i w = (i, w)
  ∧ press_keys (replicate n "ArrowUp") i w = (i, w).
Proof.
  intros Hi n. split_and!.
  - rewrite handleKeydown_ArrowDown by done. fold n. do 2 f_equal.
    case_bool_decide as He.
    + rewrite He. apply Nat.Div0.mod_same.
    + apply Nat.mod_small. lia.
  - rewrite handleKeydown_ArrowUp by done. fold n. do 2 f_equal.
    case_bool_decide as He.
    + subst i. rewrite Nat.add_0_l. apply Nat.mod_small. lia.
    + replace (i + (n - 1)) with ((i - 1) + 1 * n) by lia.
      rewrite Nat.Div0.mod_add. apply Nat.mod_small. lia.
  - cbn [press_keys]. rewrite handleKeydown_ArrowDown by done.
    cbn [focused after_key default from_option id].
    rewrite handleKeydown_ArrowUp by (apply Nat.mod_upper_bound; lia).
    cbn [focused after_key default from_option id]. fold n. f_equal.
    rewrite Nat.Div0.add_mod_idemp_l.
    replace (i + 1 + (n - 1)) with (i + 1 * n) by lia.
    rewrite Nat.Div0.mod_add. apply Nat.mod_small. lia.
  - cbn [press_keys]. rewrite handleKeydown_ArrowUp by done.
    cbn [focused after_key default from_option id].
    rewrite handleKeydown_ArrowDown by (apply Nat.mod_upper_bound; lia).
    cbn [focused after_key default from_option id]. fold n. f_equal.
    rewrite Nat.Div0.add_mod_idemp_l.
    replace (i + (n - 1) + 1) with (i + 1 * n) by lia.
    rewrite Nat.Div0.mod_add. apply Nat.mod_small. lia.
  - intros k. by apply press_ArrowDown.
  - rewrite press_ArrowDown by done. fold n. f_equal.
    replace (i + n) with (i + 1 * n) by lia.
    rewrite Nat.Div0.mod_add. apply Nat.mod_small. lia.
  - rewrite press_ArrowUp by done. fold n. f_equal.
    replace (i + n * (n - 1)) with (i + (n - 1) * n) by lia.
    rewrite Nat.Div0.mod_add. apply Nat.mod_small. lia.
Qed.

(** X13 on the last of three questions: ArrowDown wraps to the first. *)
Lemma arrow_keys_cycle_witness :
  2 < length (items_of three_items)
  ∧ handleKeydown "ArrowDown" 2 three_items
    = KeyHandled (Normal tt) true (Some 0) three_items
  ∧ press_keys ["ArrowDown"; "ArrowUp"] 2 three_items = (2, three_items).
Proof.
  assert (2 < length (items_of three_items)) as Hi by (apply Nat.ltb_lt; by vm_compute).
  destruct (arrow_keys_cycle three_items 2 Hi) as (Hd & _ & Hdu & _).
  split; [exact Hi|]. split; [exact Hd|exact Hdu].
Defined.

Lemma handleKeydown_step key focus w :
  open_is_current w → focus < length (items_of w) →
  open_is_current (after_key (handleKeydown key focus w))
  ∧ texts_of (after_key (handleKeydown key focus w)) = texts_of w
  ∧ default focus (focused (handleKeydown key focus w)) < length (items_of w).
Proof.
  intros Hw Hf. destruct (items_of_attached w focus Hf) as [d Hd].
  unfold handleKeydown. rewrite Hd.
  destruct (String.eqb key "Enter" || String.eqb key " ").
  { cbn [after_key focused default from_option id].
    destruct (toggleItem_open_is_current focus w Hw) as (? & ? & _). done. }
  destruct (String.eqb key "ArrowDown").
  { rewrite bool_decide_false by lia. cbn [after_key focused default from_option id].
    split_and!; [done|done|]. apply Nat.mod_upper_bound. lia. }
  destruct (String.eqb key "ArrowUp"); [|done].
  destruct (decide (focus = 0)) as [->|H0];
    [rewrite (bool_decide_true (0 = 0)) by done
    |rewrite (bool_decide_false (focus = 0)) by done];
    (rewrite bool_decide_true by lia);
    cbn [after_key focused default from_option id]; split_and!; try done; lia.
Qed.

Lemma length_texts_of w : length (texts_of w) = length (items_of w).
Proof. unfold texts_of. by rewrite length_fmap. Qed.

(** X14. Keys never open a second item.  On an accordion where an open
    item is the one [currentOpenIndex] names, whatever keys are pressed,
    starting on any question: afterwards at most one item is open, the
    questions and answers are the same, and the focus is on one of the
    questions.  Enter and Space do what a click on the focused question
    does and prevent the default action; a key other than Enter, Space,
    ArrowDown and ArrowUp does nothing and prevents nothing. *)
Theorem keys_keep_one_open keys focus w :
  open_is_current w → focus < length (items_of w) →
  (let r := press_keys keys focus w in
   (∀ i j, open_at r.2 i → open_at r.2 j → i = j)
   ∧ open_is_current r.2
   ∧ texts_of r.2 = texts_of w
   ∧ r.1 < length (items_of r.2))
  ∧ (∀ key, key = "Enter" ∨ key = " " →
       handleKeydown key focus w
       = KeyHandled (toggleItem focus w).1 true None (toggleItem focus w).2)
  ∧ (∀ key, key ∉ ["Enter"; " "; "ArrowDown"; "ArrowUp"] →
       handleKeydown key focus w = KeyHandled (Normal tt) false None w).
Proof.
  intros Hw Hf. split_and!.
  - revert focus w Hw Hf. induction keys as [|key keys IH]; intros focus w Hw Hf.
    + cbn. split_and!; try done. intros i j Hi Hj.
      apply Hw in Hi, Hj. lia.
    + cbn [press_keys].
      destruct (handleKeydown_step key focus w Hw Hf) as (Hw' & Ht & Hf').
      rewrite <- length_texts_of, <- Ht, length_texts_of in Hf'.
      destruct (IH _ _ Hw' Hf') as (H1 & H2 & H3 & H4).
      split_and!; try done. by rewrite <- Ht.
  - destruct (items_of_attached w focus Hf) as [d Hd].
    intros key [-> | ->]; unfold handleKeydown; by rewrite Hd.
  - destruct (items_of_attached w focus Hf) as [d Hd].
    intros key Hk. unfold handleKeydown. rewrite Hd.
    repeat (apply not_elem_of_cons in Hk as [?%String.eqb_neq Hk]).
    by repeat match goal with H : String.eqb _ _ = false |- _ => rewrite H; clear H end.
Qed.

(** X14 on the accordion of three items with the second one open: from
    the third question two ArrowUp and Enter open the first and close the
    second. *)
Lemma keys_keep_one_open_witness :
  let w := (toggleItem 1 three_items).2 in
  open_is_current w ∧ 2 < length (items_of w)
  ∧ shows_open <$> items_of w = [false; true; false]
  ∧ shows_open <$> items_of (press_keys ["ArrowUp"; "ArrowUp"; "Enter"] 2 w).2
    = [true; false; false]
  ∧ ∀ i j,
      open_at (press_keys ["Enter"; " "; "x"; "ArrowDown"; "Enter"] 2 w).2 i →
      open_at (press_keys ["Enter"; " "; "x"; "ArrowDown"; "Enter"] 2 w).2 j → i = j.
Proof.
  intros w.
  assert (open_is_current w) as Hw.
  { apply toggleItem_open_is_current. intros i (it & Hi & Ho).
    destruct i as [|[|[|i]]]; vm_compute in Hi; simplify_eq; by vm_compute in Ho. }
  assert (2 < length (items_of w)) as Hf by (apply Nat.ltb_lt; by vm_compute).
  split_and!; [exact Hw|exact Hf|by vm_compute|by vm_compute|].
  exact (proj1 (proj1 (keys_keep_one_open
                         ["Enter"; " "; "x"; "ArrowDown"; "Enter"] 2 w Hw Hf))).
Defined.

(** ** Invariants under any interleaving *)

Section Invariants.
Context (E : engine) (I : widget → Prop).

Lemma maintains_bind {A B} (p : prog A) (f : A → prog B) :
  maintains I p → (∀ a, maintains I (f a)) → maintains I (p ≫= f).
Proof.
  intros Hp Hf.
  induction Hp as [a|e| |k Hk IH|m k Hm Hk IH|msg k Hk IH|o text k Hk IH|req k Hk IH
                  |r k Hk IH|ms k Hk IH];
    cbn; [apply Hf|constructor..]; try done; intros; by apply IH.
Qed.

Lemma maintains_try_catch {A} (p : prog A) (h : js_error → prog A) :
  maintains I p → (∀ e, maintains I (h e)) → maintains I (try_catch p h).
Proof.
  intros Hp Hh.
  induction Hp as [a|e| |k Hk IH|m k Hm Hk IH|msg k Hk IH|o text k Hk IH|req k Hk IH
                  |r k Hk IH|ms k Hk IH];
    cbn; [constructor|apply Hh|constructor..]; try done; intros; by apply IH.
Qed.

Lemma maintains_settle_outcome {A} (o : outcome A) : maintains I (settle_outcome o).
Proof. destruct o; constructor. Qed.

Lemma maintains_call (m : sync unit) :
  (∀ w, I w → I (m w).2) → maintains I (call m).
Proof. intros Hm. constructor; [done|]. intros o. apply maintains_settle_outcome. Qed.

Lemma maintains_read_bind {B} (f : widget → prog B) :
  (∀ w, I w → maintains I (f w)) → maintains I (read ≫= f).
Proof. intros Hf. constructor. intros w Hw. cbn. by apply Hf. Qed.

Lemma maintains_mret {A} (a : A) : maintains I (mret a).
Proof. constructor. Qed.

Lemma maintains_delay ms : maintains I (delay ms).
Proof. repeat constructor. Qed.

Lemma maintains_console_warn msg : maintains I (console_warn msg).
Proof. repeat constructor. Qed.

Lemma maintains_fetchFaqs api url lang force :
  maintains I (fetchFaqs api url lang force).
Proof.
  unfold fetchFaqs. apply maintains_try_catch.
  - apply maintains_bind.
    + constructor. intros []; constructor.
    + intros r. destruct (negb (ok r)); [constructor|].
      constructor. intros o. apply maintains_settle_outcome.
  - intros e. destruct (String.eqb _ _); constructor.
Qed.

Lemma maintains_parseConfig configStr : maintains I (parseConfig configStr).
Proof.
  unfold parseConfig. destruct (String.eqb configStr ""); [apply maintains_mret|].
  constructor. intros [v|]; [apply maintains_mret|].
  apply maintains_bind; [apply maintains_console_warn|]. intros _. apply maintains_mret.
Qed.

Lemma maintains_getInlineJson : maintains I getInlineJson.
Proof.
  unfold getInlineJson. apply maintains_read_bind. intros w _.
  destruct (inline_script w) as [text|]; [|apply maintains_mret].
  case_bool_decide.
  { apply maintains_bind; [apply maintains_console_warn|]. intros _. apply maintains_mret. }
  constructor. intros [[| |b|n|s|data|props]|]; try apply maintains_mret.
  - case_bool_decide; [|apply maintains_mret].
    apply maintains_bind; [apply maintains_console_warn|]. intros _. apply maintains_mret.
  - apply maintains_bind; [apply maintains_console_warn|]. intros _. apply maintains_mret.
Qed.

(** What the synchronous methods must do for [I] to be an invariant. *)
Hypothesis I_attributes : ∀ a w, I w → I (set_attributes a w).
Hypothesis I_retryCount : ∀ n w, I w → I (set_retryCount n w).
Hypothesis I_attachShadow : ∀ w, I w → I (attachShadow w).2.
Hypothesis I_applyConfig : ∀ config w, I w → I (applyConfig config w).2.
Hypothesis I_render : ∀ faqs heading w, I w → I (render faqs heading w).2.
Hypothesis I_renderLoading : ∀ heading w, I w → I (renderLoading heading w).2.
Hypothesis I_renderStatus : ∀ msg w, I w → I (renderStatus msg w).2.
Hypothesis I_renderError : ∀ msg w, I w → I (renderError msg w).2.
Hypothesis I_injectJsonLd : ∀ faqs heading w, I w → I (injectJsonLd faqs heading w).2.
Hypothesis I_toggleItem : ∀ index w, I w → I (toggleItem index w).2.

Lemma maintains_show faqs heading jsonld : maintains I (show faqs heading jsonld).
Proof.
  unfold show. apply maintains_bind; [apply maintains_call, I_render|]. intros _.
  apply maintains_bind; [|intros _; apply maintains_mret].
  destruct jsonld; [apply maintains_call, I_injectJsonLd|apply maintains_mret].
Qed.

Lemma maintains_count_and_wait : maintains I count_and_wait.
Proof.
  unfold count_and_wait. apply maintains_bind.
  { apply maintains_call. intros w. apply I_retryCount. }
  intros _. apply maintains_read_bind. intros w _.
  case_bool_decide; [|apply maintains_mret].
  apply maintains_bind; [apply maintains_call, I_renderStatus|]. intros _.
  apply maintains_bind; [apply maintains_delay|]. intros _. apply maintains_mret.
Qed.

Lemma maintains_recover e : maintains I (recover e).
Proof.
  unfold recover. apply maintains_bind.
  { apply maintains_call. intros w. apply I_retryCount. }
  intros _. apply maintains_read_bind. intros w _. case_bool_decide.
  - apply maintains_bind; [apply maintains_call, I_renderError|].
    intros _. apply maintains_mret.
  - apply maintains_bind; [apply maintains_delay|]. intros _. apply maintains_mret.
Qed.

Lemma maintains_examine api url lang heading jsonld result :
  maintains I (examine E api url lang heading jsonld result).
Proof.
  unfold examine. apply maintains_bind; [apply maintains_settle_outcome|]. intros [].
  { apply maintains_show. }
  apply maintains_bind; [apply maintains_settle_outcome|]. intros []; cbn [negb].
  - apply maintains_bind.
    + destruct (wants_refresh result); [|apply maintains_mret].
      unfold force_refresh. apply maintains_bind; [apply maintains_fetchFaqs|].
      intros r. apply maintains_bind; [apply maintains_settle_outcome|].
      intros []; [apply maintains_show|apply maintains_mret].
    + intros []; [apply maintains_mret|apply maintains_count_and_wait].
  - apply maintains_bind; [apply maintains_call, I_renderError|].
    intros _. apply maintains_mret.
Qed.

Lemma maintains_retry_loop unroll api url lang heading jsonld :
  maintains I (retry_loop E unroll api url lang heading jsonld).
Proof.
  induction unroll as [|unroll IH]; cbn [retry_loop];
    apply maintains_read_bind; intros w _; case_bool_decide;
    try (apply maintains_call, I_renderError).
  - constructor.
  - apply maintains_bind.
    + apply maintains_try_catch; [|apply maintains_recover].
      unfold attempt. apply maintains_bind; [apply maintains_fetchFaqs|].
      apply maintains_examine.
    + intros []; [apply maintains_mret|apply IH].
Qed.

Lemma maintains_initializeWidget unroll : maintains I (initializeWidget E unroll).
Proof.
  unfold initializeWidget. apply maintains_read_bind. intros w _. cbv zeta.
  apply maintains_bind; [apply maintains_parseConfig|]. intros config.
  apply maintains_bind.
  { case_bool_decide; [apply maintains_call, I_attachShadow|apply maintains_mret]. }
  intros _. apply maintains_bind; [apply maintains_call, I_applyConfig|]. intros _.
  apply maintains_bind; [apply maintains_getInlineJson|]. intros inlineJson.
  destruct (truthy inlineJson).
  { apply maintains_bind; [apply maintains_call, I_render|]. intros _.
    destruct (negb _); [apply maintains_call, I_injectJsonLd|apply maintains_mret]. }
  destruct (String.eqb _ _); [apply maintains_call, I_renderError|].
  apply maintains_bind; [apply maintains_call, I_renderLoading|]. intros _.
  unfold loadFaqsWithRetry. apply maintains_bind.
  { apply maintains_call. intros w'. apply I_retryCount. }
  intros _. apply maintains_retry_loop.
Qed.

Lemma maintains_attributeChangedCallback unroll name oldValue newValue :
  maintains I (attributeChangedCallback E unroll name oldValue newValue).
Proof.
  unfold attributeChangedCallback. destruct (String.eqb name "data-config").
  - apply maintains_bind; [apply maintains_parseConfig|]. intros config.
    apply maintains_call, I_applyConfig.
  - apply maintains_read_bind. intros w _.
    case_bool_decide; [apply maintains_mret|apply maintains_initializeWidget].
Qed.

(** Up to its next [await], a method that maintains [I] leaves an element
    that satisfies [I], and what it parks maintains [I]. *)
Lemma advance_maintains {A} (p : prog A) w :
  maintains I p → I w →
  I (advance E p w).1.2 ∧ parked_maintains I (advance E p w).1.1.
Proof.
  intros Hp. revert w.
  induction Hp as [a|e| |k Hk IH|m k Hm Hk IH|msg k Hk IH|o text k Hk IH|req k Hk IH
                  |r k Hk IH|ms k Hk IH];
    intros w Hw; cbn [advance]; try done.
  - by apply IH.
  - apply IH. by apply Hm.
  - specialize (IH w Hw). by destruct (advance E k w) as [[t w'] ev].
  - specialize (IH (JSON_parse E text) w Hw).
    by destruct (advance E (k (JSON_parse E text)) w) as [[t w'] ev].
Qed.

Lemma start_maintains (p : prog unit) π :
  maintains I p → page_maintains I π → page_maintains I (start E p π).
Proof.
  intros Hp [Hw Hm]. unfold start.
  destruct (advance_maintains p (host π) Hp Hw) as [Hw' Ht].
  destruct (advance E p (host π)) as [[t w'] ev]. split; [done|].
  apply Forall_app. split; [done|]. by constructor.
Qed.

Lemma resume_maintains i (p : prog unit) π :
  maintains I p → page_maintains I π → page_maintains I (resume E i p π).
Proof.
  intros Hp [Hw Hm]. unfold resume.
  destruct (advance_maintains p (host π) Hp Hw) as [Hw' Ht].
  destruct (advance E p (host π)) as [[t w'] ev]. split; [done|].
  by apply Forall_insert.
Qed.

Lemma step_maintains unroll a π π' :
  page_maintains I π → step E unroll a π = Some π' → page_maintains I π'.
Proof.
  intros Hπ Hs. destruct a as [|name value|index|i s|i|i]; cbn [step] in Hs.
  - injection Hs as <-. apply start_maintains; [|done]. apply maintains_initializeWidget.
  - assert (page_maintains I
              (Page (set_attributes (<[name:=value]> (attributes (host π))) (host π))
                 (parked_methods π) (history π))) as Hπ1.
    { destruct Hπ as [Hw Hm]. split; [by apply I_attributes|done]. }
    case_bool_decide; injection Hs as <-; [|done].
    apply start_maintains; [|done]. apply maintains_attributeChangedCallback.
  - destruct (shadowRoot (host π)) as [[|h items| | |]|]; try done.
    case_bool_decide; [|done]. injection Hs as <-.
    destruct Hπ as [Hw Hm]. split; [by apply I_toggleItem|done].
  - destruct (parked_methods π !! i) as [[| |req k| |]|] eqn:Hi; try done.
    injection Hs as <-. apply resume_maintains; [|done].
    destruct Hπ as [_ Hm]. by apply (Forall_lookup_1 _ _ _ _ Hm Hi).
  - destruct (parked_methods π !! i) as [[| | |r k|]|] eqn:Hi; try done.
    injection Hs as <-. apply resume_maintains; [|done].
    destruct Hπ as [_ Hm]. by apply (Forall_lookup_1 _ _ _ _ Hm Hi).
  - destruct (parked_methods π !! i) as [[| | | |ms k]|] eqn:Hi; try done.
    injection Hs as <-. apply resume_maintains; [|done].
    destruct Hπ as [_ Hm]. by apply (Forall_lookup_1 _ _ _ _ Hm Hi).
Qed.

(** Whatever happens on the page, in whatever order, [I] holds
    afterwards if it held before. *)
Lemma steps_maintains unroll actions : ∀ π π',
  page_maintains I π → steps E unroll actions π = Some π' → page_maintains I π'.
Proof.
  induction actions as [|a actions IH]; intros π π' Hπ Hs; cbn [steps] in Hs.
  - by injection Hs as <-.
  - destruct (step E unroll a π) as [π1|] eqn:H1; [|done]. cbn in Hs.
    eapply IH; [|done]. by eapply step_maintains.
Qed.

End Invariants.

(** ** What the synchronous methods leave alone *)

Lemma set_innerHTML_cases d w :
  (set_innerHTML d w).2 = w ∨ (set_innerHTML d w).2 = set_shadowRoot (Some d) w.
Proof.
  unfold set_innerHTML. cbv [mbind sync_bind this].
  destruct (shadowRoot w); [by right|by left].
Qed.

Lemma renderStatus_cases msg w :
  (renderStatus msg w).2 = w
  ∨ ∃ d, (renderStatus msg w).2 = set_shadowRoot (Some d) w
         ∧ ∀ h items, d ≠ Accordion h items.
Proof.
  unfold renderStatus. cbv [mbind sync_bind this].
  destruct (shadowRoot w) as [[|h items|h st|h st|st]|]; try (by left);
    right; by eexists.
Qed.

Lemma same_but_selection_refl w : same_but_selection w w.
Proof. by repeat split. Qed.

Lemma same_but_selection_trans w1 w2 w3 :
  same_but_selection w1 w2 → same_but_selection w2 w3 → same_but_selection w1 w3.
Proof.
  intros (?&?&?&?&?&?) (?&?&?&?&?&?). repeat split; congruence.
Qed.

Lemma set_item_attributes_same index ex hid w :
  same_but_selection w (set_item_attributes index ex hid w).2.
Proof.
  destruct (set_item_attributes_cases index ex hid w)
    as [[e ->]|(h & items & Hs & Hlt & ->)]; [apply same_but_selection_refl|].
  repeat split. cbn [snd shadowRoot set_shadowRoot]. rewrite Hs. cbn. f_equal. f_equal.
  apply list_eq. intros i. rewrite !list_lookup_fmap.
  destruct (decide (i = index)) as [->|Hne].
  - rewrite list_lookup_alter_eq. by destruct (items !! index).
  - by rewrite list_lookup_alter_ne.
Qed.

(** [toggleItem] changes nothing but [currentOpenIndex] and the two
    attributes by which items show as open. *)
Lemma toggleItem_same index w : same_but_selection w (toggleItem index w).2.
Proof.
  unfold toggleItem. cbv [mbind sync_bind this].
  case_bool_decide; [apply same_but_selection_refl|].
  case_bool_decide.
  - unfold closeItem.
    pose proof (set_item_attributes_same index false true w) as Hc.
    destruct (set_item_attributes index false true w) as [[[]|e] w1]; [|done].
    exact Hc.
  - assert (same_but_selection w
              ((if bool_decide (0 ≤ currentOpenIndex w)%Z
                then closeItem (Z.to_nat (currentOpenIndex w)) else mret ()) w).2) as Hc.
    { case_bool_decide; [apply set_item_attributes_same|apply same_but_selection_refl]. }
    destruct ((if bool_decide (0 ≤ currentOpenIndex w)%Z
               then closeItem (Z.to_nat (currentOpenIndex w)) else mret ()) w)
      as [[[]|e] w1]; [|done].
    cbn [snd] in Hc. unfold openItem.
    pose proof (set_item_attributes_same index true false w1) as Ho.
    destruct (set_item_attributes index true false w1) as [[[]|e] w2];
      cbn [snd assign] in *; by eapply same_but_selection_trans.
Qed.

Lemma same_but_selection_texts w w' :
  same_but_selection w w' →
  texts_of w' = texts_of w
  ∧ length (items_of w') = length (items_of w)
  ∧ ∀ h items', shadowRoot w' = Some (Accordion h items') →
                ∃ items, shadowRoot w = Some (Accordion h items).
Proof.
  intros (_&_&_&_&_&Hs). unfold texts_of, items_of.
  destruct (shadowRoot w) as [[|h items|h st|h st|st]|],
           (shadowRoot w') as [[|h' items'|h' st'|h' st'|st']|]; try done.
  injection Hs as -> Hi. split_and!.
  - apply (f_equal (fmap (λ it, Faq (item_question it) (item_answer it)))) in Hi.
    rewrite <- !list_fmap_compose in Hi. exact Hi.
  - apply (f_equal length) in Hi. by rewrite !length_fmap in Hi.
  - intros h0 items0 [= -> ->]. by eexists.
Qed.

(** ** Four invariants of the page *)

Lemma well_formed_view_invariant (E : engine) unroll actions π π' :
  page_maintains well_formed_view π → steps E unroll actions π = Some π' →
  page_maintains well_formed_view π'.
Proof.
  apply steps_maintains; clear.
  - by intros a w H.
  - by intros n w H.
  - by intros w H h items [=].
  - intros config w H. by destruct (applyConfig_normal config w) as [s ->].
  - intros faqs heading w H. unfold render.
    destruct (set_innerHTML_cases (content faqs heading) w) as [-> | ->]; [done|].
    intros h items. unfold texts_of, items_of. cbn [shadowRoot set_shadowRoot].
    unfold content. pose proof (validated_length faqs) as Hmax.
    pose proof (validated_normal faqs) as Hn.
    case_bool_decide as Hlen; [|done]. intros [= <- <-].
    unfold buildAccordion. rewrite length_fmap. split; [lia|].
    rewrite <- list_fmap_compose.
    replace ((λ it, Faq (item_question it) (item_answer it))
             ∘ (λ faq, FaqItemDom (question faq) (answer faq) false true) <$>
             validateAndLimitFaqs faqs) with (validateAndLimitFaqs faqs); [done|].
    generalize (validateAndLimitFaqs faqs). intros l.
    induction l as [|[q a] l IH]; [done|]. cbn. by f_equal.
  - intros heading w H. unfold renderLoading.
    destruct (set_innerHTML_cases (Loading heading "Loading FAQs...") w) as [-> | ->];
      [done|by intros h items [=]].
  - intros msg w H.
    destruct (renderStatus_cases msg w) as [-> |(d & -> & Hd)]; [done|].
    intros h items [= ->]. by destruct (Hd h items).
  - intros msg w H. unfold renderError.
    destruct (set_innerHTML_cases (ErrorBox msg) w) as [-> | ->];
      [done|by intros h items [=]].
  - intros faqs heading w H. by rewrite injectJsonLd_ld_scripts.
  - intros index w H h items' Hs.
    destruct (same_but_selection_texts _ _ (toggleItem_same index w))
      as (Ht & Hl & Ha).
    destruct (Ha h items' Hs) as [items Hi].
    destruct (H h items Hi) as [Hlen Hn].
    rewrite Ht. split; [|done].
    unfold items_of in Hl. rewrite Hs, Hi in Hl. lia.
Qed.

Lemma open_is_current_invariant (E : engine) unroll actions π π' :
  page_maintains open_is_current π → steps E unroll actions π = Some π' →
  page_maintains open_is_current π'.
Proof.
  assert (∀ d w, (∀ h items, d = Accordion h items →
                             Forall (λ it, shows_open it = false) items) →
                 open_is_current w → open_is_current (set_innerHTML d w).2) as Hinner.
  { intros d w Hd H.
    destruct (set_innerHTML_cases d w) as [-> | ->]; [done|].
    intros i (it & Hi & Ho). unfold items_of in Hi. cbn [shadowRoot set_shadowRoot] in Hi.
    destruct d as [|h items| | |]; try done.
    pose proof (Forall_lookup_1 _ _ _ _ (Hd h items eq_refl) Hi) as Hc. cbn in Hc.
    congruence. }
  apply steps_maintains; clear -Hinner.
  - by intros a w H.
  - by intros n w H.
  - by intros w H i (it & Hi & Ho).
  - intros config w H. by destruct (applyConfig_normal config w) as [s ->].
  - intros faqs heading w H. apply Hinner; [|done].
    intros h items. unfold content. case_bool_decide; [|done]. intros [= <- <-].
    unfold buildAccordion. apply Forall_fmap. by apply Forall_true.
  - intros heading w H. by apply Hinner.
  - intros msg w H.
    destruct (renderStatus_cases msg w) as [-> |(d & -> & Hd)]; [done|].
    intros i (it & Hi & Ho). unfold items_of in Hi. cbn [shadowRoot set_shadowRoot] in Hi.
    destruct d as [|h items| | |]; try done. by destruct (Hd h items).
  - intros msg w H. by apply Hinner.
  - intros faqs heading w H. by rewrite injectJsonLd_ld_scripts.
  - intros index w H. by apply toggleItem_open_is_current.
Qed.

Lemma styled_by_mapping_invariant (E : engine) unroll actions π π' :
  page_maintains styled_by_mapping π → steps E unroll actions π = Some π' →
  page_maintains styled_by_mapping π'.
Proof.
  assert (∀ d w, styled_by_mapping w → styled_by_mapping (set_innerHTML d w).2) as Hinner.
  { intros d w H. by destruct (set_innerHTML_cases d w) as [-> | ->]. }
  apply steps_maintains; clear -Hinner.
  - by intros a w H.
  - by intros n w H.
  - by intros w H.
  - intros config w H var v. unfold applyConfig.
    destruct (negb (truthy config) || negb (typeof_object config)); [apply H|].
    cbv [mbind sync_bind this assign]. cbn [snd style set_style].
    destruct (foldl_config_lookup config mappings (style w)) as [Hin Hout].
    { apply (bool_decide_unpack _). by vm_compute. }
    cbn zeta in Hin, Hout.
    destruct (decide (var ∈ mappings.*2)) as [Hvar|Hvar].
    + apply list_elem_of_fmap in Hvar as ([key var'] & -> & Hm).
      cbn [snd]. rewrite (Hin _ _ Hm).
      destruct (get config key) as [| |b|n|s|items|props]; try apply H.
      destruct (String.eqb (trim s) "") eqn:Hs; [apply H|].
      intros [= <-]. split; [|by apply String.eqb_neq].
      apply list_elem_of_fmap. by exists (key, var').
    + rewrite (Hout _ Hvar). apply H.
  - intros faqs heading w H. by apply Hinner.
  - intros heading w H. by apply Hinner.
  - intros msg w H. by destruct (renderStatus_cases msg w) as [-> |(d & -> & Hd)].
  - intros msg w H. by apply Hinner.
  - intros faqs heading w H. by rewrite injectJsonLd_ld_scripts.
  - intros index w H var v.
    destruct (toggleItem_same index w) as (_&_&->&_). apply H.
Qed.

Lemma ld_scripts_invariant (E : engine) (n : nat) unroll actions π π' :
  page_maintains (λ w, length (ld_scripts w) ≤ n `max` 1) π →
  steps E unroll actions π = Some π' →
  page_maintains (λ w, length (ld_scripts w) ≤ n `max` 1) π'.
Proof.
  assert (∀ d w, ld_scripts (set_innerHTML d w).2 = ld_scripts w) as Hinner.
  { intros d w. by destruct (set_innerHTML_cases d w) as [-> | ->]. }
  apply steps_maintains; clear -Hinner.
  - by intros a w H.
  - by intros n' w H.
  - by intros w H.
  - intros config w H. by destruct (applyConfig_normal config w) as [s ->].
  - intros faqs heading w H. unfold render. by rewrite Hinner.
  - intros heading w H. unfold renderLoading. by rewrite Hinner.
  - intros msg w H. by destruct (renderStatus_cases msg w) as [-> |(d & -> & Hd)].
  - intros msg w H. unfold renderError. by rewrite Hinner.
  - intros faqs heading w H. rewrite injectJsonLd_ld_scripts.
    cbn [snd ld_scripts set_ld_scripts]. case_bool_decide; [done|].
    rewrite length_app, length_drop. cbn. lia.
  - intros index w H. by destruct (toggleItem_same index w) as (_&_&_&_&->&_).
Qed.

Lemma page_maintains_new (I : widget → Prop) w : I w → page_maintains I (new_page w).
Proof. intros H. split; [done|constructor]. Qed.


(** X16. Whatever happens on the page and in whatever order, at most one
    item shows as open, and it is the one [currentOpenIndex] names - also
    after the view has been rendered anew under a selection made before. *)
Theorem never_two_open (E : engine) unroll actions attrs inline ld π :
  steps E unroll actions (new_page (constructor attrs inline ld)) = Some π →
  (∀ i j, open_at (host π) i → open_at (host π) j → i = j)
  ∧ ∀ i, open_at (host π) i → currentOpenIndex (host π) = Z.of_nat i.
Proof.
  intros Hs.
  assert (open_is_current (constructor attrs inline ld)) as H0
    by (by intros i (it & Hi & _)).
  destruct (open_is_current_invariant E unroll actions _ _
              (page_maintains_new open_is_current _ H0) Hs) as [Hw _].
  split; [|exact Hw]. intros i j Hi Hj. apply Hw in Hi, Hj. lia.
Qed.


(** X18. The structured data does not pile up: whatever happens on the
    page and in whatever order, the light DOM of the element holds at most
    one JSON-LD script, or as many as the page put there itself. *)
Theorem structured_data_does_not_pile_up (E : engine) unroll actions attrs inline ld π :
  steps E unroll actions (new_page (constructor attrs inline ld)) = Some π →
  length (ld_scripts (host π)) ≤ length ld `max` 1.
Proof.
  intros Hs.
  assert (length (ld_scripts (constructor attrs inline ld)) ≤ length ld `max` 1) as H0
    by (cbn; lia).
  destruct (ld_scripts_invariant E (length ld) unroll actions _ _
              (page_maintains_new (λ w, length (ld_scripts w) ≤ length ld `max` 1) _ H0)
              Hs) as [Hw _].
  exact Hw.
Qed.

Lemma busy_page_happens :
  match steps scenario_engine 3 busy_page (new_page remote_element) with
  | Some _ => true
  | None => false
  end = true.
Proof. by vm_compute. Qed.


(** X16 on the same page. *)
Lemma never_two_open_witness :
  ∃ π,
    steps scenario_engine 3 busy_page (new_page remote_element) = Some π
    ∧ ∀ i j, open_at (host π) i → open_at (host π) j → i = j.
Proof.
  pose proof busy_page_happens as Hb.
  destruct (steps scenario_engine 3 busy_page (new_page remote_element))
    as [π|] eqn:Hs; [|discriminate Hb].
  exists π. split; [reflexivity|].
  exact (proj1 (never_two_open scenario_engine 3 busy_page
                  {[ "data-url" := "https://example.org/" ]} None [] π Hs)).
Defined.


(** X18 on the same page: two lists were injected, one script is there. *)
Lemma structured_data_does_not_pile_up_witness :
  ∃ π,
    steps scenario_engine 3 busy_page (new_page remote_element) = Some π
    ∧ ld_scripts (host π) = [JsonLd "Help" [Faq "Q" "A"]]
    ∧ length (ld_scripts (host π)) ≤ 1.
Proof.
  pose proof busy_page_happens as Hb.
  assert (ld_scripts <$> (host <$> steps scenario_engine 3 busy_page
                                     (new_page remote_element))
          = Some [JsonLd "Help" [Faq "Q" "A"]]) as Hv by (by vm_compute).
  destruct (steps scenario_engine 3 busy_page (new_page remote_element))
    as [π|] eqn:Hs; [|discriminate Hb].
  exists π. split; [reflexivity|]. split; [by injection Hv|].
  exact (structured_data_does_not_pile_up scenario_engine 3 busy_page
           {[ "data-url" := "https://example.org/" ]} None [] π Hs).
Defined.

(** ** Attributes the widget does not observe *)

Section Blind.
Context (E : engine).

Lemma blind_bind {A B} (p : prog A) (f : A → prog B) :
  attribute_blind p → (∀ x, attribute_blind (f x)) → attribute_blind (p ≫= f).
Proof.
  intros Hp Hf.
  induction Hp as [x|e| |k Hk Hb IH|m k Hm Hk IH|msg k Hk IH|o text k Hk IH|req k Hk IH
                  |r k Hk IH|ms k Hk IH];
    cbn; [apply Hf|constructor..]; try done; intros; try (by apply IH).
  by rewrite Hk.
Qed.

Lemma blind_try_catch {A} (p : prog A) (h : js_error → prog A) :
  attribute_blind p → (∀ e, attribute_blind (h e)) → attribute_blind (try_catch p h).
Proof.
  intros Hp Hh.
  induction Hp as [x|e| |k Hk Hb IH|m k Hm Hk IH|msg k Hk IH|o text k Hk IH|req k Hk IH
                  |r k Hk IH|ms k Hk IH];
    cbn; [constructor|apply Hh|constructor..]; try done; intros; try (by apply IH).
  by rewrite Hk.
Qed.

Lemma blind_settle_outcome {A} (o : outcome A) : attribute_blind (settle_outcome o).
Proof. destruct o; constructor. Qed.

Lemma blind_call (m : sync unit) :
  (∀ a w, m (set_attributes a w) = ((m w).1, set_attributes a (m w).2)) →
  attribute_blind (call m).
Proof. intros Hm. constructor; [done|]. intros o. apply blind_settle_outcome. Qed.

Lemma blind_read_bind {B} (f : widget → prog B) :
  (∀ a w, f (set_attributes a w) = f w) → (∀ w, attribute_blind (f w)) →
  attribute_blind (read ≫= f).
Proof. intros He Hf. constructor; cbn; [done|]. intros w. apply Hf. Qed.

Lemma blind_mret {A} (x : A) : attribute_blind (mret x).
Proof. constructor. Qed.

Lemma blind_delay ms : attribute_blind (delay ms).
Proof. repeat constructor. Qed.

Lemma blind_console_warn msg : attribute_blind (console_warn msg).
Proof. repeat constructor. Qed.

Lemma blind_fetchFaqs api url lang force :
  attribute_blind (fetchFaqs api url lang force).
Proof.
  unfold fetchFaqs. apply blind_try_catch.
  - apply blind_bind.
    + constructor. intros []; constructor.
    + intros r. destruct (negb (ok r)); [constructor|].
      constructor. intros o. apply blind_settle_outcome.
  - intros e. destruct (String.eqb _ _); constructor.
Qed.

Lemma blind_parseConfig configStr : attribute_blind (parseConfig configStr).
Proof.
  unfold parseConfig. destruct (String.eqb configStr ""); [apply blind_mret|].
  constructor. intros [v|]; [apply blind_mret|].
  apply blind_bind; [apply blind_console_warn|]. intros _. apply blind_mret.
Qed.

Lemma blind_getInlineJson : attribute_blind getInlineJson.
Proof.
  unfold getInlineJson. apply blind_read_bind; [done|]. intros w.
  destruct (inline_script w) as [text|]; [|apply blind_mret].
  case_bool_decide.
  { apply blind_bind; [apply blind_console_warn|]. intros _. apply blind_mret. }
  constructor. intros [[| |b|n|s|data|props]|]; try apply blind_mret.
  - case_bool_decide; [|apply blind_mret].
    apply blind_bind; [apply blind_console_warn|]. intros _. apply blind_mret.
  - apply blind_bind; [apply blind_console_warn|]. intros _. apply blind_mret.
Qed.

(** The synchronous methods do the same to elements that differ in their
    attributes only. *)
Lemma set_innerHTML_attributes d a w :
  set_innerHTML d (set_attributes a w)
  = ((set_innerHTML d w).1, set_attributes a (set_innerHTML d w).2).
Proof.
  unfold set_innerHTML. cbv [mbind sync_bind this]. cbn [shadowRoot set_attributes].
  by destruct (shadowRoot w).
Qed.

Lemma renderStatus_attributes msg a w :
  renderStatus msg (set_attributes a w)
  = ((renderStatus msg w).1, set_attributes a (renderStatus msg w).2).
Proof.
  unfold renderStatus. cbv [mbind sync_bind this]. cbn [shadowRoot set_attributes].
  by destruct (shadowRoot w) as [[]|].
Qed.

Lemma injectJsonLd_attributes faqs heading a w :
  injectJsonLd faqs heading (set_attributes a w)
  = ((injectJsonLd faqs heading w).1, set_attributes a (injectJsonLd faqs heading w).2).
Proof. by rewrite !injectJsonLd_ld_scripts. Qed.

Lemma applyConfig_attributes config a w :
  applyConfig config (set_attributes a w)
  = ((applyConfig config w).1, set_attributes a (applyConfig config w).2).
Proof.
  unfold applyConfig.
  destruct (negb (truthy config) || negb (typeof_object config)); [reflexivity|].
  destruct w as [rc co att st sr ins ld].
  cbv [mbind sync_bind this assign set_attributes set_style style retryCount
       currentOpenIndex attributes shadowRoot inline_script ld_scripts fst snd].
  reflexivity.
Qed.

Lemma blind_show faqs heading jsonld : attribute_blind (show faqs heading jsonld).
Proof.
  unfold show. apply blind_bind; [apply blind_call, set_innerHTML_attributes|]. intros _.
  apply blind_bind; [|intros _; apply blind_mret].
  destruct jsonld; [apply blind_call, injectJsonLd_attributes|apply blind_mret].
Qed.

Lemma blind_count_and_wait : attribute_blind count_and_wait.
Proof.
  unfold count_and_wait. apply blind_bind; [by apply blind_call|].
  intros _. apply blind_read_bind; [done|]. intros w.
  case_bool_decide; [|apply blind_mret].
  apply blind_bind; [apply blind_call, renderStatus_attributes|]. intros _.
  apply blind_bind; [apply blind_delay|]. intros _. apply blind_mret.
Qed.

Lemma blind_recover e : attribute_blind (recover e).
Proof.
  unfold recover. apply blind_bind; [by apply blind_call|].
  intros _. apply blind_read_bind; [done|]. intros w. case_bool_decide.
  - apply blind_bind; [apply blind_call, set_innerHTML_attributes|].
    intros _. apply blind_mret.
  - apply blind_bind; [apply blind_delay|]. intros _. apply blind_mret.
Qed.

Lemma blind_examine api url lang heading jsonld result :
  attribute_blind (examine E api url lang heading jsonld result).
Proof.
  unfold examine. apply blind_bind; [apply blind_settle_outcome|]. intros [].
  { apply blind_show. }
  apply blind_bind; [apply blind_settle_outcome|]. intros []; cbn [negb].
  - apply blind_bind.
    + destruct (wants_refresh result); [|apply blind_mret].
      unfold force_refresh. apply blind_bind; [apply blind_fetchFaqs|].
      intros r. apply blind_bind; [apply blind_settle_outcome|].
      intros []; [apply blind_show|apply blind_mret].
    + intros []; [apply blind_mret|apply blind_count_and_wait].
  - apply blind_bind; [apply blind_call, set_innerHTML_attributes|].
    intros _. apply blind_mret.
Qed.

Lemma blind_retry_loop unroll api url lang heading jsonld :
  attribute_blind (retry_loop E unroll api url lang heading jsonld).
Proof.
  induction unroll as [|unroll IH]; cbn [retry_loop];
    (apply blind_read_bind; [done|]); intros w; case_bool_decide;
    try (apply blind_call, set_innerHTML_attributes).
  - constructor.
  - apply blind_bind.
    + apply blind_try_catch; [|apply blind_recover].
      unfold attempt. apply blind_bind; [apply blind_fetchFaqs|].
      apply blind_examine.
    + intros []; [apply blind_mret|apply IH].
Qed.

(** A run of a method that is blind to the attributes, on an element with
    other attributes. *)
Lemma run_blind {A} (p : prog A) :
  attribute_blind p →
  ∀ a net w, run E p net (set_attributes a w) = with_attributes a (run E p net w).
Proof.
  intros Hp.
  induction Hp as [x|e| |k Hk Hb IH|m k Hm Hk IH|msg k Hk IH|o text k Hk IH|req k Hk IH
                  |r k Hk IH|ms k Hk IH];
    intros a net w; cbn [run]; try reflexivity; try (by rewrite IH).
  - rewrite Hk. apply IH.
  - rewrite Hm. cbn [fst snd]. apply IH.
  - destruct net as [|s net]; [done|]. by rewrite IH.
Qed.


End Blind.

(** ** The properties on examples *)

(** X8 on a reply that is a bare array of three well-formed FAQs. *)
Lemma non_object_reply_is_terminal_witness :
  retryCount (loading_element 0) < maxRetries
  ∧ shadowRoot (loading_element 0)
    = Some (Loading "Frequently Asked Questions" "Loading FAQs...")
  ∧ (∀ props, three_faqs ≠ JObj props)
  ∧ run scenario_engine
      (retry_loop scenario_engine 3 "http://localhost:8000" "https://example.org/" None
         "FAQ" true)
      [replied 200 three_faqs] (loading_element 0)
    = RunResult (Completed tt)
        (set_shadowRoot (Some (ErrorBox "No FAQs available for this page"))
           (loading_element 0))
        [Fetch (page_faqs_request "http://localhost:8000" "https://example.org/" None false)]
        [].
Proof.
  assert (retryCount (loading_element 0) < maxRetries) as Hc
    by (apply Nat.ltb_lt; by vm_compute).
  assert (∀ props, three_faqs ≠ JObj props) as Hr by done.
  split_and!; [exact Hc|reflexivity|exact Hr|].
  exact (non_object_reply_is_terminal scenario_engine "http://localhost:8000"
           "https://example.org/" None "FAQ" true 2 200 three_faqs _ []
           (loading_element 0) Hc eq_refl Hr).
Defined.

(** X9 on a reply with one entry that has no question and no answer, sent
    with the [just_crawled] flag. *)
Lemma unusable_list_ends_cycle_witness :
  retryCount (loading_element 0) < maxRetries
  ∧ get unusable_reply "faqs" = JArr [JObj []]
  ∧ just_crawled unusable_reply = true
  ∧ validateAndLimitFaqs (JArr [JObj []]) = []
  ∧ run scenario_engine
      (retry_loop scenario_engine 3 "http://localhost:8000" "https://example.org/" None
         "FAQ" true)
      [replied 200 unusable_reply] (loading_element 0)
    = RunResult (Completed tt)
        (set_shadowRoot (Some (Notice "FAQ" "No FAQs available")) (loading_element 0))
        [Fetch (page_faqs_request "http://localhost:8000" "https://example.org/" None false)]
        [].
Proof.
  assert (retryCount (loading_element 0) < maxRetries) as Hc
    by (apply Nat.ltb_lt; by vm_compute).
  split_and!; [exact Hc|reflexivity|reflexivity|reflexivity|].
  exact (unusable_list_ends_cycle scenario_engine "http://localhost:8000"
           "https://example.org/" None "FAQ" true 2 200 unusable_reply [JObj []] _ []
           (loading_element 0) Hc eq_refl eq_refl
           ltac:(discriminate) eq_refl).
Defined.

(** X10 on a reply whose message is [true], at the last attempt: the
    error view shows the message of the TypeError. *)
Lemma malformed_message_is_a_failure_witness :
  retryCount (loading_element 2) < maxRetries
  ∧ get malformed_reply "message" = JBool true
  ∧ run scenario_engine
      (retry_loop scenario_engine 3 "http://localhost:8000" "https://example.org/" None
         "FAQ" true)
      [replied 200 malformed_reply] (loading_element 2)
    = run scenario_engine
        (retry_loop scenario_engine 3 "http://localhost:8000" "https://example.org/" None
           "FAQ" true)
        [Rejected includes_not_a_function] (loading_element 2)
  ∧ shadowRoot
      (element
         (run scenario_engine
            (retry_loop scenario_engine 3 "http://localhost:8000" "https://example.org/"
               None "FAQ" true)
            [replied 200 malformed_reply] (loading_element 2)))
    = Some (ErrorBox "Failed to load FAQs: result.message.includes is not a function").
Proof.
  assert (retryCount (loading_element 2) < maxRetries) as Hc
    by (apply Nat.ltb_lt; by vm_compute).
  split_and!; [exact Hc|reflexivity| |by vm_compute].
  exact (malformed_message_is_a_failure scenario_engine "http://localhost:8000"
           "https://example.org/" None "FAQ" true 2 200 malformed_reply []
           (loading_element 2) Hc (or_introl eq_refl) eq_refl eq_refl eq_refl eq_refl
           eq_refl eq_refl).
Defined.


(** ** The loader *)

Section Mounting.
Context (E : engine) (Number_toString : float → string).

Lemma advance_parseConfig configStr :
  ∃ config ev,
    (∀ w, advance E (parseConfig configStr) w = (Over (Normal config), w, ev))
    ∧ Forall (λ e, is_fetch e = false) ev.
Proof.
  unfold parseConfig. destruct (String.eqb configStr "").
  { by exists (JObj []), []. }
  cbn. destruct (JSON_parse E configStr) as [v|]; cbn.
  - eexists _, _. split; [done|]. by repeat constructor.
  - eexists _, _. split; [done|]. by repeat constructor.
Qed.

(** What [applyConfig] does to the style is a function of the style, and
    doing it twice is doing it once. *)
Lemma applyConfig_style config :
  ∃ F : gmap string string → gmap string string,
    (∀ w, applyConfig config w = (Normal tt, set_style (F (style w)) w))
    ∧ ∀ st, F (F st) = F st.
Proof.
  unfold applyConfig.
  destruct (negb (truthy config) || negb (typeof_object config)).
  { exists (λ st, st). split; [|done]. intros w. by destruct w. }
  exists (λ st, foldl (λ st m,
                         match get config m.1 with
                         | JStr v => if String.eqb (trim v) "" then st else <[m.2:=v]> st
                         | _ => st
                         end) st mappings).
  split; [done|]. intros st.
  destruct (foldl_config_lookup config mappings st) as [Hin Hout].
  { apply (bool_decide_unpack _). by vm_compute. }
  cbn zeta in Hin, Hout.
  match goal with |- foldl ?f ?s0 _ = _ =>
    destruct (foldl_config_lookup config mappings s0) as [Hin' Hout']
  end.
  { apply (bool_decide_unpack _). by vm_compute. }
  cbn zeta in Hin', Hout'.
  apply map_eq. intros var.
  destruct (decide (var ∈ mappings.*2)) as [Hvar|Hvar].
  - apply list_elem_of_fmap in Hvar as ([key var'] & -> & Hm). cbn [snd].
    rewrite (Hin' _ _ Hm), (Hin _ _ Hm).
    destruct (get config key) as [| |b|n|s|items|props]; try done.
    by destruct (String.eqb (trim s) "").
  - by rewrite (Hout' _ Hvar).
Qed.

(** The initialisation from the inline data on, after its first steps. *)
Lemma advance_initializeWidget_prepare {A} (K : widget → value → prog A)
    config ev w :
  (∀ w', advance E (parseConfig (or_default (getAttribute "data-config" w) "")) w'
         = (Over (Normal config), w', ev)) →
  advance E (w0 ← read;
             config ← parseConfig (or_default (getAttribute "data-config" w0) "");
             (if bool_decide (shadowRoot w0 = None) then call attachShadow else mret tt);;
             call (applyConfig config);;
             inlineJson ← getInlineJson;
             K w0 inlineJson) w
  = (let '(t, w', ev') :=
       advance E (getInlineJson ≫= K w)
         (applyConfig config
            (if bool_decide (shadowRoot w = None) then set_shadowRoot (Some Blank) w
             else w)).2 in
     (t, w', ev ++ ev')).
Proof.
  intros Hc.
  change (advance E (read ≫= ?f) w) with (advance E (f w) w). cbv beta.
  rewrite advance_bind, Hc. cbn [chain].
  rewrite advance_bind.
  assert (advance E (if bool_decide (shadowRoot w = None) then call attachShadow
                     else mret ()) w
          = (Over (Normal tt),
             if bool_decide (shadowRoot w = None) then set_shadowRoot (Some Blank) w
             else w, [])) as ->.
  { by case_bool_decide. }
  cbn [chain]. rewrite advance_bind, advance_call.
  destruct (applyConfig_normal config
              (if bool_decide (shadowRoot w = None) then set_shadowRoot (Some Blank) w
               else w)) as [s ->].
  cbn [chain fst snd].
  destruct (advance E _ (set_style s _)) as [[t w'] ev']. by rewrite !app_nil_l.
Qed.

(** On an element that the configuration of its [data-config] has been
    applied to already, the initialisation goes as on the element
    before. *)
Lemma advance_initializeWidget_styled unroll config ev w :
  (∀ w', advance E (parseConfig (or_default (getAttribute "data-config" w) "")) w'
         = (Over (Normal config), w', ev)) →
  advance E (initializeWidget E unroll) (applyConfig config w).2
  = advance E (initializeWidget E unroll) w.
Proof.
  intros Hc. destruct (applyConfig_style config) as (F & HF & Hidem).
  rewrite (HF w). cbn [snd]. unfold initializeWidget. cbv zeta.
  erewrite (advance_initializeWidget_prepare _ config ev (set_style (F (style w)) w))
    by exact Hc.
  erewrite (advance_initializeWidget_prepare _ config ev w) by exact Hc.
  rewrite !HF. unfold getAttribute. cbn [snd attributes shadowRoot set_style].
  destruct (bool_decide (shadowRoot w = None));
    cbn [style set_style set_shadowRoot]; by rewrite Hidem.
Qed.

(** Before the element is connected, setting an attribute other than
    [data-config] sets the attribute and nothing else. *)
Lemma steps_before_connection unroll actions : ∀ π,
  Forall (λ a, ∃ name value, a = SetAttribute name value ∧ name ≠ "data-config") actions →
  shadowRoot (host π) = None →
  ∃ parked,
    steps E unroll actions π
    = Some (Page (set_attributes
                    (foldl (λ attrs a,
                              match a with
                              | SetAttribute name value => <[name := value]> attrs
                              | _ => attrs
                              end) (attributes (host π)) actions) (host π))
              parked (history π)).
Proof.
  induction actions as [|a actions IH]; intros π Hf Hs.
  { exists (parked_methods π). cbn. by destruct π as [[] ? ?]. }
  apply Forall_cons in Hf as [(name & value & -> & Hn) Hf].
  cbn [steps step foldl].
  set (w' := set_attributes (<[name:=value]> (attributes (host π))) (host π)).
  assert (∃ parked',
            (if bool_decide (name ∈ observedAttributes)
             then Some (start E (attributeChangedCallback E unroll name
                                   (getAttribute name (host π)) (Some value))
                          (Page w' (parked_methods π) (history π)))
             else Some (Page w' (parked_methods π) (history π)))
            = Some (Page w' parked' (history π))) as [parked' ->].
  { case_bool_decide; [|by eexists].
    unfold start, attributeChangedCallback. apply String.eqb_neq in Hn. rewrite Hn.
    change (advance E (read ≫= ?f) ?w) with (advance E (f w) w). cbv beta.
    cbn [host shadowRoot]. rewrite bool_decide_true by done. cbn.
    eexists. by rewrite app_nil_r. }
  cbn [mbind option_bind].
  destruct (IH (Page w' parked' (history π)) Hf Hs) as [parked ->].
  by exists parked.
Qed.

Lemma copy_if_set_plain dataset key name :
  name ≠ "data-config" →
  Forall (λ a, ∃ name value, a = SetAttribute name value ∧ name ≠ "data-config")
    (copy_if_set dataset key name).
Proof.
  intros Hn. unfold copy_if_set. destruct (dataset !! key) as [v|]; [|constructor].
  destruct (String.eqb v ""); repeat constructor. by eexists _, _.
Qed.

Lemma steps_app unroll l1 l2 π :
  steps E unroll (l1 ++ l2) π = steps E unroll l1 π ≫= steps E unroll l2.
Proof.
  revert π. induction l1 as [|a l1 IH]; intros π; [done|].
  cbn [app steps]. destruct (step E unroll a π) as [π'|]; [|done]. apply IH.
Qed.

Lemma attributes_set_app l1 l2 :
  attributes_set (l1 ++ l2)
  = foldl (λ attrs a,
             match a with
             | SetAttribute name value => <[name := value]> attrs
             | _ => attrs
             end) (attributes_set l1) l2.
Proof. unfold attributes_set. by rewrite foldl_app. Qed.

(** Attributes set before the connection, then perhaps [data-config], then
    the connection. *)
Lemma mount_like_markup unroll plain config :
  Forall (λ a, ∃ name value, a = SetAttribute name value ∧ name ≠ "data-config") plain →
  config = [] ∨ (∃ c, config = [SetAttribute "data-config" c]) →
  ∃ π π0 parsed,
    steps E unroll (plain ++ config ++ [Connect]) (new_page (constructor ∅ None []))
    = Some π
    ∧ step E unroll Connect
        (new_page (constructor (attributes_set (plain ++ config ++ [Connect])) None []))
      = Some π0
    ∧ host π = host π0
    ∧ last (parked_methods π) = last (parked_methods π0)
    ∧ history π = parsed ++ history π0
    ∧ Forall (λ e, is_fetch e = false) parsed.
Proof.
  intros Hplain Hconfig.
  destruct (steps_before_connection unroll plain (new_page (constructor ∅ None []))
              Hplain eq_refl) as [parked Hsteps].
  rewrite steps_app, Hsteps, attributes_set_app. cbn [mbind option_bind].
  change (foldl _ (attributes (host (new_page (constructor ∅ None [])))) plain)
    with (attributes_set plain).
  cbn [host new_page history].
  generalize (attributes_set plain). intros attrs.
  destruct Hconfig as [->|[c ->]]; cbn [app steps step foldl mbind option_bind].
  - unfold start, new_page. cbn [host parked_methods history app].
    change (set_attributes attrs (constructor ∅ None [])) with (constructor attrs None []).
    destruct (advance E (connectedCallback E unroll) (constructor attrs None []))
      as [[t w'] ev'].
    eexists _, _, []. split_and!; try done.
    cbn [parked_methods app]. by rewrite last_snoc.
  - cbn [host getAttribute attributes set_attributes].
    rewrite bool_decide_true by (apply (bool_decide_unpack _); by vm_compute).
    cbn [mbind option_bind].
    change (set_attributes (<["data-config":=c]> attrs)
              (set_attributes attrs (constructor ∅ None [])))
      with (constructor (<["data-config":=c]> attrs) None []).
    set (w2 := constructor (<["data-config":=c]> attrs) None []).
    destruct (advance_parseConfig (or_default (Some c) "")) as (cfg & ev & Hc & Hev).
    assert (∀ old, advance E (attributeChangedCallback E unroll "data-config"
                                old (Some c)) w2
                   = (Over (Normal tt), (applyConfig cfg w2).2, ev)) as Hcallback.
    { intros old. unfold attributeChangedCallback. cbn [String.eqb Ascii.eqb Bool.eqb].
      rewrite advance_bind, Hc. cbn [chain]. rewrite advance_call, app_nil_r.
      by destruct (applyConfig_normal cfg w2) as [s ->]. }
    unfold start, new_page. cbn [host parked_methods history]. rewrite Hcallback.
    cbn [host parked_methods history app].
    unfold connectedCallback.
    rewrite (advance_initializeWidget_styled unroll cfg ev w2).
    2:{ intros w'. unfold getAttribute, w2. cbn [attributes constructor].
        rewrite lookup_insert_eq. apply Hc. }
    destruct (advance E (initializeWidget E unroll) w2) as [[t w'] ev'].
    eexists _, _, ev. split_and!; try done.
    cbn [parked_methods app]. by rewrite last_snoc.
Qed.


End Mounting.


(** ** No exception escapes the initialisation *)

Section Robust.
Context (E : engine).

(** A run stops waiting only where the replies have run out; before that
    every request has taken one reply. *)
Lemma run_replies {A} (p : prog A) : ∀ net w,
  match ended (run E p net w) with
  | AwaitingResponse =>
      unread (run E p net w) = [] ∧ fetches (trace (run E p net w)) = S (length net)
  | _ => fetches (trace (run E p net w)) + length (unread (run E p net w)) = length net
  end.
Proof.
  induction p as [a|e| |k IH|m k IH|msg k IH|o text k IH|req k IH|r k IH|ms k IH];
    intros net w; cbn [run]; try done; try apply IH.
  unfold after. cbn [ended trace unread].
  assert (∀ t, fetches (Fetch req :: t) = S (fetches t)) as Hcons.
  { intros t. unfold fetches. by rewrite filter_cons_True. }
  rewrite Hcons. destruct net as [|s net]; [done|].
  specialize (IH s net w).
  destruct (ended (run E (k s) net w)); cbn [length];
    first [lia|destruct IH; split; [done|lia]].
Qed.

Lemma run_maintains (I : widget → Prop) {A} (p : prog A) :
  maintains I p → ∀ net w, I w → I (element (run E p net w)).
Proof.
  intros Hp.
  induction Hp as [a|e| |k Hk IH|m k Hm Hk IH|msg k Hk IH|o text k Hk IH|req k Hk IH
                  |r k Hk IH|ms k Hk IH];
    intros net w Hw; cbn [run]; try done.
  - by apply IH.
  - apply IH. by apply Hm.
  - by apply IH.
  - by apply IH.
  - destruct net as [|s net]; [done|]. by apply IH.
  - by apply IH.
  - by apply IH.
Qed.

Lemma never_throws_bind {A B} (p : prog A) (f : A → prog B) :
  never_throws E p → (∀ a, never_throws E (f a)) → never_throws E (p ≫= f).
Proof.
  intros Hp Hf net w Hw. rewrite run_bind. destruct (Hp net w Hw) as [Ha He]. revert Ha He.
  destruct (run E p net w) as [[a|e| |] w1 t1 net1];
    cbn [continue before ended element trace unread]; intros Ha He; try done.
  - apply (Hf a net1 w1 Ha).
  - by destruct (He e).
Qed.

Lemma never_throws_try_catch {A} (p : prog A) (h : js_error → prog A) :
  maintains attached p → (∀ e, never_throws E (h e)) → never_throws E (try_catch p h).
Proof.
  intros Hp Hh net w Hw. rewrite run_try_catch.
  pose proof (run_maintains attached p Hp net w Hw) as Ha. revert Ha.
  destruct (run E p net w) as [[a|e| |] w1 t1 net1];
    cbn [handle before ended element trace unread]; intros Ha; try done.
  apply (Hh e net1 w1 Ha).
Qed.

Lemma never_throws_call (m : sync unit) :
  (∀ w, attached w → (m w).1 = Normal tt ∧ attached (m w).2) →
  never_throws E (call m).
Proof.
  intros Hm net w Hw. rewrite run_call. destruct (Hm w Hw) as [-> Ha]. by split.
Qed.

Lemma never_throws_mret {A} (a : A) : never_throws E (mret a).
Proof. by intros net w Hw. Qed.

Lemma never_throws_read_bind {B} (f : widget → prog B) :
  (∀ w, never_throws E (f w)) → never_throws E (read ≫= f).
Proof. intros Hf net w. apply (Hf w net w). Qed.

Lemma never_throws_delay ms : never_throws E (delay ms).
Proof. by intros net w Hw. Qed.

Lemma set_innerHTML_never_throws d w :
  attached w → (set_innerHTML d w).1 = Normal tt ∧ attached (set_innerHTML d w).2.
Proof.
  intros Hw. unfold set_innerHTML, attached in *. cbv [mbind sync_bind this].
  by destruct (shadowRoot w).
Qed.

Lemma renderStatus_never_throws msg w :
  attached w → (renderStatus msg w).1 = Normal tt ∧ attached (renderStatus msg w).2.
Proof.
  intros Hw. unfold renderStatus, attached in *. cbv [mbind sync_bind this].
  destruct (shadowRoot w) as [[]|] eqn:Hs; cbn; by rewrite ?Hs.
Qed.

Lemma injectJsonLd_never_throws faqs heading w :
  attached w →
  (injectJsonLd faqs heading w).1 = Normal tt ∧ attached (injectJsonLd faqs heading w).2.
Proof. intros Hw. rewrite injectJsonLd_ld_scripts. split; [done|exact Hw]. Qed.

Lemma never_throws_recover e : never_throws E (recover e).
Proof.
  unfold recover. apply never_throws_bind.
  { apply never_throws_call. by intros w Hw. }
  intros _. apply never_throws_read_bind. intros w. case_bool_decide.
  - apply never_throws_bind; [|intros _; apply never_throws_mret].
    apply never_throws_call. intros w'. apply set_innerHTML_never_throws.
  - apply never_throws_bind; [apply never_throws_delay|].
    intros _. apply never_throws_mret.
Qed.

(** Every synchronous method leaves the shadow root in place. *)
Lemma maintains_attached_attempt api url lang heading jsonld :
  maintains attached (attempt E api url lang heading jsonld).
Proof.
  unfold attempt. apply maintains_bind; [apply maintains_fetchFaqs|]. intros result.
  apply maintains_examine.
  - by intros n w Hw.
  - intros faqs h w Hw. by apply set_innerHTML_never_throws.
  - intros msg w Hw. by apply renderStatus_never_throws.
  - intros msg w Hw. by apply set_innerHTML_never_throws.
  - intros faqs h w Hw. by apply injectJsonLd_never_throws.
Qed.

Lemma never_throws_retry_loop unroll api url lang heading jsonld :
  never_throws E (retry_loop E unroll api url lang heading jsonld).
Proof.
  induction unroll as [|unroll IH]; cbn [retry_loop];
    apply never_throws_read_bind; intros w; case_bool_decide;
    try (apply never_throws_call; intros w'; apply set_innerHTML_never_throws).
  - by intros net w' Hw.
  - apply never_throws_bind.
    + apply never_throws_try_catch;
        [apply maintains_attached_attempt|apply never_throws_recover].
    + intros []; [apply never_throws_mret|apply IH].
Qed.

(** The loop ends by completing, or waits where the replies run out. *)
Lemma run_retry_loop_ends unroll api url lang heading jsonld net w :
  attached w → maxRetries - retryCount w ≤ unroll →
  attached (element (run E (retry_loop E unroll api url lang heading jsonld) net w))
  ∧ fetches (trace (run E (retry_loop E unroll api url lang heading jsonld) net w)) ≤ 6
  ∧ (ended (run E (retry_loop E unroll api url lang heading jsonld) net w) = Completed tt
     ∧ fetches (trace (run E (retry_loop E unroll api url lang heading jsonld) net w))
       + length (unread (run E (retry_loop E unroll api url lang heading jsonld) net w))
       = length net
     ∨ ended (run E (retry_loop E unroll api url lang heading jsonld) net w)
       = AwaitingResponse
       ∧ unread (run E (retry_loop E unroll api url lang heading jsonld) net w) = []
       ∧ fetches (trace (run E (retry_loop E unroll api url lang heading jsonld) net w))
         = S (length net)).
Proof.
  intros Hw Hu.
  destruct (never_throws_retry_loop unroll api url lang heading jsonld net w Hw)
    as [Ha He].
  destruct (retry_loop_bound E api url lang heading jsonld (λ _, True) unroll I I I net w)
    as (Hb & _ & Hn).
  specialize (Hn Hu).
  pose proof (retry_loop_requests E api url lang heading jsonld unroll net w) as Hr.
  pose proof (run_replies (retry_loop E unroll api url lang heading jsonld) net w) as Hp.
  unfold maxRetries in Hb.
  split; [exact Ha|]. split; [lia|].
  destruct (ended (run E (retry_loop E unroll api url lang heading jsonld) net w))
    as [[]|e| |]; [by left|by destruct (He e)|done|by right].
Qed.

Lemma run_getInlineJson_completes net w :
  ∃ data t,
    run E getInlineJson net w = RunResult (Completed data) w t net
    ∧ Forall (λ e, is_fetch e = false) t.
Proof.
  unfold getInlineJson. rewrite run_bind.
  cbn [read run continue before ended element trace unread app].
  destruct (inline_script w) as [text|]; [|by eexists _, []].
  case_bool_decide.
  { eexists _, _. split; [reflexivity|]. by repeat constructor. }
  cbn [run].
  destruct (JSON_parse E text) as [[| |b|n|s|items|props]|];
    try (eexists _, _; split; [reflexivity|by repeat constructor]).
  case_bool_decide; eexists _, _; (split; [reflexivity|by repeat constructor]).
Qed.

(** X21. No exception escapes the initialisation, whatever the
    attributes, the inline data, the configuration, the engine and the
    replies are: with the loop unrolled three times, a run of
    [initializeWidget] - the asynchronous loop it starts included - either
    completes, each request having taken one reply, or waits for the reply
    to a request where the replies have run out.  It makes at most six
    requests, so six replies always see it through, and it leaves the
    element with its shadow root. *)
Theorem initialization_never_throws unroll net w :
  3 ≤ unroll →
  let r := run E (initializeWidget E unroll) net w in
  attached (element r)
  ∧ fetches (trace r) ≤ 6
  ∧ (ended r = Completed tt ∧ fetches (trace r) + length (unread r) = length net
     ∨ ended r = AwaitingResponse ∧ unread r = []
       ∧ fetches (trace r) = S (length net))
  ∧ (6 ≤ length net → ended r = Completed tt).
Proof.
  intros Hu r.
  assert (attached (element r)
          ∧ fetches (trace r) ≤ 6
          ∧ (ended r = Completed tt ∧ fetches (trace r) + length (unread r) = length net
             ∨ ended r = AwaitingResponse ∧ unread r = []
               ∧ fetches (trace r) = S (length net))) as (Ha & Hf & Hr).
  2:{ split_and!; try done. intros Hn. destruct Hr as [[? _]|(_ & _ & ?)]; [done|lia]. }
  unfold r, initializeWidget. cbv zeta. clear r.
  edestruct (run_initializeWidget_prepare E (A:=unit))
    as (t & w' & Ht & [d Hd] & _ & _ & _ & _ & _ & Hrun).
  rewrite Hrun. clear Hrun.
  destruct (run_getInlineJson_completes net w') as (data & t0 & -> & Ht0).
  cbn [continue ended element trace unread]. rewrite before_before.
  assert (fetches (t ++ t0) = 0) as Hquiet.
  { apply fetches_none, Forall_app. split; [|done].
    eapply Forall_impl; [exact Ht|]. by intros e []. }
  assert (attached w') as Hw' by (unfold attached; by rewrite Hd).
  assert (∀ R : outcome_of_run unit,
            attached (element R) → fetches (trace R) ≤ 6 →
            (ended R = Completed tt ∧ fetches (trace R) + length (unread R) = length net
             ∨ ended R = AwaitingResponse ∧ unread R = []
               ∧ fetches (trace R) = S (length net)) →
            attached (element (before (t ++ t0) R))
            ∧ fetches (trace (before (t ++ t0) R)) ≤ 6
            ∧ (ended (before (t ++ t0) R) = Completed tt
               ∧ fetches (trace (before (t ++ t0) R))
                 + length (unread (before (t ++ t0) R)) = length net
               ∨ ended (before (t ++ t0) R) = AwaitingResponse
                 ∧ unread (before (t ++ t0) R) = []
                 ∧ fetches (trace (before (t ++ t0) R)) = S (length net))) as Hbefore.
  { intros R HRa HRf HRe. unfold before. cbn [ended element trace unread].
    rewrite fetches_app, Hquiet. by split_and!. }
  assert (∀ w'', attached w'' →
            attached (element (RunResult (Completed tt) w'' [] net))
            ∧ fetches (trace (RunResult (Completed tt) w'' [] net)) ≤ 6
            ∧ (ended (RunResult (Completed tt) w'' [] net) = Completed tt
               ∧ fetches (trace (RunResult (Completed tt) w'' [] net))
                 + length (unread (RunResult (Completed tt) w'' [] net)) = length net
               ∨ ended (RunResult (Completed tt) w'' [] net) = AwaitingResponse
                 ∧ unread (RunResult (Completed tt) w'' [] net) = []
                 ∧ fetches (trace (RunResult (Completed tt) w'' [] net)) = S (length net)))
    as Hquietly.
  { intros w'' Hw''. cbn [ended element trace unread]. split; [done|].
    change (fetches []) with 0. split; [lia|by left]. }
  destruct (truthy data); [|destruct (String.eqb _ _)].
  - assert (∃ w'', run E (call (render data (or_default (getAttribute "data-heading" w)
                                              "Frequently Asked Questions"));;
                          (if negb (bool_decide (getAttribute "data-jsonld" w = Some "off"))
                           then call (injectJsonLd data
                                        (or_default (getAttribute "data-heading" w)
                                           "Frequently Asked Questions"))
                           else mret ())) net w'
                   = RunResult (Completed tt) w'' [] net ∧ attached w'')
      as (w'' & -> & Hw'').
    { rewrite run_bind, run_call.
      destruct (set_innerHTML_never_throws
                  (content data (or_default (getAttribute "data-heading" w)
                                   "Frequently Asked Questions")) w' Hw') as [Hn Hs].
      unfold render. rewrite Hn.
      cbn [continue before ending_of ended element trace unread fst snd app].
      destruct (negb _); [|by eexists].
      rewrite run_call.
      destruct (injectJsonLd_never_throws data
                  (or_default (getAttribute "data-heading" w)
                     "Frequently Asked Questions") _ Hs) as [Hn' Hs'].
      rewrite Hn'. by eexists. }
    destruct (Hquietly w'' Hw'') as (H1 & H2 & H3). by apply Hbefore.
  - rewrite run_call.
    destruct (set_innerHTML_never_throws
                (ErrorBox "No URL provided and no inline FAQs found") w' Hw') as [Hn Hs].
    unfold renderError. rewrite Hn. cbn [ending_of].
    destruct (Hquietly _ Hs) as (H1 & H2 & H3). by apply Hbefore.
  - rewrite run_bind, run_call.
    destruct (set_innerHTML_never_throws
                (Loading (or_default (getAttribute "data-heading" w)
                            "Frequently Asked Questions") "Loading FAQs...") w' Hw')
      as [Hn Hs].
    unfold renderLoading. rewrite Hn.
    cbn [continue ending_of ended element trace unread fst snd].
    rewrite before_nil, run_loadFaqsWithRetry.
    match goal with |- context [run E (retry_loop E unroll ?api ?url ?lang ?h ?j) net ?w2] =>
      destruct (run_retry_loop_ends unroll api url lang h j net w2) as (H1 & H2 & H3)
    end; [exact Hs|cbn; unfold maxRetries; lia|].
    by apply Hbefore.
Qed.

End Robust.

(** X21 on an element with a target URL, against replies that say three
    times that the FAQs are being generated. *)
Lemma initialization_never_throws_witness :
  let r := run scenario_engine (initializeWidget scenario_engine 3)
             [replied 200 in_progress_reply; replied 200 in_progress_reply;
              replied 200 in_progress_reply] remote_element in
  3 ≤ 3
  ∧ ended r = Completed tt
  ∧ fetches (trace r) = 3
  ∧ shadowRoot (element r) = Some (ErrorBox "No FAQs generated after multiple attempts")
  ∧ attached (element r).
Proof.
  intros r.
  destruct (initialization_never_throws scenario_engine 3
              [replied 200 in_progress_reply; replied 200 in_progress_reply;
               replied 200 in_progress_reply] remote_element (le_n 3)) as (Ha & _).
  split_and!; [lia|by vm_compute|by vm_compute|by vm_compute|exact Ha].
Defined.

(** ** No exception escapes, in whatever order things happen *)

Section Contained.
Context (E : engine).

Lemma contained_bind (I : widget → Prop) {A B} (p : prog A) (f : A → prog B) :
  contained I p → (∀ a, contained I (f a)) → contained I (p ≫= f).
Proof.
  intros Hp Hf.
  induction Hp as [a| |k Hk IH|m k Hm Hk IH|msg k Hk IH|o text k Hk IH|req k Hk IH
                  |r k Hk IH|ms k Hk IH];
    cbn; [apply Hf|constructor..]; try done; intros; by apply IH.
Qed.

Lemma contained_try_catch (I : widget → Prop) {A} (p : prog A) (h : js_error → prog A) :
  maintains I p → (∀ e, contained I (h e)) → contained I (try_catch p h).
Proof.
  intros Hp Hh.
  induction Hp as [a|e| |k Hk IH|m k Hm Hk IH|msg k Hk IH|o text k Hk IH|req k Hk IH
                  |r k Hk IH|ms k Hk IH];
    cbn; [constructor|apply Hh|constructor..]; try done; intros; by apply IH.
Qed.

Lemma contained_call (I : widget → Prop) (m : sync unit) :
  (∀ w, I w → (m w).1 = Normal tt ∧ I (m w).2) → contained I (call m).
Proof.
  intros Hm. constructor.
  - intros w Hw. by apply Hm.
  - intros w Hw. destruct (Hm w Hw) as [-> _]. constructor.
Qed.

Lemma contained_read_bind (I : widget → Prop) {B} (f : widget → prog B) :
  (∀ w, I w → contained I (f w)) → contained I (read ≫= f).
Proof. intros Hf. constructor. intros w Hw. cbn. by apply Hf. Qed.

Lemma contained_mret (I : widget → Prop) {A} (a : A) : contained I (mret a).
Proof. constructor. Qed.

Lemma contained_delay (I : widget → Prop) ms : contained I (delay ms).
Proof. repeat constructor. Qed.

Lemma contained_console_warn (I : widget → Prop) msg : contained I (console_warn msg).
Proof. repeat constructor. Qed.

Lemma contained_getInlineJson (I : widget → Prop) : contained I getInlineJson.
Proof.
  unfold getInlineJson. apply contained_read_bind. intros w _.
  destruct (inline_script w) as [text|]; [|apply contained_mret].
  case_bool_decide.
  { apply contained_bind; [apply contained_console_warn|]. intros _. apply contained_mret. }
  constructor. intros [[| |b|n|s|data|props]|]; try apply contained_mret.
  - case_bool_decide; [|apply contained_mret].
    apply contained_bind; [apply contained_console_warn|]. intros _. apply contained_mret.
  - apply contained_bind; [apply contained_console_warn|]. intros _. apply contained_mret.
Qed.

Lemma contained_recover e : contained attached (recover e).
Proof.
  unfold recover. apply contained_bind.
  { apply contained_call. by intros w Hw. }
  intros _. apply contained_read_bind. intros w _. case_bool_decide.
  - apply contained_bind; [|intros _; apply contained_mret].
    apply contained_call. intros w'. apply set_innerHTML_never_throws.
  - apply contained_bind; [apply contained_delay|]. intros _. apply contained_mret.
Qed.

Lemma contained_retry_loop unroll api url lang heading jsonld :
  contained attached (retry_loop E unroll api url lang heading jsonld).
Proof.
  induction unroll as [|unroll IH]; cbn [retry_loop];
    apply contained_read_bind; intros w _; case_bool_decide;
    try (apply contained_call; intros w'; apply set_innerHTML_never_throws).
  - constructor.
  - apply contained_bind.
    + apply contained_try_catch;
        [apply maintains_attached_attempt|apply contained_recover].
    + intros []; [apply contained_mret|apply IH].
Qed.

(** Up to its next [await], a method that contains its exceptions has
    not thrown, and what it parks will not. *)
Lemma advance_contained (I : widget → Prop) {A} (p : prog A) w :
  contained I p → I w →
  I (advance E p w).1.2 ∧ parked_contained I (advance E p w).1.1.
Proof.
  intros Hp. revert w.
  induction Hp as [a| |k Hk IH|m k Hm Hk IH|msg k Hk IH|o text k Hk IH|req k Hk IH
                  |r k Hk IH|ms k Hk IH];
    intros w Hw; cbn [advance]; try done.
  - by apply IH.
  - apply IH; [done|]. by apply Hm.
  - specialize (IH w Hw). by destruct (advance E k w) as [[t w'] ev].
  - specialize (IH (JSON_parse E text) w Hw).
    by destruct (advance E (k (JSON_parse E text)) w) as [[t w'] ev].
Qed.

(** The initialisation, started on any element. *)
Lemma advance_initializeWidget_contained unroll w :
  attached (advance E (initializeWidget E unroll) w).1.2
  ∧ parked_contained attached (advance E (initializeWidget E unroll) w).1.1.
Proof.
  unfold initializeWidget. cbv zeta.
  destruct (advance_parseConfig E (or_default (getAttribute "data-config" w) ""))
    as (config & ev & Hc & _).
  erewrite (advance_initializeWidget_prepare E _ config ev w) by exact Hc.
  set (w1 := if bool_decide (shadowRoot w = None) then set_shadowRoot (Some Blank) w
             else w).
  assert (attached (applyConfig config w1).2) as Ha.
  { destruct (applyConfig_normal config w1) as [s ->]. unfold attached, w1. cbn.
    case_bool_decide; [done|]. by cbn. }
  match goal with |- context [advance E ?p (applyConfig config w1).2] =>
    assert (contained attached p) as Hp
  end.
  { apply contained_bind; [apply contained_getInlineJson|]. intros inlineJson.
    destruct (truthy inlineJson).
    { apply contained_bind.
      { apply contained_call. intros w'. apply set_innerHTML_never_throws. }
      intros _. destruct (negb _); [|apply contained_mret].
      apply contained_call. intros w'. apply injectJsonLd_never_throws. }
    destruct (String.eqb _ _).
    { apply contained_call. intros w'. apply set_innerHTML_never_throws. }
    apply contained_bind.
    { apply contained_call. intros w'. apply set_innerHTML_never_throws. }
    intros _. unfold loadFaqsWithRetry. apply contained_bind.
    { apply contained_call. by intros w' Hw'. }
    intros _. apply contained_retry_loop. }
  destruct (advance_contained attached _ _ Hp Ha) as [Ha' Ht].
  by destruct (advance E _ (applyConfig config w1).2) as [[t w'] ev'].
Qed.

Lemma advance_attributeChangedCallback_contained unroll name oldValue newValue w :
  (attached w → attached (advance E (attributeChangedCallback E unroll name oldValue
                                        newValue) w).1.2)
  ∧ parked_contained attached
      (advance E (attributeChangedCallback E unroll name oldValue newValue) w).1.1
  ∧ (attached (advance E (attributeChangedCallback E unroll name oldValue newValue) w).1.2
     ∨ is_over (advance E (attributeChangedCallback E unroll name oldValue newValue) w).1.1).
Proof.
  unfold attributeChangedCallback. destruct (String.eqb name "data-config").
  - destruct (advance_parseConfig E (or_default newValue "")) as (config & ev & Hc & _).
    rewrite advance_bind, Hc. cbn [chain]. rewrite advance_call.
    destruct (applyConfig_normal config w) as [s ->]. cbn. split_and!; try done. by right.
  - change (advance E (read ≫= ?f) w) with (advance E (f w) w). cbv beta.
    case_bool_decide as Hs.
    + cbn. split_and!; try done. by right.
    + destruct (advance_initializeWidget_contained unroll w) as [Ha Ht].
      split_and!; try done. by left.
Qed.

Lemma sound_page_resume i (p : prog unit) π t0 :
  sound_page π → parked_methods π !! i = Some t0 → ¬ is_over t0 →
  contained attached p → sound_page (resume E i p π).
Proof.
  intros [Hm Ha] Hi Ht0 Hp.
  assert (attached (host π)) as Hw.
  { destruct Ha as [Ha|Ho]; [done|]. destruct Ht0.
    by apply (Forall_lookup_1 _ _ _ _ Ho Hi). }
  unfold resume. destruct (advance_contained attached p (host π) Hp Hw) as [Hw' Ht].
  destruct (advance E p (host π)) as [[t w'] ev]. split; [|by left].
  by apply Forall_insert.
Qed.

Lemma step_sound unroll a π π' :
  sound_page π → step E unroll a π = Some π' → sound_page π'.
Proof.
  intros Hπ Hs. destruct a as [|name value|index|i s|i|i]; cbn [step] in Hs.
  - injection Hs as <-. destruct Hπ as [Hm _]. unfold start, connectedCallback.
    destruct (advance_initializeWidget_contained unroll (host π)) as [Ha Ht].
    destruct (advance E (initializeWidget E unroll) (host π)) as [[t w'] ev].
    split; [|by left]. apply Forall_app. split; [done|by constructor].
  - set (w1 := set_attributes (<[name:=value]> (attributes (host π))) (host π)) in *.
    case_bool_decide; injection Hs as <-; [|exact Hπ].
    destruct Hπ as [Hm Ha]. unfold start. cbn [host parked_methods history].
    destruct (advance_attributeChangedCallback_contained unroll name
                (getAttribute name (host π)) (Some value) w1) as (Hk & Ht & Ho).
    destruct (advance E _ w1) as [[t w'] ev]. cbn [fst snd] in *. split.
    + apply Forall_app. split; [done|by constructor].
    + destruct Ha as [Ha|Ha]; [left; by apply Hk|].
      destruct Ho as [Ho|Ho]; [by left|right].
      apply Forall_app. split; [done|by constructor].
  - destruct (shadowRoot (host π)) as [[|h items| | |]|] eqn:Hv; try done.
    case_bool_decide; [|done]. injection Hs as <-.
    destruct Hπ as [Hm _]. split; [done|]. left. cbn [host].
    destruct (toggleItem_same index (host π)) as (_&_&_&_&_&Hsame).
    unfold attached. rewrite Hv in Hsame. by destruct (shadowRoot (toggleItem _ _).2).
  - destruct (parked_methods π !! i) as [[| |req k| |]|] eqn:Hi; try done.
    injection Hs as <-. eapply sound_page_resume; [done|exact Hi|by intros ?|].
    destruct Hπ as [Hm _]. apply (Forall_lookup_1 _ _ _ _ Hm Hi).
  - destruct (parked_methods π !! i) as [[| | |r k|]|] eqn:Hi; try done.
    injection Hs as <-. eapply sound_page_resume; [done|exact Hi|by intros ?|].
    destruct Hπ as [Hm _]. apply (Forall_lookup_1 _ _ _ _ Hm Hi).
  - destruct (parked_methods π !! i) as [[| | | |ms k]|] eqn:Hi; try done.
    injection Hs as <-. eapply sound_page_resume; [done|exact Hi|by intros ?|].
    destruct Hπ as [Hm _]. apply (Forall_lookup_1 _ _ _ _ Hm Hi).
Qed.

Lemma steps_sound unroll actions : ∀ π π',
  sound_page π → steps E unroll actions π = Some π' → sound_page π'.
Proof.
  induction actions as [|a actions IH]; intros π π' Hπ Hs; cbn [steps] in Hs.
  - by injection Hs as <-.
  - destruct (step E unroll a π) as [π1|] eqn:H1; [|done]. cbn in Hs.
    eapply IH; [|done]. by eapply step_sound.
Qed.

(** X22. No callback of the element ends with an exception, in whatever
    order things happen and whatever the attributes, the inline data, the
    engine and the replies are: of the methods started on the page -
    [connectedCallback], [attributeChangedCallback] and the asynchronous
    loops they start, which nobody awaits - none has thrown, and none of
    those still waiting will.  Once the shadow root is attached it stays;
    before that no method is waiting. *)
Theorem no_callback_throws unroll actions attrs inline ld π :
  steps E unroll actions (new_page (constructor attrs inline ld)) = Some π →
  (∀ i e, parked_methods π !! i ≠ Some (Over (Thrown e)))
  ∧ (shadowRoot (host π) = None → Forall is_over (parked_methods π)).
Proof.
  intros Hs.
  assert (sound_page (new_page (constructor attrs inline ld))) as H0.
  { split; [constructor|right; constructor]. }
  pose proof (steps_sound unroll actions _ _ H0 Hs) as [Hm Ha].
  split_and!.
  - intros i e Hi. by apply (Forall_lookup_1 _ _ _ _ Hm Hi).
  - intros Hn. by destruct Ha as [Ha|Ha].
Qed.

End Contained.

(** X22 on the page where FAQs are fetched twice and questions are
    clicked. *)
Lemma no_callback_throws_witness :
  ∃ π,
    steps scenario_engine 3 busy_page (new_page remote_element) = Some π
    ∧ length (parked_methods π) = 3
    ∧ ∀ i e, parked_methods π !! i ≠ Some (Over (Thrown e)).
Proof.
  pose proof busy_page_happens as Hb.
  assert (length <$> (parked_methods <$> steps scenario_engine 3 busy_page
                                           (new_page remote_element)) = Some 3) as Hl
    by (by vm_compute).
  destruct (steps scenario_engine 3 busy_page (new_page remote_element))
    as [π|] eqn:Hs; [|discriminate Hb].
  exists π. split; [reflexivity|]. split; [by injection Hl|].
  exact (proj1 (no_callback_throws scenario_engine 3 busy_page
                  {[ "data-url" := "https://example.org/" ]} None [] π Hs)).
Defined.
